(** * Verification of the album-mosaic compositor and the playlist tracker

    Shallow embedding of
    - [album_mosaic/sort_by_color.py]: the grid compositor [results_montage]
      and the dominant-colour selection [get_dominant_color];
    - [playlist_tracker/track_new_songs.py] and
      [playlist_tracker/track_new_songs_oauth.py]: the date filter, the
      batched playlist writer, the cursor file, the token cache and the
      per-playlist loop of [main];
    - [shared/spotify_client.py]: the paged read [get_playlist].

    Python integers are [Z]; [//] and [%] are [Z.div] and [Z.modulo] (both
    round towards minus infinity, as Python does).  The canvas of the
    compositor is a [uint8] array: what is assigned into it is stored
    modulo 256.  A raised exception is the
    left injection of a sum.  Third-party routines whose numerics are not
    part of the repository (cv2.resize, cv2.putText, cv2.rectangle,
    sklearn's KMeans, datetime.strptime, the HTTP server) are parameters of
    the sections that use them. *)

From Stdlib Require Import ZArith Lia Bool Ascii String.
From stdpp Require Import base option list gmap strings.

Local Open Scope Z_scope.

(** ** Exceptions *)

Inductive exn : Type :=
| ValueError
| ZeroDivisionError
| KeyError
| TypeError
| IndexError
| OverflowError
| EOFError
| Cv2Error
| ConnectionError
| Exception (msg : string) (status : Z)
| SystemExit (code : Z).

(** What [except Exception] catches: everything but [SystemExit]. *)
Definition is_Exception (e : exn) : bool :=
  match e with
  | SystemExit _ => false
  | _ => true
  end.

(** ** numpy arrays of shape (h, w, 3)

    The channels of a pixel are integers; an image need not be [uint8], the
    canvas always is. *)

Module Np.

Definition pixel : Type := Z * Z * Z.

Definition black : pixel := (0, 0, 0).

(** The cast of an integer channel to [uint8] that numpy makes when a value
    is assigned into a [uint8] array: the value modulo 256 (300 becomes 44,
    -1 becomes 255, 256 becomes 0). *)
Definition uint8 (c : Z) : Z := c mod 256.

Definition as_uint8 (p : pixel) : pixel := (uint8 p.1.1, uint8 p.1.2, uint8 p.2).

(** The shape is kept next to the data: a slice of zero rows still has a
    column count, and broadcasting looks at it. *)
Record ndarray : Type := NdArray {
  shape0 : Z;
  shape1 : Z;
  pixels : list (list pixel)
}.

(** [a[y, x]], [black] outside the stored data. *)
Definition px (a : ndarray) (y x : nat) : pixel :=
  default black (pixels a !! y ≫= (.!! x)).

(** [np.zeros((h, w, 3), dtype="uint8")]: negative dimensions raise. *)
Definition zeros (h w : Z) : exn + ndarray :=
  if (h <? 0) || (w <? 0) then inl ValueError
  else inr (NdArray h w (replicate (Z.to_nat h) (replicate (Z.to_nat w) black))).

(** One bound of a basic slice [start:stop] on an axis of length [n]:
    negative indices count from the end, everything is clipped. *)
Definition slice_bound (n i : Z) : Z :=
  if i <? 0 then Z.max (i + n) 0 else Z.min i n.

(** The half-open interval selected by [start:stop]; empty when the clipped
    stop is not after the clipped start. *)
Definition slice_range (n start stop : Z) : Z * Z :=
  let s := slice_bound n start in
  (s, Z.max s (slice_bound n stop)).

(** A value axis of length [v] broadcasts to a target axis of length [t]
    when they agree or the value axis has length one. *)
Definition broadcastable (v t : Z) : bool :=
  (v =? t) || (v =? 1).

Definition in_range (lo hi : Z) (i : nat) : bool :=
  (lo <=? Z.of_nat i) && (Z.of_nat i <? hi).

(** Index into the value along one axis under broadcasting. *)
Definition bidx (vlen lo : Z) (i : nat) : nat :=
  if vlen =? 1 then 0%nat else Z.to_nat (Z.of_nat i - lo).

(** [a[startY:endY, startX:endX] = v], in place, for a canvas [a] of dtype
    [uint8] (the only array the script assigns into is the one [np.zeros]
    built with [dtype="uint8"]).  Raises when [v] does not broadcast to the
    shape of the (clipped) slice; the values stored are cast to [uint8]. *)
Definition setitem (a : ndarray) (startY endY startX endX : Z) (v : ndarray)
  : exn + ndarray :=
  let '(y0, y1) := slice_range (shape0 a) startY endY in
  let '(x0, x1) := slice_range (shape1 a) startX endX in
  if broadcastable (shape0 v) (y1 - y0) && broadcastable (shape1 v) (x1 - x0)
  then inr (NdArray (shape0 a) (shape1 a)
              (imap (λ y r,
                 imap (λ x p,
                   if in_range y0 y1 y && in_range x0 x1 x
                   then as_uint8 (px v (bidx (shape0 v) y0 y) (bidx (shape1 v) x0 x))
                   else p) r) (pixels a)))
  else inl ValueError.

(** The data agrees with the recorded shape. *)
Definition wf (a : ndarray) : Prop :=
  0 <= shape0 a ∧ 0 <= shape1 a ∧
  length (pixels a) = Z.to_nat (shape0 a) ∧
  Forall (λ r, length r = Z.to_nat (shape1 a)) (pixels a).

(** [image.reshape((image.shape[0] * image.shape[1], 3))]: the pixels in
    row-major order. *)
Definition reshape_pixels (a : ndarray) : list pixel := concat (pixels a).

End Np.

Import Np.

(** ** Exceptions as the left injection of a sum *)

#[global] Instance sum_bind {E : Type} : MBind (sum E) :=
  λ A B f m, match m with inl e => inl e | inr a => f a end.

#[global] Instance sum_ret {E : Type} : MRet (sum E) := λ A a, inr a.

(** ** The grid compositor: class [results_montage] *)

Module Montage.

Record results_montage : Type := Self {
  imageW : Z;
  imageH : Z;
  images_per_main_axis : Z;
  by_row : bool;
  montage : ndarray;
  counter : Z;
  row : Z;
  col : Z
}.

Definition set_cursor (self : results_montage) (r c : Z) : results_montage :=
  Self (imageW self) (imageH self) (images_per_main_axis self) (by_row self)
       (montage self) (counter self) r c.

Definition set_montage (self : results_montage) (m : ndarray) : results_montage :=
  Self (imageW self) (imageH self) (images_per_main_axis self) (by_row self)
       m (counter self) (row self) (col self).

Definition set_counter (self : results_montage) (n : Z) : results_montage :=
  Self (imageW self) (imageH self) (images_per_main_axis self) (by_row self)
       (montage self) n (row self) (col self).

(** [results_montage.__init__(image_size, images_per_main_axis, num_results,
    by_row)]. *)
Definition init (image_size : Z * Z) (images_per_main_axis num_results : Z)
    (by_row : bool) : exn + results_montage :=
  let imageW := image_size.1 in
  let imageH := image_size.2 in
  if images_per_main_axis =? 0 then inl ZeroDivisionError
  else
    let num_main_axis := - (- num_results / images_per_main_axis) in
    m ← (if by_row
         then zeros (num_main_axis * imageW)
                    (Z.min images_per_main_axis num_results * imageH)
         else zeros (Z.min images_per_main_axis num_results * imageW)
                    (num_main_axis * imageH));
    mret (Self imageW imageH images_per_main_axis by_row m 0 0 0).

(** The first statement of [add_result]: when a full line has been placed,
    move the cursor to the start of the next row (row-major) or of the next
    column (column-major).  [and] does not evaluate the modulus when the
    counter is zero. *)
Definition wrap_cursor (self : results_montage) : exn + results_montage :=
  if counter self =? 0 then inr self
  else if images_per_main_axis self =? 0 then inl ZeroDivisionError
  else if counter self mod images_per_main_axis self =? 0 then
    if by_row self
    then inr (set_cursor self (row self + 1) 0)
    else inr (set_cursor self 0 (col self + 1))
  else inr self.

(** [(startY, endY)] and [(startX, endX)] of the cell under the cursor. *)
Definition cell_slice (self : results_montage) : (Z * Z) * (Z * Z) :=
  ((row self * imageW self, (row self + 1) * imageW self),
   (col self * imageH self, (col self + 1) * imageH self)).

(** The last statements of [add_result]: step along the main axis and count
    the image. *)
Definition advance (self : results_montage) : results_montage :=
  let self := if by_row self
              then set_cursor self (row self) (col self + 1)
              else set_cursor self (row self + 1) (col self) in
  set_counter self (counter self + 1).

(** One call of [add_result]: the image, the optional label and the highlight
    flag. *)
Definition call : Type := ndarray * option string * bool.

Section Compositor.

(** [cv2.resize(image, (width, height))]. *)
Variable cv2_resize : ndarray → Z * Z → exn + ndarray.
(** [cv2.putText(img, text, org, FONT_HERSHEY_SIMPLEX, .5, (0,0,255), 2)]
    and [cv2.rectangle(img, pt1, pt2, (0,255,0), 4)], drawing in place. *)
Variable cv2_putText : ndarray → string → Z * Z → ndarray.
Variable cv2_rectangle : ndarray → Z * Z → Z * Z → ndarray.

(** [results_montage.add_result(image, text, highlight)].  An exception
    leaves the object as mutated so far, which is what the left injection
    carries. *)
Definition add_result (self : results_montage) (c : call)
  : exn * results_montage + results_montage :=
  let '(image, text, highlight) := c in
  match wrap_cursor self with
  | inl e => inl (e, self)
  | inr self =>
    match cv2_resize image (imageH self, imageW self) with
    | inl e => inl (e, self)
    | inr image =>
      let '((startY, endY), (startX, endX)) := cell_slice self in
      match setitem (montage self) startY endY startX endX image with
      | inl e => inl (e, self)
      | inr m =>
        let m := match text with
                 | Some t => cv2_putText m t (startX + 5, startY + 13)
                 | None => m
                 end in
        let m := if highlight
                 then cv2_rectangle m (startX + 3, startY + 3) (endX - 3, endY - 3)
                 else m in
        inr (advance (set_montage self m))
      end
    end
  end.

(** Successive calls, as in the script's [for ind in sorted_inds] loop: the
    first exception ends the run. *)
Fixpoint add_results (self : results_montage) (cs : list call)
  : exn * results_montage + results_montage :=
  match cs with
  | [] => inr self
  | c :: cs => self ← add_result self c; add_results self cs
  end.

(** The object after a call, whether it returned or raised. *)
Definition attempt (self : results_montage) (c : call) : results_montage :=
  match add_result self c with
  | inr self => self
  | inl (_, self) => self
  end.

(** The grid cells [(row, col)] written by the calls of a run, in call
    order, up to the first exception. *)
Fixpoint placements (self : results_montage) (cs : list call) : list (Z * Z) :=
  match cs with
  | [] => []
  | c :: cs =>
    match wrap_cursor self, add_result self c with
    | inr at_cell, inr self => (row at_cell, col at_cell) :: placements self cs
    | _, _ => []
    end
  end.

End Compositor.

(** Whole cells of the canvas: grid rows, grid columns, and their product. *)
Definition grid_rows (self : results_montage) : Z :=
  shape0 (montage self) / imageW self.

Definition grid_cols (self : results_montage) : Z :=
  shape1 (montage self) / imageH self.

Definition capacity (self : results_montage) : Z :=
  grid_rows self * grid_cols self.

(** The pixel rectangle of grid cell [(r, c)]. *)
Definition in_cell (self : results_montage) (rc : Z * Z) (y x : nat) : Prop :=
  rc.1 * imageW self <= Z.of_nat y < (rc.1 + 1) * imageW self ∧
  rc.2 * imageH self <= Z.of_nat x < (rc.2 + 1) * imageH self.

(** A sampling resize, standing in for cv2's interpolation when the model is
    run on concrete images. *)
Definition resize_nearest (image : ndarray) (dsize : Z * Z) : exn + ndarray :=
  let '(w, h) := dsize in
  if (w <=? 0) || (h <=? 0) || (shape0 image <=? 0) || (shape1 image <=? 0)
  then inl Cv2Error
  else inr (NdArray h w
         (map (λ y, map (λ x, px image (Z.to_nat (Z.of_nat y * shape0 image / h))
                                      (Z.to_nat (Z.of_nat x * shape1 image / w)))
                        (seq 0 (Z.to_nat w)))
              (seq 0 (Z.to_nat h)))).

(** Drawing stand-ins for concrete runs: the label's origin pixel is set to
    red, the rectangle's first corner to green (when inside the array). *)
Definition mark (m : ndarray) (pt : Z * Z) (colour : pixel) : ndarray :=
  NdArray (shape0 m) (shape1 m)
    (imap (λ y r, imap (λ x p,
       if (Z.of_nat x =? pt.1) && (Z.of_nat y =? pt.2) then colour else p) r)
       (pixels m)).

Definition putText_mark (m : ndarray) (text : string) (org : Z * Z) : ndarray :=
  mark m org (0, 0, 255).

Definition rectangle_mark (m : ndarray) (pt1 pt2 : Z * Z) : ndarray :=
  mark m pt1 (0, 255, 0).

(** A one-colour image. *)
Definition solid (h w : Z) (c : pixel) : ndarray :=
  NdArray h w (replicate (Z.to_nat h) (replicate (Z.to_nat w) c)).

(** *** Vocabulary for the properties of the compositor *)

(** Ceiling division, written as [__init__] writes it. *)
Definition ceil_div (a b : Z) : Z := - (- a / b).

(** The grid cell of the image with index [i] (0-based) in a grid filled
    [P] images at a time along the main axis. *)
Definition cell_of (by_row : bool) (P i : Z) : Z * Z :=
  if by_row then (i / P, i mod P) else (i mod P, i / P).

(** The cells of the first [n] images, in order of placement. *)
Definition cells_in_order (by_row : bool) (P : Z) (n : nat) : list (Z * Z) :=
  map (λ k, cell_of by_row P (Z.of_nat k)) (seq 0 n).

(** Where the cursor [(row, col)] rests once [i] images have been placed. *)
Definition cursor_after (by_row : bool) (P i : Z) : Z * Z :=
  if i =? 0 then (0, 0)
  else if by_row then ((i - 1) / P, (i - 1) mod P + 1)
  else ((i - 1) mod P + 1, (i - 1) / P).

Definition in_grid (self : results_montage) (rc : Z * Z) : Prop :=
  0 <= rc.1 < grid_rows self ∧ 0 <= rc.2 < grid_cols self.

(** An image cv2 can resize: it has pixels. *)
Definition ok_image (image : ndarray) : Prop :=
  0 < shape0 image ∧ 0 < shape1 image.

Definition ok_call (c : call) : Prop := ok_image c.1.1.

(** A call without label and without highlight, as the script makes them. *)
Definition plain (image : ndarray) : call := (image, None, false).

(** A pixel whose channels are [uint8] values already. *)
Definition is_uint8 (p : pixel) : Prop :=
  0 <= p.1.1 < 256 ∧ 0 <= p.1.2 < 256 ∧ 0 <= p.2 < 256.

(** The canvas [after] is the canvas [before] with the image [r] assigned
    into the pixel rectangle of grid cell [rc]: inside the rectangle it
    holds the pixels of [r], cast to [uint8]; every other pixel, and the
    shape, are those of [before]. *)
Definition pasted (self : results_montage) (rc : Z * Z) (r before after : ndarray)
  : Prop :=
  shape0 after = shape0 before ∧ shape1 after = shape1 before ∧
  ∀ y x,
    (in_cell self rc y x →
       px after y x
       = as_uint8 (px r (Z.to_nat (Z.of_nat y - rc.1 * imageW self))
                        (Z.to_nat (Z.of_nat x - rc.2 * imageH self)))) ∧
    (¬ in_cell self rc y x → px after y x = px before y x).

(** What [add_result] then draws for a call in cell [rc]: the label at
    [(startX + 5, startY + 13)] and the highlight from
    [(startX + 3, startY + 3)] to [(endX - 3, endY - 3)], both on the whole
    canvas [m]. *)
Definition decorated (cv2_putText : ndarray → string → Z * Z → ndarray)
    (cv2_rectangle : ndarray → Z * Z → Z * Z → ndarray)
    (self : results_montage) (rc : Z * Z) (text : option string) (highlight : bool)
    (m : ndarray) : ndarray :=
  let '(startY, endY) := (rc.1 * imageW self, (rc.1 + 1) * imageW self) in
  let '(startX, endX) := (rc.2 * imageH self, (rc.2 + 1) * imageH self) in
  let m := match text with
           | Some t => cv2_putText m t (startX + 5, startY + 13)
           | None => m
           end in
  if highlight
  then cv2_rectangle m (startX + 3, startY + 3) (endX - 3, endY - 3)
  else m.

(** On the grid of [m], the call [c] made on the object [before] returns
    the object [after] and has written into cell [rc]: the image is resized
    to the cell size, the assignment puts it into the pixel rectangle of
    [rc] and nowhere else, and the canvas of [after] is what the label and
    the highlight of the call make of that. *)
Definition writes_cell (cv2_resize : ndarray → Z * Z → exn + ndarray)
    (cv2_putText : ndarray → string → Z * Z → ndarray)
    (cv2_rectangle : ndarray → Z * Z → Z * Z → ndarray)
    (m before : results_montage) (c : call) (rc : Z * Z) (after : results_montage)
  : Prop :=
  add_result cv2_resize cv2_putText cv2_rectangle before c = inr after ∧
  ∃ r m1,
    cv2_resize c.1.1 (imageH m, imageW m) = inr r ∧
    pasted m rc r (montage before) m1 ∧
    montage after = decorated cv2_putText cv2_rectangle m rc c.1.2 c.2 m1.

(** What is assumed of [cv2.resize]: an image with pixels, resized to a
    positive size, comes back with that size. *)
Definition resize_spec (cv2_resize : ndarray → Z * Z → exn + ndarray) : Prop :=
  ∀ image w h, ok_image image → 0 < w → 0 < h →
    ∃ r, cv2_resize image (w, h) = inr r ∧ shape0 r = h ∧ shape1 r = w.

(** What is assumed of the drawing routines: they draw in place, so the
    array keeps its shape. *)
Definition keeps_shape (draw : ndarray → ndarray) : Prop :=
  ∀ m, shape0 (draw m) = shape0 m ∧ shape1 (draw m) = shape1 m ∧
       (wf m → wf (draw m)).

(** The settings and the canvas size that [add_result] never changes. *)
Definition same_settings (a b : results_montage) : Prop :=
  imageW a = imageW b ∧ imageH a = imageH b ∧
  images_per_main_axis a = images_per_main_axis b ∧ by_row a = by_row b ∧
  shape0 (montage a) = shape0 (montage b) ∧ shape1 (montage a) = shape1 (montage b).

(** The object once [i] images have been placed on the canvas of [m0]. *)
Definition placed (m0 self : results_montage) (i : Z) : Prop :=
  same_settings m0 self ∧ wf (montage self) ∧ counter self = i ∧
  (row self, col self) = cursor_after (by_row m0) (images_per_main_axis m0) i.

(** A freshly built montage whose canvas is a whole number of cells: the
    main axis holds [P] cells, or fewer when there is a single line. *)
Definition fresh_grid (m0 : results_montage) : Prop :=
  0 < imageW m0 ∧ 0 < imageH m0 ∧ 0 < images_per_main_axis m0 ∧
  wf (montage m0) ∧ counter m0 = 0 ∧ row m0 = 0 ∧ col m0 = 0 ∧
  shape0 (montage m0) = grid_rows m0 * imageW m0 ∧
  shape1 (montage m0) = grid_cols m0 * imageH m0 ∧
  0 < grid_rows m0 ∧ 0 < grid_cols m0 ∧
  let main := if by_row m0 then grid_cols m0 else grid_rows m0 in
  let cross := if by_row m0 then grid_rows m0 else grid_cols m0 in
  main = images_per_main_axis m0 ∨ (cross = 1 ∧ main < images_per_main_axis m0).

End Montage.

(** ** Dominant colour: [get_dominant_color] *)

Module Dominant.

(** [collections.Counter(labels)]: a dict from label to count, keys in order
    of first occurrence. *)
Fixpoint counter_incr (l : nat) (c : list (nat * nat)) : list (nat * nat) :=
  match c with
  | [] => [(l, 1%nat)]
  | (k, n) :: c => if Nat.eqb k l then (k, S n) :: c else (k, n) :: counter_incr l c
  end.

Definition Counter (labels : list nat) : list (nat * nat) :=
  fold_left (λ c l, counter_incr l c) labels [].

(** [max(items, key=itemgetter(1))]: the first item with the largest count. *)
Fixpoint max_by_count (best : nat * nat) (items : list (nat * nat)) : nat * nat :=
  match items with
  | [] => best
  | it :: items => max_by_count (if Nat.ltb best.2 it.2 then it else best) items
  end.

(** [Counter.most_common(1)], which is [heapq.nlargest(1, items)]: the empty
    list for an empty counter. *)
Definition most_common_1 (c : list (nat * nat)) : list (nat * nat) :=
  match c with
  | [] => []
  | it :: items => [max_by_count it items]
  end.

(** Occurrences of label [l] among the labels: the size of cluster [l]. *)
Definition cluster_size (l : nat) (labels : list nat) : nat :=
  length (filter (λ x, x = l) labels).

(** The count a counter holds for label [l]: zero when it has no entry. *)
Fixpoint count_of (l : nat) (c : list (nat * nat)) : nat :=
  match c with
  | [] => 0%nat
  | (k, n) :: c => if Nat.eqb k l then n else count_of l c
  end.

(** What is assumed of the clustering: asked for [k] clusters on at least
    [k] pixels, it labels every pixel with one of [k] clusters and has one
    centroid per cluster. *)
Definition kmeans_spec {centroid : Type}
    (fit_predict : Z → list pixel → exn + (list nat * list centroid)) : Prop :=
  ∀ k pxs, 0 < k → k <= Z.of_nat (length pxs) →
    ∃ labels centers, fit_predict k pxs = inr (labels, centers) ∧
      length labels = length pxs ∧
      Z.of_nat (length centers) = k ∧
      Forall (λ l, (l < length centers)%nat) labels.

Section DominantColor.

(** A centroid: what [clt.cluster_centers_[i]] holds. *)
Variable centroid : Type.
(** [cv2.resize(image, size, interpolation=cv2.INTER_AREA)]. *)
Variable cv2_resize_area : ndarray → Z * Z → exn + ndarray.
(** [KMeans(n_clusters=k)] followed by [fit_predict(pixels)]: the label of
    every pixel and [cluster_centers_]. *)
Variable KMeans_fit_predict : Z → list pixel → exn + (list nat * list centroid).

(** [get_dominant_color(image, k, image_processing_size)]. *)
Definition get_dominant_color (image : ndarray) (k : Z)
    (image_processing_size : option (Z * Z)) : exn + centroid :=
  image ← match image_processing_size with
          | Some size => cv2_resize_area image size
          | None => inr image
          end;
  let image := reshape_pixels image in
  '(labels, cluster_centers) ← KMeans_fit_predict k image;
  let label_counts := Counter labels in
  match most_common_1 label_counts with
  | [] => inl IndexError
  | (l, _) :: _ =>
    match cluster_centers !! l with
    | Some dominant_color => inr dominant_color
    | None => inl IndexError
    end
  end.

End DominantColor.

(** A stand-in for the clustering when the model is run on concrete images:
    pixel [i] goes to cluster [i mod k], and the first [k] pixels serve as
    centroids. *)
Definition fit_predict_round_robin (k : Z) (pxs : list pixel)
  : exn + (list nat * list pixel) :=
  if (k <=? 0) || (Z.of_nat (length pxs) <? k) then inl ValueError
  else inr (imap (λ i _, (i mod Z.to_nat k)%nat) pxs, take (Z.to_nat k) pxs).

End Dominant.

(** ** Strings: the [str] methods the scripts use *)

Module Str.

Fixpoint prefix (p s : string) : bool :=
  match p, s with
  | EmptyString, _ => true
  | String a p, String b s => if Ascii.eqb a b then prefix p s else false
  | String _ _, EmptyString => false
  end.

(** [sub in s]. *)
Fixpoint contains (sub s : string) : bool :=
  prefix sub s ||
  match s with
  | EmptyString => false
  | String _ s => contains sub s
  end.

Definition of_rev (cur : list ascii) : string :=
  string_of_list_ascii (rev cur).

(** [s.split(sep)] for a non-empty [sep], scanning left to right; [skip]
    counts the characters of a matched separator still to pass over and
    [cur] holds the current piece, reversed. *)
Fixpoint split_go (sep : string) (skip : nat) (cur : list ascii) (s : string)
  : list string :=
  match s with
  | EmptyString => [of_rev cur]
  | String c s' =>
    match skip with
    | S k => split_go sep k cur s'
    | O =>
      if prefix sep s
      then of_rev cur :: split_go sep (String.length sep - 1) [] s'
      else split_go sep 0 (c :: cur) s'
    end
  end.

Definition split (sep s : string) : list string := split_go sep 0 [] s.

End Str.

(** ** [datetime.datetime] (naive) *)

Module Datetime.

Record datetime : Type := Dt {
  year : Z; month : Z; day : Z;
  hour : Z; minute : Z; second : Z; microsecond : Z
}.

Definition is_leap (y : Z) : bool :=
  (y mod 4 =? 0) && (negb (y mod 100 =? 0) || (y mod 400 =? 0)).

Definition days_in_month (y m : Z) : Z :=
  match m with
  | 2 => if is_leap y then 29 else 28
  | 4 | 6 | 9 | 11 => 30
  | _ => 31
  end.

(** The range checks of the [datetime] constructor. *)
Definition valid (d : datetime) : bool :=
  (1 <=? year d) && (year d <=? 9999) &&
  (1 <=? month d) && (month d <=? 12) &&
  (1 <=? day d) && (day d <=? days_in_month (year d) (month d)) &&
  (0 <=? hour d) && (hour d <? 24) &&
  (0 <=? minute d) && (minute d <? 60) &&
  (0 <=? second d) && (second d <? 60) &&
  (0 <=? microsecond d) && (microsecond d <? 1000000).

(** Comparison of naive datetimes: lexicographic on the fields. *)
Definition fields (d : datetime) : list Z :=
  [year d; month d; day d; hour d; minute d; second d; microsecond d].

Fixpoint lex_ltb (a b : list Z) : bool :=
  match a, b with
  | x :: a, y :: b => (x <? y) || ((x =? y) && lex_ltb a b)
  | [], _ :: _ => true
  | _, [] => false
  end.

(** [a < b]. *)
Definition ltb (a b : datetime) : bool := lex_ltb (fields a) (fields b).

(** *** [isoformat] *)

Definition digit (n : Z) : ascii := ascii_of_N (Z.to_N (48 + n mod 10)).

(** [n] in decimal, zero-padded to [w] digits. *)
Fixpoint pad (w : nat) (n : Z) : string :=
  match w with
  | O => EmptyString
  | S w => pad w (n / 10) +:+ String (digit n) EmptyString
  end.

(** [d.isoformat()]: ['YYYY-MM-DDTHH:MM:SS'], followed by ['.ffffff'] when the
    microsecond is not zero. *)
Definition isoformat (d : datetime) : string :=
  pad 4 (year d) +:+ "-" +:+ pad 2 (month d) +:+ "-" +:+ pad 2 (day d) +:+ "T" +:+
  pad 2 (hour d) +:+ ":" +:+ pad 2 (minute d) +:+ ":" +:+ pad 2 (second d) +:+
  (if microsecond d =? 0 then EmptyString else "." +:+ pad 6 (microsecond d)).

(** *** [fromisoformat], on the two notations [isoformat] produces

    Other notations the library accepts (a date alone, a time zone offset,
    three fraction digits) are outside this model and rejected here. *)

Definition digit_val (c : ascii) : option Z :=
  let n := Z.of_N (N_of_ascii c) in
  if (48 <=? n) && (n <=? 57) then Some (n - 48) else None.

(** Read exactly [w] decimal digits. *)
Fixpoint take_digits (w : nat) (acc : Z) (s : string) : option (Z * string) :=
  match w with
  | O => Some (acc, s)
  | S w =>
    match s with
    | EmptyString => None
    | String c s => d ← digit_val c; take_digits w (10 * acc + d) s
    end
  end.

Definition expect (c : ascii) (s : string) : option string :=
  match s with
  | String c' s => if Ascii.eqb c c' then Some s else None
  | EmptyString => None
  end.

(** The common part of both notations: date, ['T'], time of day. *)
Definition parse_seconds (s : string) : option (datetime * string) :=
  '(y, s) ← take_digits 4 0 s; s ← expect "-" s;
  '(mo, s) ← take_digits 2 0 s; s ← expect "-" s;
  '(d, s) ← take_digits 2 0 s; s ← expect "T" s;
  '(h, s) ← take_digits 2 0 s; s ← expect ":" s;
  '(mi, s) ← take_digits 2 0 s; s ← expect ":" s;
  '(se, s) ← take_digits 2 0 s;
  Some (Dt y mo d h mi se 0, s).

Definition with_microsecond (d : datetime) (us : Z) : datetime :=
  Dt (year d) (month d) (day d) (hour d) (minute d) (second d) us.

Definition parse_iso (s : string) : option datetime :=
  '(d, s) ← parse_seconds s;
  match s with
  | EmptyString => Some d
  | _ =>
    s ← expect "." s;
    '(us, s) ← take_digits 6 0 s;
    match s with
    | EmptyString => Some (with_microsecond d us)
    | _ => None
    end
  end.

(** [datetime.fromisoformat(s)]. *)
Definition fromisoformat (s : string) : exn + datetime :=
  match parse_iso s with
  | Some d => if valid d then inr d else inl ValueError
  | None => inl ValueError
  end.

(** *** [timedelta] arithmetic *)

Definition date : Type := Z * Z * Z.

Definition succ_day (d : date) : date :=
  let '(y, m, dd) := d in
  if dd <? days_in_month y m then (y, m, dd + 1)
  else if m <? 12 then (y, m + 1, 1)
  else (y + 1, 1, 1).

Definition pred_day (d : date) : date :=
  let '(y, m, dd) := d in
  if 1 <? dd then (y, m, dd - 1)
  else if 1 <? m then (y, m - 1, days_in_month y (m - 1))
  else (y - 1, 12, 31).

(** Move a date by [n] days; years outside 1..9999 overflow. *)
Definition shift_days (d : date) (n : Z) : exn + date :=
  let d' := if n <? 0 then Nat.iter (Z.to_nat (- n)) pred_day d
            else Nat.iter (Z.to_nat n) succ_day d in
  if (1 <=? d'.1.1) && (d'.1.1 <=? 9999) then inr d' else inl OverflowError.

(** [d + timedelta(days=days, seconds=seconds)], either of them possibly
    negative. *)
Definition add_timedelta (d : datetime) (days seconds : Z) : exn + datetime :=
  let t := hour d * 3600 + minute d * 60 + second d + seconds in
  let carry := t / 86400 in
  let r := t mod 86400 in
  '(y, m, dd) ← shift_days (year d, month d, day d) (days + carry);
  mret (Dt y m dd (r / 3600) (r mod 3600 / 60) (r mod 60) (microsecond d)).

(** A sample of [strptime(s, '%Y-%m-%dT%H:%M:%SZ')] on zero-padded input,
    for running the model on concrete playlists. *)
Definition strptime_padded (s : string) : exn + datetime :=
  match
    '(d, s) ← parse_seconds s;
    s ← expect "Z" s;
    match s with
    | EmptyString => Some d
    | _ => None
    end
  with
  | Some d => if valid d then inr d else inl ValueError
  | None => inl ValueError
  end.

End Datetime.

(** ** The playlist tracker: data *)

Module Tracker.

Import Datetime.

(** A track object of the API, and a playlist entry: its ['track'] is null
    for an entry whose track is gone, its ['added_at'] is null on very old
    playlists. *)
Record track : Type := Track {
  uri : string;
  name : string;
  artists : list string
}.

Record item : Type := Item {
  item_track : option track;
  added_at : option string
}.

(** What [get_track_info] returns. *)
Record track_info : Type := TrackInfo {
  info_uri : string;
  info_name : string;
  info_artist : string;
  info_added_at : option string
}.

(** One entry of [log_data] and one run of the song log. *)
Record log_entry : Type := LogEntry {
  playlist_id : string;
  playlist_name : string;
  start_index : Z;
  count : Z;
  end_index : Z;
  tracks : list track_info
}.

Record log_run : Type := LogRun {
  timestamp : string;
  playlists : list log_entry
}.

(** The JSON files the scripts keep, by content.  In the token cache the
    ['refresh_token'] key may be absent ([None]) or hold null ([Some None]). *)
Inductive file : Type :=
| LastRunFile (last_run : string)
| TokenCacheFile (access_token : string) (refresh_token : option (option string))
                 (expires_at : string)
| SongLogFile (runs : list log_run)
| OtherFile.

Definition LAST_RUN_FILE : string := "last_run.json".
Definition SONG_LOG_FILE : string := "song_log.json".
Definition TOKEN_CACHE_FILE : string := "spotify_token_cache.json".

(** HTTP requests.  The [Authorization] header is kept structured (the
    base64 step of the Basic scheme is not spelled out); a bearer token may
    be [None], which the script formats as ['Bearer None']. *)
Inductive authorization : Type :=
| NoAuth
| Basic (client_id client_secret : string)
| Bearer (token : option string).

Inductive payload : Type :=
| NoBody
| Form (fields : list (string * option string))
| JsonUris (uris : list string).

Record request : Type := Request {
  method : string;
  url : string;
  auth : authorization;
  body : payload
}.

(** HTTP responses: status, text, and the decoded JSON by shape. *)
Inductive json : Type :=
| TokenJson (access_token : string) (expires_in : Z) (refresh_token : option string)
| PlaylistJson (name : string) (items : list item) (next : option string)
| PageJson (items : list item) (next : option string)
| OtherJson.

Record response : Type := Response {
  status_code : Z;
  text : string;
  json_body : json
}.

(** Lines written to standard output that report progress or a failure, and
    the browser being opened.  Banners and counts are left out. *)
Inductive line : Type :=
| ProcessingPlaylist (idx total : Z) (playlist_id : string)
| ErrorProcessing (playlist_link : string) (e : exn)
| BatchAdded (batch_no : Z) (size : Z)
| BatchFailed (batch_no : Z) (status : Z)
| ErrorRefreshing (status : Z)
| AuthorizationRequired
| BrowserOpened (params : list (string * string))
| ErrorNoCode
| ErrorGettingToken (status : Z).

(** The world the script runs in: the responses the server will give, in
    order; the requests sent so far; the files; the lines still to be typed
    on standard input; standard output. *)
Record env : Type := Env {
  pending : list response;
  sent : list request;
  files : gmap string file;
  stdin : list string;
  stdout : list line
}.

(** ** A state-and-exception monad over [env] *)

Definition M (A : Type) : Type := env → (exn + A) * env.

Definition ret {A} (a : A) : M A := λ e, (inr a, e).

Definition raise {A} (x : exn) : M A := λ e, (inl x, e).

Definition bind {A B} (m : M A) (k : A → M B) : M B :=
  λ e, match m e with
       | (inr a, e) => k a e
       | (inl x, e) => (inl x, e)
       end.

Definition lift {A} (r : exn + A) : M A := λ e, (r, e).

Notation "x <~ m ; k" := (bind m (λ x, k))
  (at level 20, m at level 100, k at level 200, only parsing).
Notation "' p <~ m ; k" := (bind m (λ x, match x with p => k end))
  (at level 20, p pattern, m at level 100, k at level 200, only parsing).

(** [try: body except Exception as e: handler(e)]. *)
Definition try_except {A} (body : M A) (handler : exn → M A) : M A :=
  λ e, match body e with
       | (inl x, e) => if is_Exception x then handler x e else (inl x, e)
       | ok => ok
       end.

(** A [for] loop threading the loop-carried locals. *)
Fixpoint for_each {A S} (xs : list A) (body : A → S → M S) (s : S) : M S :=
  match xs with
  | [] => ret s
  | x :: xs => s <~ body x s; for_each xs body s
  end.

Definition print (l : line) : M unit :=
  λ e, (inr tt, Env (pending e) (sent e) (files e) (stdin e) (stdout e ++ [l])).

(** [input(prompt)]. *)
Definition input : M string :=
  λ e, match stdin e with
       | [] => (inl EOFError, e)
       | l :: ls => (inr l, Env (pending e) (sent e) (files e) ls (stdout e))
       end.

(** [requests.post] / [requests.get]: the request goes out; the next pending
    response comes back, and with none left the transport fails. *)
Definition send (req : request) : M response :=
  λ e, match pending e with
       | [] => (inl ConnectionError,
                Env [] (sent e ++ [req]) (files e) (stdin e) (stdout e))
       | r :: rs => (inr r, Env rs (sent e ++ [req]) (files e) (stdin e) (stdout e))
       end.

Definition requests_post (url : string) (auth : authorization) (body : payload)
  : M response := send (Request "POST" url auth body).

Definition requests_get (url : string) (auth : authorization) : M response :=
  send (Request "GET" url auth NoBody).

(** [os.path.exists], [json.load] of a file, [json.dump] to it, [os.remove]. *)
Definition path_exists (path : string) : M bool :=
  λ e, (inr (bool_decide (is_Some (files e !! path))), e).

Definition json_load (path : string) : M file :=
  λ e, match files e !! path with
       | Some f => (inr f, e)
       | None => (inl (Exception "FileNotFoundError" 0), e)
       end.

Definition json_dump (path : string) (f : file) : M unit :=
  λ e, (inr tt, Env (pending e) (sent e) (<[path := f]> (files e)) (stdin e) (stdout e)).

Definition os_remove (path : string) : M unit :=
  λ e, (inr tt, Env (pending e) (sent e) (delete path (files e)) (stdin e) (stdout e)).

(** [status in range(200, 299)]. *)
Definition in_range_200_299 (status : Z) : bool :=
  (200 <=? status) && (status <? 299).

(** [range(0, stop, step)] for a positive step. *)
Definition range_step (stop step : Z) : list Z :=
  map (λ j, Z.of_nat j * step) (seq 0 (Z.to_nat ((stop + step - 1) / step))).

(** [xs[i:j]] for [0 <= i <= j]. *)
Definition slice {A} (xs : list A) (i j : Z) : list A :=
  take (Z.to_nat (j - i)) (drop (Z.to_nat i) xs).

(** Truthiness of an optional string: [None] and [''] are false. *)
Definition truthy (s : option string) : option string :=
  match s with
  | Some EmptyString => None
  | _ => s
  end.

Definition len {A} (xs : list A) : Z := Z.of_nat (length xs).

(** ** The playlist tracker: functions *)

Definition CLIENT_ID : string := "36939ed42fef4a33b670d4a6b6b64db7".
Definition CLIENT_SECRET : string := "620a5965374c4330b418b277cd522183".
Definition TOKEN_URL : string := "https://accounts.spotify.com/api/token".

(** [get_access_token(client_id, client_secret)]: client-credentials grant. *)
Definition get_access_token (client_id client_secret : string) : M string :=
  r <~ requests_post TOKEN_URL (Basic client_id client_secret)
         (Form [("grant_type", Some "client_credentials")]);
  if in_range_200_299 (status_code r) then
    match json_body r with
    | TokenJson access_token _ _ => ret access_token
    | _ => raise KeyError
    end
  else raise (Exception "Failed to get access token" (status_code r)).

(** [extract_playlist_id(playlist_link)]. *)
Definition extract_playlist_id (playlist_link : string) : exn + string :=
  if Str.contains "spotify.com/playlist/" playlist_link then
    match Str.split "playlist/" playlist_link !! 1%nat with
    | Some rest =>
      match Str.split "?" rest !! 0%nat with
      | Some playlist_id => inr playlist_id
      | None => inl IndexError
      end
    | None => inl IndexError
    end
  else inr playlist_link.

(** The [while next_url:] loop of [get_playlist_with_dates]: one GET per
    page; a page that is not answered with 200 ends the loop with the tracks
    read so far.  The recursion is on the responses still to come. *)
Fixpoint paginate (a : authorization) (next_url : option string)
    (tracks : list item) (pend : list response) (snt : list request)
  : (exn + list item) * (list response * list request) :=
  match truthy next_url with
  | None => (inr tracks, (pend, snt))
  | Some u =>
    let snt := snt ++ [Request "GET" u a NoBody] in
    match pend with
    | [] => (inl ConnectionError, ([], snt))
    | r :: pend =>
      if status_code r =? 200 then
        match json_body r with
        | PageJson items next => paginate a next (tracks ++ items) pend snt
        | _ => (inl KeyError, (pend, snt))
        end
      else (inr tracks, (pend, snt))
    end
  end.

Definition follow_pages (a : authorization) (next_url : option string)
    (tracks : list item) : M (list item) :=
  λ e, let '(r, (p, s)) := paginate a next_url tracks (pending e) (sent e) in
       (r, Env p s (files e) (stdin e) (stdout e)).

Definition playlist_url (playlist_id : string) : string :=
  "https://api.spotify.com/v1/playlists/" +:+ playlist_id.

(** [get_playlist_with_dates(playlist_id, access_token)]. *)
Definition get_playlist_with_dates (playlist_id : string) (access_token : option string)
  : M (list item * string) :=
  let headers := Bearer access_token in
  r <~ requests_get (playlist_url playlist_id) headers;
  if negb (status_code r =? 200)
  then raise (Exception "Failed to get playlist" (status_code r))
  else
    match json_body r with
    | PlaylistJson playlist_name tracks next_url =>
      tracks <~ follow_pages headers next_url tracks;
      ret (tracks, playlist_name)
    | _ => raise KeyError
    end.

Section DateFilter.

(** [datetime.datetime.strptime(s, '%Y-%m-%dT%H:%M:%SZ')]. *)
Variable strptime : string → exn + datetime.

(** The loop of [filter_songs_by_date], with [new_tracks] as accumulator. *)
Fixpoint filter_loop (tracks : list item) (since_date : datetime)
    (new_tracks : list item) : exn + list item :=
  match tracks with
  | [] => inr new_tracks
  | item :: tracks =>
    match item_track item with
    | None => filter_loop tracks since_date new_tracks
    | Some _ =>
      match added_at item with
      | None => inl TypeError
      | Some added_at_str =>
        match strptime added_at_str with
        | inl e => inl e
        | inr added_at =>
          if ltb since_date added_at
          then filter_loop tracks since_date (new_tracks ++ [item])
          else filter_loop tracks since_date new_tracks
        end
      end
    end
  end.

(** [filter_songs_by_date(tracks, since_date)]. *)
Definition filter_songs_by_date (tracks : list item) (since_date : datetime)
  : exn + list item :=
  filter_loop tracks since_date [].

End DateFilter.

(** [load_last_run_date()], with the reading of the clock it would take. *)
Definition load_last_run_date (now : datetime) : M datetime :=
  ex <~ path_exists LAST_RUN_FILE;
  if ex : bool then
    data <~ json_load LAST_RUN_FILE;
    match data with
    | LastRunFile last_run => lift (fromisoformat last_run)
    | _ => raise KeyError
    end
  else lift (add_timedelta now (-30) 0).

(** [save_last_run_date()], with the reading of the clock it takes. *)
Definition save_last_run_date (now : datetime) : M unit :=
  json_dump LAST_RUN_FILE (LastRunFile (isoformat now)).

(** [get_track_uri(track_item)]. *)
Definition get_track_uri (track_item : item) : exn + string :=
  match item_track track_item with
  | Some track => inr (uri track)
  | None => inl TypeError
  end.

(** [get_track_info(track_item)]. *)
Definition get_track_info (track_item : item) : exn + track_info :=
  match item_track track_item with
  | Some track =>
    inr (TrackInfo (uri track) (name track)
           (match artists track with a :: _ => a | [] => "Unknown" end)
           (added_at track_item))
  | None => inl TypeError
  end.

(** A list comprehension whose element expression may raise. *)
Fixpoint comprehension {A B} (f : A → exn + B) (xs : list A) : exn + list B :=
  match xs with
  | [] => inr []
  | x :: xs => y ← f x; ys ← comprehension f xs; mret (y :: ys)
  end.

Definition tracks_url (playlist_id : string) : string :=
  "https://api.spotify.com/v1/playlists/" +:+ playlist_id +:+ "/tracks".

(** [add_tracks_to_playlist(playlist_id, track_uris, access_token)] of
    [track_new_songs.py]. *)
Definition add_tracks_to_playlist (playlist_id : string) (track_uris : list string)
    (access_token : option string) : M unit :=
  let url := tracks_url playlist_id in
  let headers := Bearer access_token in
  let batch_size := 100 in
  for_each (range_step (len track_uris) batch_size) (λ i _,
    let batch := slice track_uris i (i + batch_size) in
    r <~ requests_post url headers (JsonUris batch);
    if negb (in_range_200_299 (status_code r))
    then print (BatchFailed (i / batch_size + 1) (status_code r))
    else ret tt) tt.

(** [add_tracks_to_playlist] of [track_new_songs_oauth.py]: the same loop,
    returning the number of tracks in the batches that succeeded. *)
Definition add_tracks_to_playlist_oauth (playlist_id : string)
    (track_uris : list string) (access_token : option string) : M Z :=
  let url := tracks_url playlist_id in
  let headers := Bearer access_token in
  let batch_size := 100 in
  for_each (range_step (len track_uris) batch_size) (λ i total_added,
    let batch := slice track_uris i (i + batch_size) in
    r <~ requests_post url headers (JsonUris batch);
    if in_range_200_299 (status_code r)
    then _ <~ print (BatchAdded (i / batch_size + 1) (len batch));
         ret (total_added + len batch)
    else _ <~ print (BatchFailed (i / batch_size + 1) (status_code r));
         ret total_added) 0.

(** [save_song_log(log_data)]. *)
Definition save_song_log (log_data : list log_entry) (now : datetime) : M unit :=
  ex <~ path_exists SONG_LOG_FILE;
  existing_log <~ (if ex : bool then
                     data <~ json_load SONG_LOG_FILE;
                     match data with
                     | SongLogFile runs => ret runs
                     | _ => raise TypeError
                     end
                   else ret []);
  let entry := LogRun (isoformat now) log_data in
  json_dump SONG_LOG_FILE (SongLogFile (existing_log ++ [entry])).

(** [refresh_access_token(client_id, client_secret, refresh_token)], with the
    reading of the clock it takes when it caches the new token. *)
Definition refresh_access_token (client_id client_secret : string)
    (refresh_token : option string) (now : datetime) : M (option string) :=
  r <~ requests_post TOKEN_URL NoAuth
         (Form [("grant_type", Some "refresh_token");
                ("refresh_token", refresh_token);
                ("client_id", Some client_id);
                ("client_secret", Some client_secret)]);
  if negb (status_code r =? 200) then
    _ <~ print (ErrorRefreshing (status_code r));
    ex <~ path_exists TOKEN_CACHE_FILE;
    _ <~ (if ex : bool then os_remove TOKEN_CACHE_FILE else ret tt);
    ret None
  else
    match json_body r with
    | TokenJson access_token expires_in _ =>
      expires_at <~ lift (add_timedelta now 0 expires_in);
      _ <~ json_dump TOKEN_CACHE_FILE
             (TokenCacheFile access_token (Some refresh_token) (isoformat expires_at));
      ret (Some access_token)
    | _ => raise KeyError
    end.

Definition SCOPE : string :=
  "playlist-modify-public playlist-modify-private playlist-read-private".

(** The interactive part of [get_user_token]: browser, pasted redirect URL,
    exchange of the code for a token, cache. *)
Definition authorize (client_id client_secret redirect_uri : string)
    (now : datetime) : M (option string) :=
  _ <~ print AuthorizationRequired;
  _ <~ print (BrowserOpened [("client_id", client_id); ("response_type", "code");
                              ("redirect_uri", redirect_uri); ("scope", SCOPE)]);
  redirect_response <~ input;
  code <~ (if Str.contains "?code=" redirect_response then
             match Str.split "?code=" redirect_response !! 1%nat with
             | Some rest =>
               match Str.split "&" rest !! 0%nat with
               | Some code => ret code
               | None => raise IndexError
               end
             | None => raise IndexError
             end
           else _ <~ print ErrorNoCode; raise (SystemExit 1));
  r <~ requests_post TOKEN_URL NoAuth
         (Form [("grant_type", Some "authorization_code");
                ("code", Some code);
                ("redirect_uri", Some redirect_uri);
                ("client_id", Some client_id);
                ("client_secret", Some client_secret)]);
  if negb (status_code r =? 200) then
    _ <~ print (ErrorGettingToken (status_code r));
    raise (SystemExit 1)
  else
    match json_body r with
    | TokenJson access_token expires_in refresh_token =>
      expires_at <~ lift (add_timedelta now 0 expires_in);
      _ <~ json_dump TOKEN_CACHE_FILE
             (TokenCacheFile access_token (Some refresh_token) (isoformat expires_at));
      ret (Some access_token)
    | _ => raise KeyError
    end.

(** What [get_user_token] does with the cache: [Some result] when it returns
    from inside the [if os.path.exists] block, [None] when it falls through
    to the authorization. *)
Definition from_cache (client_id client_secret : string) (now : datetime)
  : M (option (option string)) :=
  ex <~ path_exists TOKEN_CACHE_FILE;
  if ex : bool then
    token_data <~ json_load TOKEN_CACHE_FILE;
    match token_data with
    | TokenCacheFile access_token refresh_token expires_at =>
      expires_at <~ lift (fromisoformat expires_at);
      limit <~ lift (add_timedelta expires_at 0 (-300));
      if ltb now limit then ret (Some (Some access_token))
      else
        match refresh_token with
        | Some refresh_token =>
          t <~ refresh_access_token client_id client_secret refresh_token now;
          ret (Some t)
        | None => ret None
        end
    | _ => raise KeyError
    end
  else ret None.

(** [get_user_token(client_id, client_secret, redirect_uri)], with the
    reading of the clock its calls of [datetime.now()] take. *)
Definition get_user_token (client_id client_secret redirect_uri : string)
    (now : datetime) : M (option string) :=
  cached <~ from_cache client_id client_secret now;
  match cached with
  | Some token => ret token
  | None => authorize client_id client_secret redirect_uri now
  end.

Section Main.

Variable strptime : string → exn + datetime.

(** The body of the [try] in [main]'s loop over the playlists; the locals
    [all_new_tracks] and [log_data] are the loop-carried state. *)
Definition process_playlist (idx total : Z) (playlist_link : string)
    (access_token : string) (last_run : datetime)
    (locals : list item * list log_entry) : M (list item * list log_entry) :=
  let '(all_new_tracks, log_data) := locals in
  playlist_id <~ lift (extract_playlist_id playlist_link);
  _ <~ print (ProcessingPlaylist idx total playlist_id);
  '(tracks, playlist_name) <~ get_playlist_with_dates playlist_id (Some access_token);
  new_tracks <~ lift (filter_songs_by_date strptime tracks last_run);
  track_infos <~ lift (comprehension get_track_info new_tracks);
  match new_tracks with
  | [] => ret (all_new_tracks, log_data)
  | _ =>
    let log_entry :=
      LogEntry playlist_id playlist_name (len all_new_tracks) (len new_tracks)
               (len all_new_tracks + len new_tracks) track_infos in
    ret (all_new_tracks ++ new_tracks, log_data ++ [log_entry])
  end.

(** [enumerate(xs, 1)]. *)
Definition enumerate1 {A} (xs : list A) : list (Z * A) :=
  imap (λ i x, (Z.of_nat i + 1, x)) xs.

(** One iteration of the loop over the playlists: the [try] body and its
    [except Exception as e] handler. *)
Definition playlist_step (total : Z) (access_token : string) (last_run : datetime)
    (entry : Z * string) (locals : list item * list log_entry)
  : M (list item * list log_entry) :=
  let '(idx, playlist_link) := entry in
  try_except
    (process_playlist idx total playlist_link access_token last_run locals)
    (λ e, _ <~ print (ErrorProcessing playlist_link e); ret locals).

(** The [for idx, playlist_link in enumerate(PLAYLIST_LINKS, 1)] loop. *)
Definition process_playlists (PLAYLIST_LINKS : list string) (access_token : string)
    (last_run : datetime) : M (list item * list log_entry) :=
  for_each (enumerate1 PLAYLIST_LINKS)
    (playlist_step (len PLAYLIST_LINKS) access_token last_run) ([], []).

(** [main()] of [track_new_songs.py], with [PLAYLIST_LINKS] (empty in the
    file as committed) as a parameter and the three readings of the clock.
    Step 5 only prints: the call that would add tracks is commented out. *)
Definition main (PLAYLIST_LINKS : list string) (now_load now_log now_save : datetime)
  : M unit :=
  access_token <~ get_access_token CLIENT_ID CLIENT_SECRET;
  last_run <~ load_last_run_date now_load;
  '(all_new_tracks, log_data) <~ process_playlists PLAYLIST_LINKS access_token last_run;
  _ <~ (match log_data with
        | [] => ret tt
        | _ => save_song_log log_data now_log
        end);
  save_last_run_date now_save.

End Main.

(** The playlist ids announced on standard output, in order. *)
Definition processed (out : list line) : list string :=
  omap (λ l, match l with ProcessingPlaylist _ _ pid => Some pid | _ => None end) out.

(** The links whose processing was reported as failed, in order. *)
Definition failed (out : list line) : list string :=
  omap (λ l, match l with ErrorProcessing link _ => Some link | _ => None end) out.

(** The URI batches carried by the POSTs among some requests. *)
Definition batches (reqs : list request) : list (list string) :=
  omap (λ r, match body r with JsonUris uris => Some uris | _ => None end) reqs.

(** Whether a request is a refresh-token grant. *)
Definition is_refresh_grant (r : request) : bool :=
  match body r with
  | Form (("grant_type", Some "refresh_token") :: _) => true
  | _ => false
  end.

Definition empty_env : env := Env [] [] ∅ [] [].

(** *** Vocabulary for the properties of the tracker *)

(** An entry counts as new: it has a track, and its [added_at] parses to a
    time strictly after [since_date]. *)
Definition is_new (strptime : string → exn + datetime) (since_date : datetime)
    (it : item) : bool :=
  match item_track it, added_at it with
  | Some _, Some s =>
    match strptime s with
    | inr d => ltb since_date d
    | inl _ => false
    end
  | _, _ => false
  end.

(** The time an entry was added, when it is there and parses. *)
Definition added_time (strptime : string → exn + datetime) (it : item)
  : option datetime :=
  match added_at it with
  | Some s => match strptime s with inr d => Some d | inl _ => None end
  | None => None
  end.

(** Every entry that has a track carries a timestamp that parses. *)
Definition dated (strptime : string → exn + datetime) (tracks : list item) : Prop :=
  Forall (λ it, item_track it ≠ None → is_Some (added_time strptime it)) tracks.

(** The batches [add_tracks_to_playlist] cuts a list of URIs into. *)
Definition chunks (track_uris : list string) : list (list string) :=
  map (λ i, slice track_uris i (i + 100)) (range_step (len track_uris) 100).

(** The write request carrying one batch. *)
Definition batch_request (playlist_id : string) (access_token : option string)
    (batch : list string) : request :=
  Request "POST" (tracks_url playlist_id) (Bearer access_token) (JsonUris batch).

(** The request of the client-credentials grant. *)
Definition token_request : request :=
  Request "POST" TOKEN_URL (Basic CLIENT_ID CLIENT_SECRET)
          (Form [("grant_type", Some "client_credentials")]).

(** ** [shared/spotify_client.py]: [get_playlist] *)

(** The [while next_100 != None:] loop of [get_playlist]: no status check,
    and only [None] ends it ([requests] refuses the empty URL). *)
Fixpoint get_playlist_loop (a : authorization) (next_100 : option string)
    (playlist : list item) (pend : list response) (snt : list request)
  : (exn + list item) * (list response * list request) :=
  match next_100 with
  | None => (inr playlist, (pend, snt))
  | Some EmptyString => (inl (Exception "MissingSchema" 0), (pend, snt))
  | Some u =>
    let snt := snt ++ [Request "GET" u a NoBody] in
    match pend with
    | [] => (inl ConnectionError, ([], snt))
    | r :: pend =>
      match json_body r with
      | PageJson items next => get_playlist_loop a next (playlist ++ items) pend snt
      | _ => (inl KeyError, (pend, snt))
      end
    end
  end.

(** [get_playlist(playlist_id, access_token)]. *)
Definition get_playlist (playlist_id : string) (access_token : option string)
  : M (list item) :=
  let headers := Bearer access_token in
  r <~ requests_get (playlist_url playlist_id) headers;
  match json_body r with
  | PlaylistJson _ playlist next_100 =>
    λ e, let '(res, (p, s)) :=
           get_playlist_loop headers next_100 playlist (pending e) (sent e) in
         (res, Env p s (files e) (stdin e) (stdout e))
  | _ => raise KeyError
  end.

(** *** More vocabulary *)

(** A page of a playlist as the server serves it: the URL it is served at,
    its entries, and its ['next'] link. *)
Definition page : Type := string * list item * option string.

Definition page_url (p : page) : string := p.1.1.
Definition page_items (p : page) : list item := p.1.2.
Definition page_next (p : page) : option string := p.2.

(** The response [r] serves page [p] with status 200. *)
Definition serves (r : response) (p : page) : Prop :=
  status_code r = 200 ∧ json_body r = PageJson (page_items p) (page_next p).

(** Starting from the link [next], the pages are linked one to the next,
    and the link after the last one is [final] ([None] when it is null or
    empty). *)
Fixpoint follows (next : option string) (pages : list page) (final : option string)
  : Prop :=
  match pages with
  | [] => truthy next = final
  | p :: pages => truthy next = Some (page_url p) ∧ follows (page_next p) pages final
  end.

Definition page_request (a : authorization) (p : page) : request :=
  Request "GET" (page_url p) a NoBody.

(** What [add_tracks_to_playlist] of the OAuth script reports for a batch
    and its answer: the number of tracks counted as added, and the line
    printed for batch number [k + 1]. *)
Definition batch_added (batch : list string) (r : response) : Z :=
  if in_range_200_299 (status_code r) then len batch else 0.

Definition batch_line (k : nat) (batch : list string) (r : response) : line :=
  if in_range_200_299 (status_code r)
  then BatchAdded (Z.of_nat k + 1) (len batch)
  else BatchFailed (Z.of_nat k + 1) (status_code r).

Fixpoint sum_Z (xs : list Z) : Z :=
  match xs with
  | [] => 0
  | x :: xs => x + sum_Z xs
  end.

(** The log entries describe consecutive index ranges from [from] to [to],
    each as long as its list of tracks and not empty. *)
Fixpoint consecutive (from : Z) (log : list log_entry) (to : Z) : Prop :=
  match log with
  | [] => from = to
  | entry :: log =>
    start_index entry = from ∧ 0 < count entry ∧
    count entry = len (tracks entry) ∧
    end_index entry = from + count entry ∧
    consecutive (end_index entry) log to
  end.

(** A request that only reads: a GET without body. *)
Definition is_read (q : request) : Prop := method q = "GET" ∧ body q = NoBody.

(** A computation that touches nothing but the network, and that only by
    reading: the files and standard input stay as they are, and the requests
    it adds are GETs. *)
Definition reads_only {A} (m : M A) : Prop :=
  ∀ e r e', m e = (r, e') →
    files e' = files e ∧ stdin e' = stdin e ∧
    ∃ reqs, sent e' = sent e ++ reqs ∧ Forall is_read reqs.

End Tracker.

(** * Properties *)

Import Montage Dominant Datetime Tracker.

(** ** numpy slices *)

Section NpFacts.

Lemma slice_range_inside n s e :
  0 <= s → s <= e → e <= n → slice_range n s e = (s, e).
Proof.
  intros Hs Hse Hen. unfold slice_range, slice_bound.
  destruct (Z.ltb_spec s 0); [lia|]. destruct (Z.ltb_spec e 0); [lia|].
  f_equal; lia.
Qed.

Lemma slice_range_beyond n s e :
  0 <= n → n <= s → s <= e → slice_range n s e = (n, n).
Proof.
  intros Hn Hs Hse. unfold slice_range, slice_bound.
  destruct (Z.ltb_spec s 0); [lia|]. destruct (Z.ltb_spec e 0); [lia|].
  f_equal; lia.
Qed.

Lemma broadcastable_same v : broadcastable v v = true.
Proof. unfold broadcastable. by rewrite Z.eqb_refl. Qed.

Lemma broadcastable_empty v : 2 <= v → broadcastable v 0 = false.
Proof.
  intros Hv. unfold broadcastable.
  destruct (Z.eqb_spec v 0); [lia|]. destruct (Z.eqb_spec v 1); [lia|]. done.
Qed.

(** The cast leaves a [uint8] value as it is, and always gives one. *)
Lemma uint8_id c : 0 <= c < 256 → uint8 c = c.
Proof. intros Hc. unfold uint8. by apply Z.mod_small. Qed.

Lemma uint8_range c : 0 <= uint8 c < 256.
Proof. unfold uint8. by apply Z.mod_pos_bound. Qed.

Lemma zeros_wf h w a : zeros h w = inr a → wf a ∧ shape0 a = h ∧ shape1 a = w.
Proof.
  unfold zeros. destruct (Z.ltb_spec h 0), (Z.ltb_spec w 0); simpl; try done.
  intros [= <-]. repeat split; simpl; try lia.
  - by rewrite length_replicate.
  - apply Forall_replicate. by rewrite length_replicate.
Qed.

Lemma zeros_ok h w : 0 <= h → 0 <= w → ∃ a, zeros h w = inr a.
Proof.
  intros Hh Hw. unfold zeros.
  destruct (Z.ltb_spec h 0), (Z.ltb_spec w 0); try lia. simpl. eauto.
Qed.

(** A pixel of a well-formed array, read through [imap]. *)
Lemma px_imap (f : nat → nat → pixel → pixel) a s0 s1 y x :
  wf a → Z.of_nat y < shape0 a → Z.of_nat x < shape1 a →
  px (NdArray s0 s1 (imap (λ y r, imap (f y) r) (pixels a))) y x = f y x (px a y x).
Proof.
  intros (H0 & H1 & Hlen & Hrows) Hy Hx. unfold px. simpl.
  rewrite list_lookup_imap.
  destruct (pixels a !! y) as [r|] eqn:Hr; last first.
  { apply lookup_ge_None in Hr. lia. }
  simpl. rewrite list_lookup_imap.
  assert (length r = Z.to_nat (shape1 a)) as Hlr.
  { eapply (proj1 (Forall_lookup _ _) Hrows); eauto. }
  destruct (r !! x) as [p|] eqn:Hp; last first.
  { apply lookup_ge_None in Hp. lia. }
  done.
Qed.

Lemma px_outside a y x :
  wf a → ¬ (Z.of_nat y < shape0 a ∧ Z.of_nat x < shape1 a) → px a y x = black.
Proof.
  intros (H0 & H1 & Hlen & Hrows) Hout. unfold px.
  destruct (pixels a !! y) as [r|] eqn:Hr; [|done]. simpl.
  assert (length r = Z.to_nat (shape1 a)) as Hlr.
  { eapply (proj1 (Forall_lookup _ _) Hrows); eauto. }
  apply lookup_lt_Some in Hr.
  destruct (r !! x) as [p|] eqn:Hp; [|done].
  apply lookup_lt_Some in Hp. lia.
Qed.

Lemma imap2_wf (f : nat → nat → pixel → pixel) a :
  wf a → wf (NdArray (shape0 a) (shape1 a) (imap (λ y r, imap (f y) r) (pixels a))).
Proof.
  intros (H0 & H1 & Hlen & Hrows). repeat split; simpl; try done.
  - by rewrite length_imap.
  - apply Forall_lookup. intros i r. rewrite list_lookup_imap.
    destruct (pixels a !! i) as [r0|] eqn:Hr; simpl; [|done].
    intros [= <-]. rewrite length_imap.
    eapply (proj1 (Forall_lookup _ _) Hrows); eauto.
Qed.

(** Assigning a value of the slice's own shape into a slice that lies inside
    the array succeeds; the slice then holds the value and every other pixel
    is as before. *)
Lemma setitem_inside a sy ey sx ex v :
  wf a → 0 <= sy → sy < ey → ey <= shape0 a → 0 <= sx → sx < ex → ex <= shape1 a →
  shape0 v = ey - sy → shape1 v = ex - sx →
  ∃ a', setitem a sy ey sx ex v = inr a' ∧ wf a' ∧
        shape0 a' = shape0 a ∧ shape1 a' = shape1 a ∧
        ∀ y x, px a' y x =
               if in_range sy ey y && in_range sx ex x
               then as_uint8 (px v (Z.to_nat (Z.of_nat y - sy))
                                   (Z.to_nat (Z.of_nat x - sx)))
               else px a y x.
Proof.
  intros Hwf Hsy Hy Hey Hsx Hx Hex Hv0 Hv1. unfold setitem.
  rewrite !slice_range_inside by lia.
  rewrite Hv0, Hv1, !broadcastable_same. simpl.
  eexists. split; [done|]. split; [by apply imap2_wf|]. do 2 (split; [done|]).
  intros y x.
  destruct (decide (Z.of_nat y < shape0 a ∧ Z.of_nat x < shape1 a)) as [[Hy' Hx']|Hout].
  - rewrite (px_imap (λ y x p, if in_range sy ey y && in_range sx ex x then _ else p))
      by done.
    destruct (in_range sy ey y && in_range sx ex x) eqn:Hin; [|done].
    apply andb_prop in Hin as [Hiy Hix]. unfold in_range in Hiy, Hix.
    unfold bidx.
    assert (∀ len lo i, lo <= Z.of_nat i < lo + len →
              (if len =? 1 then 0%nat else Z.to_nat (Z.of_nat i - lo))
              = Z.to_nat (Z.of_nat i - lo)) as Hb.
    { intros len lo i Hi. destruct (Z.eqb_spec len 1); [|done]. lia. }
    rewrite !Hb by lia. done.
  - rewrite px_outside; [|by apply imap2_wf|done].
    assert (in_range sy ey y && in_range sx ex x = false) as ->.
    { unfold in_range. apply not_true_is_false. intros Hin.
      apply andb_prop in Hin as [Hiy Hix]. lia. }
    by rewrite px_outside.
Qed.

(** Assigning into a slice that is clipped to nothing along an axis raises
    as soon as the value has two or more pixels along that axis. *)
Lemma setitem_beyond_rows a sy ey sx ex v :
  0 <= shape0 a → shape0 a <= sy → sy <= ey → 2 <= shape0 v →
  setitem a sy ey sx ex v = inl ValueError.
Proof.
  intros H0 Hsy Hey Hv. unfold setitem.
  rewrite (slice_range_beyond (shape0 a)) by lia.
  destruct (slice_range (shape1 a) sx ex) as [x0 x1].
  rewrite Z.sub_diag, broadcastable_empty by done. done.
Qed.

Lemma setitem_beyond_cols a sy ey sx ex v :
  0 <= shape1 a → shape1 a <= sx → sx <= ex → 2 <= shape1 v →
  setitem a sy ey sx ex v = inl ValueError.
Proof.
  intros H0 Hsx Hex Hv. unfold setitem.
  destruct (slice_range (shape0 a) sy ey) as [y0 y1].
  rewrite (slice_range_beyond (shape1 a)) by lia.
  rewrite Z.sub_diag, broadcastable_empty by done.
  by rewrite andb_false_r.
Qed.

(** Whatever the value, an assignment into an empty slice either raises or
    changes nothing. *)
Lemma setitem_empty a sy ey sx ex v a' :
  wf a →
  (0 <= shape0 a <= sy ∧ sy <= ey) ∨ (0 <= shape1 a <= sx ∧ sx <= ex) →
  setitem a sy ey sx ex v = inr a' →
  wf a' ∧ shape0 a' = shape0 a ∧ shape1 a' = shape1 a ∧ ∀ y x, px a' y x = px a y x.
Proof.
  intros Hwf Hempty. unfold setitem.
  destruct (slice_range (shape0 a) sy ey) as [y0 y1] eqn:Hy.
  destruct (slice_range (shape1 a) sx ex) as [x0 x1] eqn:Hx.
  destruct (_ && _); [|done]. intros [= <-].
  split; [by apply imap2_wf|]. do 2 (split; [done|]).
  intros y x.
  destruct (decide (Z.of_nat y < shape0 a ∧ Z.of_nat x < shape1 a)) as [[Hy' Hx']|Hout].
  - rewrite (px_imap (λ y x p, if in_range y0 y1 y && in_range x0 x1 x then _ else p))
      by done.
    assert (in_range y0 y1 y && in_range x0 x1 x = false) as ->; [|done].
    apply not_true_is_false. intros Hin.
    apply andb_prop in Hin as [Hiy Hix]. unfold in_range in Hiy, Hix.
    destruct Hempty as [[? ?]|[? ?]].
    + rewrite slice_range_beyond in Hy by lia. simplify_eq. lia.
    + rewrite slice_range_beyond in Hx by lia. simplify_eq. lia.
  - rewrite px_outside; [|by apply imap2_wf|done]. by rewrite px_outside.
Qed.

Lemma setitem_shape a sy ey sx ex v a' :
  wf a → setitem a sy ey sx ex v = inr a' →
  wf a' ∧ shape0 a' = shape0 a ∧ shape1 a' = shape1 a.
Proof.
  intros Hwf. unfold setitem.
  destruct (slice_range (shape0 a) sy ey) as [y0 y1].
  destruct (slice_range (shape1 a) sx ex) as [x0 x1].
  destruct (_ && _); [|done]. intros [= <-].
  split; [by apply imap2_wf|]. done.
Qed.

(** The canvas stores what it is given modulo 256. *)
Lemma setitem_casts :
  setitem (NdArray 1 1 [[black]]) 0 1 0 1 (NdArray 1 1 [[(300, -1, 256)]])
  = inr (NdArray 1 1 [[(44, 255, 0)]]).
Proof. reflexivity. Qed.

End NpFacts.

(** ** The grid compositor *)

Section DivMod.

Lemma div_step_wrap P i : 0 < P → 0 < i → i mod P = 0 → (i - 1) / P + 1 = i / P.
Proof. intros. Z.div_mod_to_equations. nia. Qed.

Lemma div_step_stay P i :
  0 < P → 0 < i → i mod P ≠ 0 →
  (i - 1) / P = i / P ∧ (i - 1) mod P + 1 = i mod P.
Proof.
  intros HP Hi Hm.
  pose proof (Z.div_mod i P ltac:(lia)) as Hdm.
  pose proof (Z.mod_pos_bound i P HP) as Hb.
  assert ((i - 1) / P = i / P) as Hq.
  { symmetry. apply (Z.div_unique_pos (i - 1) P (i / P) (i mod P - 1)); lia. }
  split; [done|].
  rewrite Z.mod_eq by lia. rewrite Hq. rewrite Z.mod_eq in * by lia. lia.
Qed.

Lemma ceil_div_single N P : 0 < N → N < P → ceil_div N P = 1.
Proof. unfold ceil_div. intros. Z.div_mod_to_equations. nia. Qed.

Lemma ceil_div_bounds N P :
  0 < P → 0 < N → 0 < ceil_div N P ∧ N <= ceil_div N P * P < N + P.
Proof. unfold ceil_div. intros. Z.div_mod_to_equations. nia. Qed.

Lemma div_mod_inj P i j : 0 < P → i / P = j / P → i mod P = j mod P → i = j.
Proof. intros. Z.div_mod_to_equations. nia. Qed.

Lemma div_lt_iff P R i : 0 < P → (i < R * P ↔ i / P < R).
Proof. intros. Z.div_mod_to_equations. nia. Qed.

Lemma mul_div_cancel R W : 0 < W → R * W / W = R.
Proof. intros. Z.div_mod_to_equations. nia. Qed.

Lemma cell_of_inj b P i j : 0 < P → cell_of b P i = cell_of b P j → i = j.
Proof.
  intros HP. unfold cell_of. destruct b; intros [= H1 H2]; by apply (div_mod_inj P).
Qed.

Lemma cell_of_nonneg b P i : 0 < P → 0 <= i → 0 <= (cell_of b P i).1 ∧ 0 <= (cell_of b P i).2.
Proof.
  intros HP Hi. unfold cell_of.
  pose proof (Z.mod_pos_bound i P HP). pose proof (Z.div_pos i P Hi HP).
  destruct b; simpl; lia.
Qed.

End DivMod.

Section MontageFacts.

Variable cv2_resize : ndarray → Z * Z → exn + ndarray.
Variable cv2_putText : ndarray → string → Z * Z → ndarray.
Variable cv2_rectangle : ndarray → Z * Z → Z * Z → ndarray.

Hypothesis resize_ok : resize_spec cv2_resize.
Hypothesis putText_ok : ∀ t org, keeps_shape (λ m, cv2_putText m t org).
Hypothesis rectangle_ok : ∀ p1 p2, keeps_shape (λ m, cv2_rectangle m p1 p2).

Local Abbreviation add_result := (add_result cv2_resize cv2_putText cv2_rectangle).
Local Abbreviation add_results := (add_results cv2_resize cv2_putText cv2_rectangle).
Local Abbreviation placements := (placements cv2_resize cv2_putText cv2_rectangle).

(** [__init__] on positive arguments. *)
Lemma init_fresh W H P N b :
  0 < W → 0 < H → 0 < P → 0 < N →
  ∃ m, init (W, H) P N b = inr m ∧ fresh_grid m ∧
       imageW m = W ∧ imageH m = H ∧ images_per_main_axis m = P ∧ by_row m = b ∧
       grid_rows m = (if b then ceil_div N P else Z.min P N) ∧
       grid_cols m = (if b then Z.min P N else ceil_div N P).
Proof.
  intros HW HH HP HN. unfold init. simpl.
  destruct (Z.eqb_spec P 0); [lia|].
  fold (ceil_div N P).
  pose proof (ceil_div_bounds N P HP HN) as [HR HRb].
  assert (0 < Z.min P N) as HC by lia.
  assert (Z.min P N = P ∨ (ceil_div N P = 1 ∧ Z.min P N < P)) as Hmain.
  { destruct (Z.le_gt_cases P N); [left; lia|right].
    split; [by apply ceil_div_single|lia]. }
  destruct b.
  - destruct (zeros_ok (ceil_div N P * W) (Z.min P N * H)) as [a Ha]; [nia|nia|].
    rewrite Ha. simpl. destruct (zeros_wf _ _ _ Ha) as (Hwf & H0 & H1).
    eexists. split; [done|].
    unfold fresh_grid, grid_rows, grid_cols. simpl.
    rewrite H0, H1, !mul_div_cancel by done.
    destruct Hwf as (?&?&?&?). repeat split; try done; try lia.
  - destruct (zeros_ok (Z.min P N * W) (ceil_div N P * H)) as [a Ha]; [nia|nia|].
    rewrite Ha. simpl. destruct (zeros_wf _ _ _ Ha) as (Hwf & H0 & H1).
    eexists. split; [done|].
    unfold fresh_grid, grid_rows, grid_cols. simpl.
    rewrite H0, H1, !mul_div_cancel by done.
    destruct Hwf as (?&?&?&?). repeat split; try done; try lia.
Qed.

Lemma fresh_placed m0 : fresh_grid m0 → placed m0 m0 0.
Proof.
  intros (?&?&?&?&?&Hr&Hc&?). unfold placed.
  split; [by repeat split|]. do 2 (split; [done|]).
  unfold cursor_after. simpl. by rewrite Hr, Hc.
Qed.

(** The index is below the capacity exactly when its cell is on the grid. *)
Lemma capacity_in_grid m0 i :
  fresh_grid m0 → 0 <= i →
  i < capacity m0 ↔ in_grid m0 (cell_of (by_row m0) (images_per_main_axis m0) i).
Proof.
  intros (HW&HH&HP&_&_&_&_&_&_&HR&HC&Hmain) Hi.
  unfold capacity, in_grid, cell_of.
  pose proof (Z.mod_pos_bound i _ HP) as Hm.
  pose proof (Z.div_pos i _ Hi HP) as Hd.
  pose proof (div_lt_iff (images_per_main_axis m0) (grid_rows m0) i HP) as Hrows.
  pose proof (div_lt_iff (images_per_main_axis m0) (grid_cols m0) i HP) as Hcols.
  pose proof (Z.div_small i (images_per_main_axis m0)) as Hsmall.
  pose proof (Z.mod_small i (images_per_main_axis m0)) as Hsmall'.
  pose proof (div_lt_iff (images_per_main_axis m0) 1 i HP) as Hone.
  destruct (by_row m0); simpl in *.
  - destruct Hmain as [->|[-> Hlt]]; [lia|].
    destruct (Z.lt_ge_cases i (images_per_main_axis m0)).
    + rewrite Hsmall, Hsmall' by lia. lia.
    + split; [lia|]. intros [? ?]. lia.
  - destruct Hmain as [->|[-> Hlt]]; [lia|].
    destruct (Z.lt_ge_cases i (images_per_main_axis m0)).
    + rewrite Hsmall, Hsmall' by lia. lia.
    + split; [lia|]. intros [? ?]. lia.
Qed.

Lemma set_cursor_id self : set_cursor self (row self) (col self) = self.
Proof. by destruct self. Qed.

(** After the wrap the cursor is on the cell of the image's index. *)
Lemma wrap_cursor_placed m0 self i :
  fresh_grid m0 → placed m0 self i → 0 <= i →
  let rc := cell_of (by_row m0) (images_per_main_axis m0) i in
  wrap_cursor self = inr (set_cursor self rc.1 rc.2).
Proof.
  intros (HW&HH&HP&_) ((E1&E2&E3&E4&E5&E6)&Hwf&Hcnt&Hcur) Hi. simpl.
  unfold wrap_cursor. rewrite Hcnt, <- E3, <- E4.
  unfold cursor_after in Hcur. unfold cell_of.
  destruct (Z.eqb_spec i 0) as [->|Hne].
  - injection Hcur as Hr Hc.
    rewrite Z.div_0_l, Z.mod_0_l by lia.
    rewrite <- (set_cursor_id self) at 1. rewrite Hr, Hc. by destruct (by_row m0).
  - destruct (Z.eqb_spec (images_per_main_axis m0) 0); [lia|].
    destruct (Z.eqb_spec (i mod images_per_main_axis m0) 0) as [Hz|Hnz].
    + pose proof (div_step_wrap _ i HP ltac:(lia) Hz) as Hq.
      destruct (by_row m0); injection Hcur as Hr Hc; simpl;
        rewrite Hz, ?Hr, ?Hc, Hq; done.
    + pose proof (div_step_stay _ i HP ltac:(lia) Hnz) as [Hq Hr'].
      destruct (by_row m0); injection Hcur as Hr Hc; simpl;
        rewrite <- (set_cursor_id self) at 1; rewrite Hr, Hc, Hq, Hr'; done.
Qed.

Lemma advance_placed m0 self i :
  fresh_grid m0 → 0 <= i →
  same_settings m0 self → wf (montage self) → counter self = i →
  (row self, col self) = cell_of (by_row m0) (images_per_main_axis m0) i →
  placed m0 (advance self) (i + 1).
Proof.
  intros (HW&HH&HP&_) Hi (E1&E2&E3&E4&E5&E6) Hwf Hcnt Hcur.
  destruct self as [w h p b m c r cl]. simpl in *.
  unfold placed, same_settings, advance, cursor_after, cell_of in *. simpl.
  rewrite Hcnt, <- E4.
  destruct (Z.eqb_spec (i + 1) 0) as [|_]; [lia|].
  replace (i + 1 - 1) with i by lia.
  destruct (by_row m0); injection Hcur as -> ->; simpl; repeat split; try done; apply Hwf.
Qed.

(** Text and highlight keep the canvas a canvas. *)
Lemma draw_keeps m text (highlight : bool) org p1 p2 :
  wf m →
  let m1 := match text with Some t => cv2_putText m t org | None => m end in
  let m2 := if highlight then cv2_rectangle m1 p1 p2 else m1 in
  wf m2 ∧ shape0 m2 = shape0 m ∧ shape1 m2 = shape1 m.
Proof.
  intros Hwf. simpl.
  assert (∀ m1, wf m1 → shape0 m1 = shape0 m → shape1 m1 = shape1 m →
            let m2 := if highlight then cv2_rectangle m1 p1 p2 else m1 in
            wf m2 ∧ shape0 m2 = shape0 m ∧ shape1 m2 = shape1 m) as Hrect.
  { intros m1 Hwf1 H0 H1. destruct highlight; simpl; [|done].
    destruct (rectangle_ok p1 p2 m1) as (?&?&?). split; [auto|]. split; congruence. }
  destruct text as [t|]; [|by apply Hrect].
  destruct (putText_ok t org m) as (?&?&?). apply Hrect; auto.
Qed.

(** A call that returns has placed one more image. *)
Lemma add_result_placed m0 self i c self' :
  fresh_grid m0 → placed m0 self i → 0 <= i →
  add_result self c = inr self' → placed m0 self' (i + 1).
Proof.
  intros Hfresh Hpl Hi. destruct c as [[image text] highlight].
  unfold add_result.
  rewrite (wrap_cursor_placed m0 self i Hfresh Hpl Hi).
  set (rc := cell_of _ _ i).
  destruct Hpl as (Hset&Hwf&Hcnt&Hcur).
  destruct (cv2_resize image _) as [e|r]; [done|].
  unfold cell_slice. simpl.
  destruct (setitem _ _ _ _ _ r) as [e|a] eqn:Ha; [done|].
  intros [= <-].
  apply setitem_shape in Ha as (Hwfa&H0&H1); [|done].
  pose proof (draw_keeps a text highlight
                (rc.2 * imageH self + 5, rc.1 * imageW self + 13)
                (rc.2 * imageH self + 3, rc.1 * imageW self + 3)
                ((rc.2 + 1) * imageH self - 3, (rc.1 + 1) * imageW self - 3) Hwfa)
    as (Hwfd&Hd0&Hd1).
  apply advance_placed; try done; simpl.
  - destruct Hset as (E1&E2&E3&E4&E5&E6). unfold same_settings. simpl.
    repeat split; try done; congruence.
  - symmetry. apply surjective_pairing.
Qed.

Lemma add_results_placed m0 cs : ∀ self i self',
  fresh_grid m0 → placed m0 self i → 0 <= i →
  add_results self cs = inr self' → placed m0 self' (i + len cs).
Proof.
  induction cs as [|c cs IH]; intros self i self' Hfresh Hpl Hi; simpl.
  - intros [= <-]. unfold len. simpl. by rewrite Z.add_0_r.
  - destruct (add_result self c) as [e|s] eqn:Hs; [done|]. simpl.
    intros Hrun. apply (add_result_placed m0 _ i) in Hs; try done.
    apply (IH _ (i + 1)) in Hrun; try done; [|lia].
    unfold len in *. simpl length. by replace (i + Z.of_nat (S (length cs)))
      with (i + 1 + Z.of_nat (length cs)) by lia.
Qed.

(** The cells a run has written are those of the indices, in order. *)
Lemma placements_run m0 cs : ∀ self i self',
  fresh_grid m0 → placed m0 self i → 0 <= i →
  add_results self cs = inr self' →
  placements self cs
  = map (λ k, cell_of (by_row m0) (images_per_main_axis m0) (i + Z.of_nat k))
        (seq 0 (length cs)).
Proof.
  induction cs as [|c cs IH]; intros self i self' Hfresh Hpl Hi; simpl; [done|].
  rewrite (wrap_cursor_placed m0 self i Hfresh Hpl Hi).
  destruct (add_result self c) as [e|s] eqn:Hs; [done|]. simpl.
  intros Hrun. apply (add_result_placed m0 _ i) in Hs; try done.
  rewrite (IH s (i + 1) self') by (done || lia).
  rewrite Z.add_0_r. f_equal; [by destruct (cell_of _ _ i)|].
  rewrite <- seq_shift, map_map. apply map_ext. intros k. f_equal. lia.
Qed.

Lemma montage_advance self : montage (advance self) = montage self.
Proof. unfold advance. by destruct (by_row self). Qed.

Lemma in_range_cell m0 rc y x :
  in_range (rc.1 * imageW m0) ((rc.1 + 1) * imageW m0) y
  && in_range (rc.2 * imageH m0) ((rc.2 + 1) * imageH m0) x = true
  ↔ in_cell m0 rc y x.
Proof.
  unfold in_range, in_cell. rewrite !andb_true_iff.
  rewrite !Z.leb_le, !Z.ltb_lt. tauto.
Qed.

(** Distinct cells have disjoint pixel rectangles. *)
Lemma in_cell_disjoint m0 rc1 rc2 y x :
  0 < imageW m0 → 0 < imageH m0 → rc1 ≠ rc2 →
  in_cell m0 rc1 y x → ¬ in_cell m0 rc2 y x.
Proof.
  intros HW HH Hne [Hy1 Hx1] [Hy2 Hx2]. apply Hne.
  destruct rc1 as [r1 c1], rc2 as [r2 c2]. simpl in *. f_equal; nia.
Qed.

(** A cell of the grid lies inside the canvas. *)
Lemma in_cell_canvas m0 rc y x :
  fresh_grid m0 → in_grid m0 rc → in_cell m0 rc y x →
  Z.of_nat y < shape0 (montage m0) ∧ Z.of_nat x < shape1 (montage m0).
Proof.
  intros (HW&HH&HP&_&_&_&_&E0&E1&_) [Hr Hc] [Hy Hx]. rewrite E0, E1. nia.
Qed.

(** On the grid, a call returns and writes its cell: the assignment puts the
    resized image there and nowhere else, and the drawing works on that. *)
Lemma add_result_in_grid m0 self i c :
  fresh_grid m0 → placed m0 self i → 0 <= i →
  let rc := cell_of (by_row m0) (images_per_main_axis m0) i in
  in_grid m0 rc → ok_call c →
  ∃ self', writes_cell cv2_resize cv2_putText cv2_rectangle m0 self c rc self'.
Proof.
  intros Hfresh Hpl Hi rc [Hr Hc] Him. destruct c as [[image text] highlight].
  pose proof Hfresh as (HW&HH&HP&_&_&_&_&E0&E1&_).
  destruct (resize_ok image (imageH m0) (imageW m0) Him HH HW) as (r&Hres&Hr0&Hr1).
  unfold writes_cell, add_result.
  rewrite (wrap_cursor_placed m0 self i Hfresh Hpl Hi). fold rc.
  destruct Hpl as ((S1&S2&S3&S4&S5&S6)&Hwf&Hcnt&Hcur).
  simpl. rewrite <- ?S1, <- ?S2, Hres. unfold cell_slice. simpl. rewrite <- ?S1, <- ?S2.
  destruct (setitem_inside (montage self)
              (rc.1 * imageW m0) ((rc.1 + 1) * imageW m0)
              (rc.2 * imageH m0) ((rc.2 + 1) * imageH m0) r)
    as (a&Ha&Hwfa&Ha0&Ha1&Hpx); try done; try nia.
  rewrite Ha. eexists. split; [done|]. exists r, a. split; [done|]. split.
  - split; [done|]. split; [done|]. intros y x. rewrite Hpx. split.
    + intros Hin. by rewrite (proj2 (in_range_cell m0 rc y x) Hin).
    + intros Hout. destruct (_ && _) eqn:Hin; [|done].
      by apply in_range_cell in Hin.
  - by rewrite montage_advance.
Qed.

(** A call without label and highlight draws nothing: its canvas is the one
    the assignment leaves. *)
Lemma writes_cell_plain m0 self image rc self' :
  writes_cell cv2_resize cv2_putText cv2_rectangle m0 self (plain image) rc self' →
  ∃ r, cv2_resize image (imageH m0, imageW m0) = inr r ∧
       pasted m0 rc r (montage self) (montage self').
Proof. intros (_ & r & m1 & Hres & Hpaste & ->). by exists r. Qed.

(** Off the grid, a call raises as soon as a cell has two or more pixels a
    side; if it returns at all, it has written nothing. *)
Lemma add_result_off_grid m0 self i image :
  fresh_grid m0 → placed m0 self i → 0 <= i →
  let rc := cell_of (by_row m0) (images_per_main_axis m0) i in
  ¬ in_grid m0 rc → ok_image image →
  (2 <= imageW m0 → 2 <= imageH m0 → ∀ text highlight,
     ∃ s, add_result self (image, text, highlight) = inl (ValueError, s) ∧
          montage s = montage self) ∧
  (∀ self', add_result self (plain image) = inr self' →
     ∀ y x, px (montage self') y x = px (montage self) y x).
Proof.
  intros Hfresh Hpl Hi rc Hout Him.
  pose proof Hfresh as (HW&HH&HP&_&_&_&_&E0&E1&HR&HC&_).
  destruct (cell_of_nonneg (by_row m0) _ i HP Hi) as [Hr0 Hc0]. fold rc in Hr0, Hc0.
  assert (grid_rows m0 <= rc.1 ∨ grid_cols m0 <= rc.2) as Hoff.
  { unfold in_grid in Hout. lia. }
  destruct (resize_ok image (imageH m0) (imageW m0) Him HH HW) as (r&Hres&Hr0'&Hr1').
  unfold add_result, plain.
  rewrite (wrap_cursor_placed m0 self i Hfresh Hpl Hi). fold rc.
  destruct Hpl as ((S1&S2&S3&S4&S5&S6)&Hwf&Hcnt&Hcur).
  simpl. rewrite <- ?S1, <- ?S2, Hres. unfold cell_slice. simpl. rewrite <- ?S1, <- ?S2.
  split.
  - intros HW2 HH2 text highlight. destruct Hoff as [Hoff|Hoff].
    + rewrite setitem_beyond_rows; [eauto| | |nia|lia].
      * rewrite <- S5, E0. nia.
      * rewrite <- S5, E0. nia.
    + rewrite setitem_beyond_cols; [eauto| | |nia|lia].
      * rewrite <- S6, E1. nia.
      * rewrite <- S6, E1. nia.
  - intros self'. destruct (setitem _ _ _ _ _ r) as [e|a] eqn:Ha; [done|].
    intros [= <-]. rewrite montage_advance. simpl.
    eapply setitem_empty in Ha as (_&_&_&Hpx); [done|done|].
    rewrite <- S5, <- S6, E0, E1. destruct Hoff; [left|right]; nia.
Qed.

(** Within the capacity, a run returns. *)
Lemma add_results_ok m0 cs : ∀ self i,
  fresh_grid m0 → placed m0 self i → 0 <= i →
  i + len cs <= capacity m0 → Forall ok_call cs →
  ∃ self', add_results self cs = inr self'.
Proof.
  induction cs as [|c cs IH]; intros self i Hfresh Hpl Hi Hcap Hok; simpl; [eauto|].
  apply Forall_cons in Hok as [Hc Hcs]. unfold len in Hcap. simpl length in Hcap.
  destruct (add_result_in_grid m0 self i c) as (s&Hs&_); try done.
  { apply capacity_in_grid; try done. lia. }
  rewrite Hs. simpl. apply (IH s (i + 1)); try done; try lia.
  - by apply (add_result_placed m0 self i c s).
  - unfold len. lia.
Qed.

Lemma placements_cells m0 cs m' :
  fresh_grid m0 → add_results m0 cs = inr m' →
  placements m0 cs = cells_in_order (by_row m0) (images_per_main_axis m0) (length cs).
Proof.
  intros Hfresh Hrun.
  rewrite (placements_run m0 cs m0 0 m' Hfresh (fresh_placed m0 Hfresh)
             ltac:(lia) Hrun).
  apply map_ext. intros k. by rewrite Z.add_0_l.
Qed.

Lemma cells_in_order_lookup b P n i :
  (i < n)%nat → cells_in_order b P n !! i = Some (cell_of b P (Z.of_nat i)).
Proof.
  intros Hi. unfold cells_in_order.
  change (map ?f ?l) with (f <$> l). rewrite list_lookup_fmap.
  by rewrite lookup_seq_lt.
Qed.

Lemma cells_in_order_lookup_inv b P n i rc :
  cells_in_order b P n !! i = Some rc → (i < n)%nat ∧ rc = cell_of b P (Z.of_nat i).
Proof.
  intros Hl. assert (i < n)%nat as Hi.
  { apply lookup_lt_Some in Hl. unfold cells_in_order in Hl.
    by rewrite length_map, length_seq in Hl. }
  rewrite cells_in_order_lookup in Hl by done. split; congruence.
Qed.

Lemma cells_in_order_NoDup b P n : 0 < P → NoDup (cells_in_order b P n).
Proof.
  intros HP. apply NoDup_alt. intros j k rc Hj Hk.
  apply cells_in_order_lookup_inv in Hj as [_ ->].
  apply cells_in_order_lookup_inv in Hk as [_ Hk].
  apply cell_of_inj in Hk; [lia|done].
Qed.

Lemma add_results_app cs1 : ∀ cs2 self,
  add_results self (cs1 ++ cs2)
  = match add_results self cs1 with
    | inl e => inl e
    | inr s => add_results s cs2
    end.
Proof.
  induction cs1 as [|c cs1 IH]; intros cs2 self; simpl; [done|].
  destruct (add_result self c) as [e|s]; simpl; [done|]. apply IH.
Qed.

(** In a run within the capacity, the call with index [k] is made on the
    object the first [k] calls leave, and writes the cell of index [k]. *)
Lemma run_call m0 cs k c :
  fresh_grid m0 → len cs <= capacity m0 → Forall ok_call cs → cs !! k = Some c →
  ∃ before after,
    add_results m0 (take k cs) = inr before ∧
    add_results m0 (take (S k) cs) = inr after ∧
    writes_cell cv2_resize cv2_putText cv2_rectangle m0 before c
      (cell_of (by_row m0) (images_per_main_axis m0) (Z.of_nat k)) after.
Proof.
  intros Hfresh Hcap Hok Hk.
  pose proof (lookup_lt_Some _ _ _ Hk) as Hlt. unfold len in Hcap.
  assert (length (take k cs) = k) as Hlen by (rewrite length_take; lia).
  destruct (add_results_ok m0 (take k cs) m0 0 Hfresh (fresh_placed m0 Hfresh))
    as [before Hbefore]; [lia|unfold len; lia|by apply Forall_take|].
  pose proof (add_results_placed m0 (take k cs) m0 0 before Hfresh
                (fresh_placed m0 Hfresh) ltac:(lia) Hbefore) as Hpl.
  unfold len in Hpl. rewrite Hlen, Z.add_0_l in Hpl.
  destruct (add_result_in_grid m0 before (Z.of_nat k) c Hfresh Hpl ltac:(lia))
    as [after Hw].
  { apply capacity_in_grid; [done|lia|lia]. }
  { by apply (proj1 (Forall_lookup _ _) Hok k c). }
  exists before, after. split; [done|]. split; [|done].
  rewrite (take_S_r _ _ _ Hk), add_results_app, Hbefore. simpl.
  destruct Hw as [-> _]. done.
Qed.

(** The canvas after a run of calls without label and highlight, started
    with [i] images placed: the cells of the run hold the resized images and
    every other pixel is as it was. *)
Lemma plain_run_pixels m0 images : ∀ self i,
  fresh_grid m0 → placed m0 self i → 0 <= i →
  i + len images <= capacity m0 → Forall ok_image images →
  ∃ self', add_results self (map plain images) = inr self' ∧
    ∀ y x,
      (∀ k image, images !! k = Some image →
         let rc := cell_of (by_row m0) (images_per_main_axis m0) (i + Z.of_nat k) in
         in_cell m0 rc y x →
         ∃ r, cv2_resize image (imageH m0, imageW m0) = inr r ∧
              px (montage self') y x
              = as_uint8 (px r (Z.to_nat (Z.of_nat y - rc.1 * imageW m0))
                               (Z.to_nat (Z.of_nat x - rc.2 * imageH m0)))) ∧
      ((∀ k, (k < length images)%nat →
          ¬ in_cell m0 (cell_of (by_row m0) (images_per_main_axis m0) (i + Z.of_nat k)) y x) →
       px (montage self') y x = px (montage self) y x).
Proof.
  induction images as [|image images IH]; intros self i Hfresh Hpl Hi Hcap Hok.
  - exists self. split; [done|]. intros y x. split; [|done].
    intros k image Hk. by rewrite lookup_nil in Hk.
  - apply Forall_cons in Hok as [Him Hok]. unfold len in Hcap. simpl length in Hcap.
    pose proof Hfresh as (HW&HH&HP&_).
    destruct (add_result_in_grid m0 self i (plain image) Hfresh Hpl Hi)
      as (s & Hw); [|done|].
    { apply capacity_in_grid; [done|done|lia]. }
    pose proof Hw as [Hadd _].
    apply writes_cell_plain in Hw as (r & Hres & _ & _ & Hpx).
    assert (placed m0 s (i + 1)) as Hpl'.
    { by apply (add_result_placed m0 self i (plain image) s). }
    destruct (IH s (i + 1) Hfresh Hpl') as (self' & Hrun & Hfinal);
      [lia|unfold len; lia|done|].
    exists self'. split.
    { cbn [map Montage.add_results]. rewrite Hadd. exact Hrun. }
    intros y x. destruct (Hfinal y x) as [Hcells Hrest]. split.
    + intros [|k] image' Hk rc Hin.
      * simpl in Hk. injection Hk as <-. exists r. split; [done|].
        unfold rc in *. rewrite Z.add_0_r in *.
        rewrite Hrest; [by apply Hpx|].
        intros k Hklt.
        apply (in_cell_disjoint m0 (cell_of (by_row m0) (images_per_main_axis m0) i)
                 _ y x); [done|done| |done].
        intros Heq. apply cell_of_inj in Heq; [lia|done].
      * simpl in Hk. unfold rc in *.
        replace (i + Z.of_nat (S k)) with (i + 1 + Z.of_nat k) in * by lia.
        by apply (Hcells k image').
    + intros Hout. rewrite Hrest.
      * apply Hpx. specialize (Hout 0%nat ltac:(simpl; lia)).
        by rewrite Z.add_0_r in Hout.
      * intros k Hk. specialize (Hout (S k) ltac:(simpl; lia)).
        by replace (i + Z.of_nat (S k)) with (i + 1 + Z.of_nat k) in Hout by lia.
Qed.

(** C1 (amended).  For positive cell size, per-axis count [P] and result
    count [N], [__init__] allocates a canvas of
    [ceil(N/P) * min(P, N)] cells.  Any run of at most that many calls to
    [add_result] returns; the cells it writes are on the grid, pairwise
    distinct, and their pixel rectangles pairwise disjoint; and the call
    with index [k] does write the cell listed for it: made on the object
    the first [k] calls leave, it assigns its resized image (cast to the
    canvas's [uint8]) into the pixel rectangle of that cell and nowhere
    else, and then draws its label and highlight, if any. *)
Theorem canvas_capacity_and_distinct_cells W H P N b :
  0 < W → 0 < H → 0 < P → 0 < N →
  ∃ m, init (W, H) P N b = inr m ∧
    capacity m = ceil_div N P * Z.min P N ∧
    ∀ cs, len cs <= capacity m → Forall ok_call cs →
      ∃ m', add_results m cs = inr m' ∧
        length (placements m cs) = length cs ∧
        Forall (in_grid m) (placements m cs) ∧
        NoDup (placements m cs) ∧
        (∀ j k rc1 rc2 y x,
           placements m cs !! j = Some rc1 → placements m cs !! k = Some rc2 →
           j ≠ k → in_cell m rc1 y x → ¬ in_cell m rc2 y x) ∧
        ∀ k c, cs !! k = Some c →
          ∃ rc before after,
            placements m cs !! k = Some rc ∧
            add_results m (take k cs) = inr before ∧
            add_results m (take (S k) cs) = inr after ∧
            writes_cell cv2_resize cv2_putText cv2_rectangle m before c rc after.
Proof.
  intros HW HH HP HN.
  destruct (init_fresh W H P N b HW HH HP HN) as (m&Hm&Hfresh&EW&EH&EP&Eb&ER&EC).
  exists m. split; [done|]. split.
  { unfold capacity. rewrite ER, EC. destruct b; lia. }
  intros cs Hcap Hok.
  destruct (add_results_ok m cs m 0 Hfresh (fresh_placed m Hfresh))
    as [m' Hrun]; [lia|lia|done|].
  exists m'. split; [done|].
  rewrite (placements_cells m cs m' Hfresh Hrun).
  split; [unfold cells_in_order; by rewrite length_map, length_seq|].
  split; [|split; [|split]].
  - apply Forall_lookup. intros i rc Hl.
    apply cells_in_order_lookup_inv in Hl as [Hi ->].
    apply capacity_in_grid; [done|lia|]. unfold len in Hcap. lia.
  - apply cells_in_order_NoDup. lia.
  - intros j k rc1 rc2 y x Hj Hk Hne.
    apply cells_in_order_lookup_inv in Hj as [_ ->].
    apply cells_in_order_lookup_inv in Hk as [_ ->].
    apply in_cell_disjoint; [lia|lia|].
    intros Heq. apply cell_of_inj in Heq; [lia|lia].
  - intros k c Hk.
    destruct (run_call m cs k c Hfresh Hcap Hok Hk) as (before & after & Hb & Ha & Hw).
    exists (cell_of (by_row m) (images_per_main_axis m) (Z.of_nat k)), before, after.
    split; [|done]. apply cells_in_order_lookup. by apply lookup_lt_Some in Hk.
Qed.

(** C2.  In a run of at most capacity-many calls, the call with index [i]
    (0-based) writes cell [(i div P, i mod P)] when [by_row] is true and
    cell [(i mod P, i div P)] when it is false: that is the cell under the
    cursor, and the call assigns its resized image into the pixel rectangle
    of that cell and nowhere else before it draws its label and highlight.
    With [P = 2], four results and row-major order the canvas is 2 by 2
    cells, the cells written are (0,0), (0,1), (1,0), (1,1) in input order,
    and after four calls without label and highlight the finished canvas
    holds the four resized images in those cells. *)
Theorem placement_follows_major_order W H P N b :
  0 < W → 0 < H → 0 < P → 0 < N →
  ∃ m, init (W, H) P N b = inr m ∧
    (∀ cs, len cs <= capacity m → Forall ok_call cs →
       ∃ m', add_results m cs = inr m' ∧
         ∀ i c, cs !! i = Some c →
           let rc := if b then (Z.of_nat i / P, Z.of_nat i mod P)
                     else (Z.of_nat i mod P, Z.of_nat i / P) in
           placements m cs !! i = Some rc ∧
           ∃ before after,
             add_results m (take i cs) = inr before ∧
             add_results m (take (S i) cs) = inr after ∧
             writes_cell cv2_resize cv2_putText cv2_rectangle m before c rc after) ∧
    (P = 2 → N = 4 → b = true →
       grid_rows m = 2 ∧ grid_cols m = 2 ∧
       (∀ cs, length cs = 4%nat → Forall ok_call cs →
          placements m cs = [(0, 0); (0, 1); (1, 0); (1, 1)]) ∧
       ∀ images, length images = 4%nat → Forall ok_image images →
         ∃ m', add_results m (map plain images) = inr m' ∧
           ∀ k image rc,
             images !! k = Some image →
             [(0, 0); (0, 1); (1, 0); (1, 1)] !! k = Some rc →
             ∃ r, cv2_resize image (H, W) = inr r ∧
               ∀ y x, in_cell m rc y x →
                 px (montage m') y x
                 = as_uint8 (px r (Z.to_nat (Z.of_nat y - rc.1 * W))
                                  (Z.to_nat (Z.of_nat x - rc.2 * H)))).
Proof.
  intros HW HH HP HN.
  destruct (init_fresh W H P N b HW HH HP HN) as (m&Hm&Hfresh&EW&EH&EP&Eb&ER&EC).
  exists m. split; [done|]. split.
  - intros cs Hcap Hok.
    destruct (add_results_ok m cs m 0 Hfresh (fresh_placed m Hfresh))
      as [m' Hrun]; [lia|lia|done|].
    exists m'. split; [done|]. intros i c Hi rc.
    rewrite (placements_cells m cs m' Hfresh Hrun), EP, Eb.
    split; [apply cells_in_order_lookup; by apply lookup_lt_Some in Hi|].
    destruct (run_call m cs i c Hfresh Hcap Hok Hi) as (before & after & Hb & Ha & Hw).
    rewrite EP, Eb in Hw. by exists before, after.
  - intros -> -> ->. rewrite ER, EC. split; [done|]. split; [done|]. split.
    + intros cs Hlen Hok.
      destruct (add_results_ok m cs m 0 Hfresh (fresh_placed m Hfresh))
        as [m' Hrun]; [lia| |done|].
      { unfold capacity, len. rewrite ER, EC, Hlen. done. }
      rewrite (placements_cells m cs m' Hfresh Hrun), EP, Eb, Hlen. done.
    + intros images Hlen Hok.
      destruct (plain_run_pixels m images m 0 Hfresh (fresh_placed m Hfresh))
        as (m' & Hrun & Hfinal); [lia| |done|].
      { unfold capacity, len. rewrite ER, EC, Hlen. done. }
      exists m'. split; [done|]. intros k image rc Hk Hrc.
      assert (rc = cell_of true 2 (0 + Z.of_nat k)) as ->.
      { destruct k as [|[|[|[|k]]]]; simpl in Hrc; by simplify_eq. }
      pose proof (Hfinal 0%nat 0%nat) as [Hcell _].
      assert (∃ r, cv2_resize image (H, W) = inr r) as [r Hres].
      { destruct (resize_ok image H W) as (r & Hr & _); [|done|done|by exists r].
        by apply (proj1 (Forall_lookup _ _) Hok k image). }
      exists r. split; [done|]. intros y x Hin.
      destruct (Hfinal y x) as [Hcells _].
      rewrite EP, Eb, EW, EH in Hcells.
      destruct (Hcells k image Hk Hin) as (r' & Hres' & Hpx).
      rewrite Hres in Hres'. injection Hres' as <-. done.
Qed.

(** C10 (amended).  Let [self] be the montage after a run of calls that
    all returned.  While the run is shorter than the capacity, a further
    call returns and its cell is on the grid; its assignment puts the
    resized image (cast to the canvas's [uint8]) into the pixel rectangle of
    that cell and changes no pixel outside it, and the canvas it leaves is
    what [cv2.putText] and [cv2.rectangle] make of that when the call has a
    label or a highlight: they are handed the whole canvas.  Without label
    and highlight the call has changed no pixel outside its cell.  Once the
    run has reached the capacity, a further call raises [ValueError] and
    leaves the canvas as it is, provided a cell is at least two pixels wide
    and two pixels high; whatever the cell size, a call without label and
    highlight that returns has changed no pixel. *)
Theorem add_result_confined_to_its_cell W H P N b :
  0 < W → 0 < H → 0 < P → 0 < N →
  ∃ m, init (W, H) P N b = inr m ∧
    ∀ cs self image,
      Forall ok_call cs → add_results m cs = inr self → ok_image image →
      let rc := cell_of b P (len cs) in
      (len cs < capacity m →
         in_grid m rc ∧
         (∀ text highlight,
            ∃ self', writes_cell cv2_resize cv2_putText cv2_rectangle m self
                       (image, text, highlight) rc self') ∧
         ∃ r self',
           cv2_resize image (H, W) = inr r ∧
           add_result self (plain image) = inr self' ∧
           ∀ y x,
             (in_cell m rc y x →
                px (montage self') y x
                = as_uint8 (px r (Z.to_nat (Z.of_nat y - rc.1 * W))
                                 (Z.to_nat (Z.of_nat x - rc.2 * H)))) ∧
             (¬ in_cell m rc y x → px (montage self') y x = px (montage self) y x)) ∧
      (capacity m <= len cs →
         (2 <= W → 2 <= H → ∀ text highlight,
            ∃ s, add_result self (image, text, highlight) = inl (ValueError, s) ∧
                 montage s = montage self) ∧
         (∀ self', add_result self (plain image) = inr self' →
            ∀ y x, px (montage self') y x = px (montage self) y x)).
Proof.
  intros HW HH HP HN.
  destruct (init_fresh W H P N b HW HH HP HN) as (m&Hm&Hfresh&EW&EH&EP&Eb&ER&EC).
  exists m. split; [done|]. intros cs self image Hok Hrun Him rc.
  pose proof (add_results_placed m cs m 0 self Hfresh (fresh_placed m Hfresh)
                ltac:(lia) Hrun) as Hpl.
  rewrite Z.add_0_l in Hpl.
  assert (0 <= len cs) as Hlen by (unfold len; lia).
  pose proof (capacity_in_grid m (len cs) Hfresh Hlen) as Hcap.
  rewrite EP, Eb in Hcap. fold rc in Hcap.
  split.
  - intros Hlt. split; [by apply Hcap|].
    assert (∀ c, ok_call c →
              ∃ self', writes_cell cv2_resize cv2_putText cv2_rectangle m self c rc self')
      as Hcall.
    { intros c Hc.
      pose proof (add_result_in_grid m self (len cs) c Hfresh Hpl Hlen) as Hw.
      rewrite EP, Eb in Hw. apply Hw; [by apply Hcap|done]. }
    split; [intros text highlight; by apply Hcall|].
    destruct (Hcall (plain image) Him) as [self' Hw].
    pose proof Hw as [Hadd _].
    apply writes_cell_plain in Hw as (r & Hres & _ & _ & Hpx).
    rewrite EW, EH in Hres. exists r, self'. split; [done|]. split; [done|].
    intros y x. specialize (Hpx y x). by rewrite EW, EH in Hpx.
  - intros Hge.
    pose proof (add_result_off_grid m self (len cs) image Hfresh Hpl Hlen) as Hoff.
    rewrite EP, Eb, EW, EH in Hoff. apply Hoff; [|done].
    intros Hin. apply Hcap in Hin. lia.
Qed.

End MontageFacts.

(** The stand-ins meet what is assumed of cv2. *)
Lemma resize_nearest_spec : resize_spec resize_nearest.
Proof.
  intros image w h [H0 H1] Hw Hh. unfold resize_nearest.
  destruct (Z.leb_spec w 0); [lia|]. destruct (Z.leb_spec h 0); [lia|].
  destruct (Z.leb_spec (shape0 image) 0); [lia|].
  destruct (Z.leb_spec (shape1 image) 0); [lia|]. simpl. eauto.
Qed.

Lemma mark_keeps_shape pt colour : keeps_shape (λ m, mark m pt colour).
Proof.
  intros m. split; [done|]. split; [done|]. intros Hwf.
  apply (imap2_wf (λ y x p,
    if (Z.of_nat x =? pt.1) && (Z.of_nat y =? pt.2) then colour else p) m Hwf).
Qed.

Lemma putText_mark_spec t org : keeps_shape (λ m, putText_mark m t org).
Proof. apply mark_keeps_shape. Qed.

Lemma rectangle_mark_spec p1 p2 : keeps_shape (λ m, rectangle_mark m p1 p2).
Proof. apply mark_keeps_shape. Qed.

(** The first theorem of the compositor on a grid of 2 by 2 cells of 2 by 2
    pixels. *)
Lemma canvas_capacity_and_distinct_cells_example :
  ∃ m, init (2, 2) 2 4 true = inr m ∧
    capacity m = ceil_div 4 2 * Z.min 2 4 ∧
    ∀ cs, len cs <= capacity m → Forall ok_call cs →
      ∃ m', add_results resize_nearest putText_mark rectangle_mark m cs = inr m' ∧
        length (placements resize_nearest putText_mark rectangle_mark m cs) = length cs ∧
        Forall (in_grid m) (placements resize_nearest putText_mark rectangle_mark m cs) ∧
        NoDup (placements resize_nearest putText_mark rectangle_mark m cs) ∧
        (∀ j k rc1 rc2 y x,
           placements resize_nearest putText_mark rectangle_mark m cs !! j = Some rc1 →
           placements resize_nearest putText_mark rectangle_mark m cs !! k = Some rc2 →
           j ≠ k → in_cell m rc1 y x → ¬ in_cell m rc2 y x) ∧
        ∀ k c, cs !! k = Some c →
          ∃ rc before after,
            placements resize_nearest putText_mark rectangle_mark m cs !! k = Some rc ∧
            add_results resize_nearest putText_mark rectangle_mark m (take k cs)
            = inr before ∧
            add_results resize_nearest putText_mark rectangle_mark m (take (S k) cs)
            = inr after ∧
            writes_cell resize_nearest putText_mark rectangle_mark m before c rc after.
Proof.
  apply (canvas_capacity_and_distinct_cells resize_nearest putText_mark rectangle_mark
           resize_nearest_spec putText_mark_spec rectangle_mark_spec 2 2 2 4 true); lia.
Defined.

(** C1 as stated fails when fewer images than [P] are announced: with
    [N = 1] and [P = 2] the canvas is one cell, not [ceil(1/2) * 2 = 2], and
    the second call raises. *)
Lemma canvas_capacity_short_line :
  ∃ m s, init (2, 2) 2 1 true = inr m ∧
    capacity m = 1 ∧ ceil_div 1 2 * 2 = 2 ∧
    add_results resize_nearest putText_mark rectangle_mark m
      [plain (solid 3 3 (1, 1, 1)); plain (solid 3 3 (2, 2, 2))]
    = inl (ValueError, s).
Proof. do 2 eexists. repeat split; vm_compute; reflexivity. Qed.

Lemma placement_follows_major_order_example :
  ∃ m, init (2, 2) 2 4 true = inr m ∧
    (∀ cs, len cs <= capacity m → Forall ok_call cs →
       ∃ m', add_results resize_nearest putText_mark rectangle_mark m cs = inr m' ∧
         ∀ i c, cs !! i = Some c →
           let rc := (Z.of_nat i / 2, Z.of_nat i mod 2) in
           placements resize_nearest putText_mark rectangle_mark m cs !! i = Some rc ∧
           ∃ before after,
             add_results resize_nearest putText_mark rectangle_mark m (take i cs)
             = inr before ∧
             add_results resize_nearest putText_mark rectangle_mark m (take (S i) cs)
             = inr after ∧
             writes_cell resize_nearest putText_mark rectangle_mark m before c rc after) ∧
    (2 = 2 → 4 = 4 → true = true →
       grid_rows m = 2 ∧ grid_cols m = 2 ∧
       (∀ cs, length cs = 4%nat → Forall ok_call cs →
          placements resize_nearest putText_mark rectangle_mark m cs
          = [(0, 0); (0, 1); (1, 0); (1, 1)]) ∧
       ∀ images, length images = 4%nat → Forall ok_image images →
         ∃ m', add_results resize_nearest putText_mark rectangle_mark m (map plain images)
               = inr m' ∧
           ∀ k image rc,
             images !! k = Some image →
             [(0, 0); (0, 1); (1, 0); (1, 1)] !! k = Some rc →
             ∃ r, resize_nearest image (2, 2) = inr r ∧
               ∀ y x, in_cell m rc y x →
                 px (montage m') y x
                 = as_uint8 (px r (Z.to_nat (Z.of_nat y - rc.1 * 2))
                                  (Z.to_nat (Z.of_nat x - rc.2 * 2)))).
Proof.
  apply (placement_follows_major_order resize_nearest putText_mark rectangle_mark
           resize_nearest_spec putText_mark_spec rectangle_mark_spec 2 2 2 4 true); lia.
Defined.

Lemma add_result_confined_to_its_cell_example :
  ∃ m, init (2, 2) 2 4 false = inr m ∧
    ∀ cs self image,
      Forall ok_call cs →
      add_results resize_nearest putText_mark rectangle_mark m cs = inr self →
      ok_image image →
      let rc := cell_of false 2 (len cs) in
      (len cs < capacity m →
         in_grid m rc ∧
         (∀ text highlight,
            ∃ self', writes_cell resize_nearest putText_mark rectangle_mark m self
                       (image, text, highlight) rc self') ∧
         ∃ r self',
           resize_nearest image (2, 2) = inr r ∧
           add_result resize_nearest putText_mark rectangle_mark self (plain image)
           = inr self' ∧
           ∀ y x,
             (in_cell m rc y x →
                px (montage self') y x
                = as_uint8 (px r (Z.to_nat (Z.of_nat y - rc.1 * 2))
                                 (Z.to_nat (Z.of_nat x - rc.2 * 2)))) ∧
             (¬ in_cell m rc y x → px (montage self') y x = px (montage self) y x)) ∧
      (capacity m <= len cs →
         (2 <= 2 → 2 <= 2 → ∀ text highlight,
            ∃ s, add_result resize_nearest putText_mark rectangle_mark self
                   (image, text, highlight) = inl (ValueError, s) ∧
                 montage s = montage self) ∧
         (∀ self', add_result resize_nearest putText_mark rectangle_mark self
                     (plain image) = inr self' →
            ∀ y x, px (montage self') y x = px (montage self) y x)).
Proof.
  apply (add_result_confined_to_its_cell resize_nearest putText_mark rectangle_mark
           resize_nearest_spec putText_mark_spec rectangle_mark_spec 2 2 2 4 false); lia.
Defined.

(** C10 as stated fails in two ways.  With one-pixel cells the image
    broadcasts into the empty slice, so the call beyond the capacity returns
    without an error.  And a call within the capacity that asks for a
    highlight changes pixels outside its cell: [cv2.rectangle] is handed the
    whole canvas and the corner [(startX + 3, startY + 3)], which on cells of
    2 by 2 pixels is pixel (3, 3), in cell (1, 1), while the call's own cell
    is (0, 0).  (The stand-in for [cv2.rectangle] colours that corner only;
    cv2 draws the outline through it.) *)
Lemma add_result_silent_or_outside_its_cell :
  (∃ m self self', init (1, 1) 1 1 true = inr m ∧
     capacity m = 1 ∧
     add_results resize_nearest putText_mark rectangle_mark m
       [plain (solid 3 3 (1, 1, 1))] = inr self ∧
     counter self = 1 ∧
     add_result resize_nearest putText_mark rectangle_mark self
       (plain (solid 3 3 (2, 2, 2))) = inr self' ∧
     counter self' = 2 ∧ montage self' = montage self) ∧
  (∃ m self', init (2, 2) 2 4 true = inr m ∧
     capacity m = 4 ∧
     add_result resize_nearest putText_mark rectangle_mark m
       (solid 3 3 (1, 1, 1), None, true) = inr self' ∧
     in_cell m (0, 0) 0 0 ∧ px (montage self') 0 0 = (1, 1, 1) ∧
     ¬ in_cell m (0, 0) 3 3 ∧ in_cell m (1, 1) 3 3 ∧
     px (montage m) 3 3 = black ∧ px (montage self') 3 3 = (0, 255, 0)).
Proof.
  split.
  - do 3 eexists. repeat split; vm_compute; reflexivity.
  - do 2 eexists. split; [vm_compute; reflexivity|].
    split; [vm_compute; reflexivity|]. split; [vm_compute; reflexivity|].
    unfold in_cell. simpl. repeat split; try lia; vm_compute; reflexivity.
Qed.

(** ** The dominant colour *)

Section CounterFacts.

Lemma count_of_incr l l' c :
  count_of l (counter_incr l' c)
  = if decide (l = l') then S (count_of l c) else count_of l c.
Proof.
  induction c as [|[k n] c IH]; simpl.
  - destruct (Nat.eqb_spec l' l); case_decide; congruence.
  - destruct (Nat.eqb_spec k l') as [->|Hne]; simpl.
    + destruct (Nat.eqb_spec l' l); case_decide; congruence.
    + destruct (Nat.eqb_spec k l) as [->|Hne']; [|done].
      case_decide; congruence.
Qed.

Lemma keys_incr l c k :
  k ∈ (counter_incr l c).*1 ↔ k = l ∨ k ∈ c.*1.
Proof.
  induction c as [|[k' n] c IH]; simpl.
  - rewrite list_elem_of_singleton, elem_of_nil. tauto.
  - destruct (Nat.eqb_spec k' l) as [->|Hne]; simpl;
      rewrite !elem_of_cons, ?IH; tauto.
Qed.

Lemma NoDup_keys_incr l c : NoDup c.*1 → NoDup (counter_incr l c).*1.
Proof.
  induction c as [|[k n] c IH]; simpl; intros Hnd.
  - apply NoDup_singleton.
  - apply NoDup_cons in Hnd as [Hk Hnd].
    destruct (Nat.eqb_spec k l) as [->|Hne]; simpl.
    + by apply NoDup_cons.
    + apply NoDup_cons. split; [|auto].
      rewrite keys_incr. intros [?|?]; done.
Qed.

Lemma Counter_from labels : ∀ c l,
  count_of l (fold_left (λ c l, counter_incr l c) labels c)
  = (count_of l c + cluster_size l labels)%nat.
Proof.
  induction labels as [|x labels IH]; intros c l; simpl.
  - unfold cluster_size. simpl. lia.
  - rewrite IH, count_of_incr. unfold cluster_size.
    rewrite filter_cons. repeat case_decide; simplify_eq; simpl; lia.
Qed.

Lemma Counter_NoDup_from labels : ∀ c,
  NoDup c.*1 → NoDup (fold_left (λ c l, counter_incr l c) labels c).*1.
Proof.
  induction labels as [|x labels IH]; intros c Hnd; simpl; [done|].
  apply IH. by apply NoDup_keys_incr.
Qed.

(** [Counter] counts: the entry of a label is the size of its cluster. *)
Lemma Counter_count labels l : count_of l (Counter labels) = cluster_size l labels.
Proof. unfold Counter. by rewrite Counter_from. Qed.

Lemma Counter_NoDup labels : NoDup (Counter labels).*1.
Proof. apply Counter_NoDup_from. constructor. Qed.

Lemma count_of_entry c k n : NoDup c.*1 → (k, n) ∈ c → count_of k c = n.
Proof.
  induction c as [|[k' n'] c IH]; simpl; intros Hnd Hin.
  - by apply elem_of_nil in Hin.
  - apply NoDup_cons in Hnd as [Hk Hnd].
    apply elem_of_cons in Hin as [[= <- <-]|Hin].
    + by rewrite Nat.eqb_refl.
    + destruct (Nat.eqb_spec k' k) as [->|Hne]; [|auto].
      exfalso. apply Hk. apply list_elem_of_fmap. by exists (k, n).
Qed.

Lemma count_of_bound c l (bound : nat) :
  (∀ it, it ∈ c → (it.2 <= bound)%nat) → (count_of l c <= bound)%nat.
Proof.
  induction c as [|[k n] c IH]; simpl; intros Hb; [lia|].
  destruct (Nat.eqb_spec k l).
  - apply (Hb (k, n)). by left.
  - apply IH. intros it Hit. apply Hb. by right.
Qed.

(** [max] returns an item, and no item has a larger count. *)
Lemma max_by_count_spec items : ∀ best,
  let m := max_by_count best items in
  (m = best ∨ m ∈ items) ∧ (best.2 <= m.2)%nat ∧ ∀ it, it ∈ items → (it.2 <= m.2)%nat.
Proof.
  induction items as [|it items IH]; intros best; simpl.
  - split; [by left|]. split; [lia|]. intros it Hit. by apply elem_of_nil in Hit.
  - specialize (IH (if Nat.ltb best.2 it.2 then it else best)).
    simpl in IH. destruct IH as (Hin & Hge & Hall).
    destruct (Nat.ltb_spec best.2 it.2).
    + split; [destruct Hin as [->|?]; right; by constructor|].
      split; [lia|]. intros it' [->|Hit']%elem_of_cons; [done|auto].
    + split; [destruct Hin as [->|?]; [by left|right; by constructor]|].
      split; [done|]. intros it' [->|Hit']%elem_of_cons; [lia|auto].
Qed.

End CounterFacts.

Section DominantFacts.

Variable centroid : Type.
Variable cv2_resize_area : ndarray → Z * Z → exn + ndarray.
Variable KMeans_fit_predict : Z → list pixel → exn + (list nat * list centroid).

Hypothesis kmeans_ok : kmeans_spec KMeans_fit_predict.

(** C8.  On an image with pixels (after the optional resize) and a cluster
    count [k] between 1 and the number of pixels, [get_dominant_color]
    hands the pixels to the clustering, which labels each of them with one
    of [k] clusters, and returns the centroid of a cluster that no other
    cluster exceeds in number of pixels. *)
Theorem dominant_color_is_largest_cluster image k size pxs :
  match size with
  | Some sz => ∃ r, cv2_resize_area image sz = inr r ∧ pxs = reshape_pixels r
  | None => pxs = reshape_pixels image
  end →
  0 < k → k <= Z.of_nat (length pxs) →
  ∃ labels centers l c,
    KMeans_fit_predict k pxs = inr (labels, centers) ∧
    length labels = length pxs ∧
    Z.of_nat (length centers) = k ∧
    Forall (λ l, (l < length centers)%nat) labels ∧
    get_dominant_color centroid cv2_resize_area KMeans_fit_predict image k size = inr c ∧
    centers !! l = Some c ∧
    (0 < cluster_size l labels)%nat ∧
    ∀ l', (cluster_size l' labels <= cluster_size l labels)%nat.
Proof.
  intros Hpx Hk Hle.
  destruct (kmeans_ok k pxs Hk Hle) as (labels & centers & Hfit & Hlen & Hcen & Hlab).
  assert (get_dominant_color centroid cv2_resize_area KMeans_fit_predict image k size
          = match most_common_1 (Counter labels) with
            | [] => inl IndexError
            | (l, _) :: _ =>
              match centers !! l with
              | Some c => inr c
              | None => inl IndexError
              end
            end) as ->.
  { unfold get_dominant_color. destruct size as [sz|].
    - destruct Hpx as (r & -> & ->). simpl. by rewrite Hfit.
    - subst pxs. simpl. by rewrite Hfit. }
  destruct labels as [|x labels]; [simpl in Hlen; lia|].
  unfold most_common_1.
  destruct (Counter (x :: labels)) as [|it items] eqn:HC.
  { pose proof (Counter_count (x :: labels) x) as Hc. rewrite HC in Hc.
    unfold cluster_size in Hc. rewrite filter_cons in Hc.
    case_decide; [|done]. simpl in Hc. lia. }
  pose proof (max_by_count_spec items it) as (Hin & Hge & Hall).
  destruct (max_by_count it items) as [l n] eqn:Hmax. simpl in *.
  assert ((l, n) ∈ it :: items) as Hmem.
  { destruct Hin as [<-|?]; [by left|by right]. }
  assert (∀ it', it' ∈ it :: items → (it'.2 <= n)%nat) as Hbound.
  { intros it' [->|?]%elem_of_cons; [done|auto]. }
  pose proof (Counter_NoDup (x :: labels)) as Hnd. rewrite HC in Hnd.
  pose proof (count_of_entry _ l n Hnd Hmem) as Hn.
  rewrite <- HC, Counter_count in Hn.
  assert (∀ l', (cluster_size l' (x :: labels) <= cluster_size l (x :: labels))%nat)
    as Hbest.
  { intros l'. rewrite Hn, <- Counter_count, HC. by apply count_of_bound. }
  assert (0 < cluster_size l (x :: labels))%nat as Hpos.
  { specialize (Hbest x). unfold cluster_size in Hbest at 1.
    rewrite filter_cons in Hbest. case_decide; [|done]. simpl in Hbest. lia. }
  assert (l ∈ x :: labels) as Hl.
  { unfold cluster_size in Hpos.
    destruct (filter (λ y, y = l) (x :: labels)) as [|y ys] eqn:Hf; [simpl in Hpos; lia|].
    assert (y ∈ filter (λ y, y = l) (x :: labels)) as Hy by (rewrite Hf; by left).
    apply list_elem_of_filter in Hy as [-> ?]. done. }
  pose proof (proj1 (Forall_forall _ _) Hlab l Hl) as Hlt. simpl in Hlt.
  destruct (centers !! l) as [c|] eqn:Hc; last first.
  { apply lookup_ge_None in Hc. lia. }
  exists (x :: labels), centers, l, c. by repeat split.
Qed.

End DominantFacts.

Lemma fit_predict_round_robin_spec : kmeans_spec fit_predict_round_robin.
Proof.
  intros k pxs Hk Hle. unfold fit_predict_round_robin.
  destruct (Z.leb_spec k 0); [lia|]. destruct (Z.ltb_spec (Z.of_nat (length pxs)) k); [lia|].
  simpl. do 2 eexists. split; [done|].
  rewrite length_imap, length_take. repeat split; [lia|].
  apply Forall_lookup. intros i l. rewrite list_lookup_imap.
  destruct (pxs !! i); simpl; [|done]. intros [= <-].
  assert (i mod Z.to_nat k < Z.to_nat k)%nat by (apply Nat.mod_upper_bound; lia). lia.
Qed.

Lemma dominant_color_is_largest_cluster_example :
  ∃ labels centers l c,
    fit_predict_round_robin 2 (reshape_pixels (solid 2 2 (7, 8, 9))) = inr (labels, centers) ∧
    length labels = length (reshape_pixels (solid 2 2 (7, 8, 9))) ∧
    Z.of_nat (length centers) = 2 ∧
    Forall (λ l, (l < length centers)%nat) labels ∧
    get_dominant_color pixel resize_nearest fit_predict_round_robin
      (solid 2 2 (7, 8, 9)) 2 None = inr c ∧
    centers !! l = Some c ∧
    (0 < cluster_size l labels)%nat ∧
    ∀ l', (cluster_size l' labels <= cluster_size l labels)%nat.
Proof.
  apply (dominant_color_is_largest_cluster pixel resize_nearest fit_predict_round_robin
           fit_predict_round_robin_spec (solid 2 2 (7, 8, 9)) 2 None
           (reshape_pixels (solid 2 2 (7, 8, 9)))).
  - reflexivity.
  - lia.
  - vm_compute. discriminate.
Defined.

(** ** The date filter *)

Section FilterFacts.

Variable strptime : string → exn + datetime.

Lemma filter_loop_new tracks since_date : ∀ new_tracks,
  dated strptime tracks →
  filter_loop strptime tracks since_date new_tracks
  = inr (new_tracks ++ List.filter (is_new strptime since_date) tracks).
Proof.
  induction tracks as [|it tracks IH]; intros new_tracks Hd; simpl.
  - by rewrite app_nil_r.
  - apply Forall_cons in Hd as [Hit Hd]. unfold is_new, added_time in *.
    destruct (item_track it) as [t|]; [|by apply IH].
    destruct Hit as [d Hit]; [done|].
    destruct (added_at it) as [s|]; [|done].
    destruct (strptime s) as [e|d']; [done|].
    destruct (ltb since_date d'); [|by apply IH].
    rewrite IH by done. by rewrite <- app_assoc.
Qed.

(** Whatever the loop returns has grown only by entries with a track. *)
Lemma filter_loop_tracks tracks since_date : ∀ new_tracks new,
  filter_loop strptime tracks since_date new_tracks = inr new →
  Forall (λ it, item_track it ≠ None) new_tracks →
  Forall (λ it, item_track it ≠ None) new.
Proof.
  induction tracks as [|it tracks IH]; intros new_tracks new; simpl.
  - by intros [= <-].
  - destruct (item_track it) as [t|] eqn:Ht; [|by apply IH].
    destruct (added_at it) as [s|]; [|done].
    destruct (strptime s) as [e|d]; [done|].
    destruct (ltb since_date d); [|by apply IH].
    intros Hrun Hacc. apply (IH _ _ Hrun).
    apply Forall_app. split; [done|]. apply Forall_singleton. by rewrite Ht.
Qed.

(** C3 (amended).  On a playlist whose entries with a track all carry a
    timestamp that parses, [filter_songs_by_date] returns exactly the
    entries that have a track and whose [added_at] is strictly later than
    the cursor, in their original order; when no such entry is later than
    the cursor, the result is empty. *)
Theorem filter_returns_newer_entries_with_track tracks since_date :
  dated strptime tracks →
  filter_songs_by_date strptime tracks since_date
  = inr (List.filter (is_new strptime since_date) tracks) ∧
  (∀ it, it ∈ List.filter (is_new strptime since_date) tracks ↔
         it ∈ tracks ∧ item_track it ≠ None ∧
         ∃ d, added_time strptime it = Some d ∧ ltb since_date d = true) ∧
  ((∀ it d, it ∈ tracks → item_track it ≠ None → added_time strptime it = Some d →
            ltb since_date d = false) →
   filter_songs_by_date strptime tracks since_date = inr []).
Proof.
  intros Hd. unfold filter_songs_by_date.
  rewrite filter_loop_new by done. simpl. split; [done|].
  assert (∀ it, is_new strptime since_date it = true ↔
                item_track it ≠ None ∧
                ∃ d, added_time strptime it = Some d ∧ ltb since_date d = true) as Hnew.
  { intros it. unfold is_new, added_time.
    destruct (item_track it) as [t|]; [|split; [done|by intros [? _]]].
    destruct (added_at it) as [s|]; [|split; [done|by intros (_ & d & ? & _)]].
    destruct (strptime s) as [e|d]; [split; [done|by intros (_ & d & ? & _)]|].
    split; [eauto|]. by intros (_ & d' & [= <-] & ?). }
  split.
  - intros it. rewrite list_elem_of_In, filter_In, <- list_elem_of_In, Hnew. done.
  - intros Hold. f_equal.
    induction tracks as [|it tracks IH]; simpl; [done|].
    apply Forall_cons in Hd as [_ Hd].
    destruct (is_new strptime since_date it) eqn:Hit.
    + apply Hnew in Hit as (Ht & d & Hsome & Hlt).
      rewrite (Hold it d) in Hlt; [done|by left|done|done].
    + apply IH; [done|]. intros it' d Hin. apply Hold. by right.
Qed.

(** C9.  [filter_songs_by_date] never returns an entry whose track is
    null, however recent its timestamp; and on a playlist whose entries
    with a track carry a timestamp that parses, it does return. *)
Theorem filter_skips_null_tracks tracks since_date :
  (∀ new, filter_songs_by_date strptime tracks since_date = inr new →
          Forall (λ it, item_track it ≠ None) new ∧
          ∀ it, item_track it = None → it ∉ new) ∧
  (dated strptime tracks →
   ∃ new, filter_songs_by_date strptime tracks since_date = inr new).
Proof.
  split.
  - intros new Hrun.
    assert (Forall (λ it, item_track it ≠ None) new) as Hall.
    { apply (filter_loop_tracks _ _ _ _ Hrun). constructor. }
    split; [done|]. intros it Hnull Hin.
    by apply (proj1 (Forall_forall _ _) Hall it Hin).
  - intros Hd. eexists. unfold filter_songs_by_date. by rewrite filter_loop_new.
Qed.

End FilterFacts.

(** The playlist of the second end-to-end scenario. *)
Lemma filter_scenario :
  let entry s := Item (Some (Track ("spotify:track:" +:+ s) s ["artist"])) (Some s) in
  filter_songs_by_date strptime_padded
    [entry "2024-01-01T00:00:00Z"; entry "2024-06-01T00:00:00Z";
     entry "2024-12-01T00:00:00Z"]
    (Dt 2024 5 1 0 0 0 0)
  = inr [entry "2024-06-01T00:00:00Z"; entry "2024-12-01T00:00:00Z"].
Proof. vm_compute. reflexivity. Qed.

Lemma filter_returns_newer_entries_with_track_example :
  let entry s := Item (Some (Track ("spotify:track:" +:+ s) s ["artist"])) (Some s) in
  let tracks := [entry "2024-01-01T00:00:00Z"; Item None (Some "2024-06-01T00:00:00Z");
                 entry "2024-12-01T00:00:00Z"] in
  let T := Dt 2024 5 1 0 0 0 0 in
  filter_songs_by_date strptime_padded tracks T
  = inr (List.filter (is_new strptime_padded T) tracks) ∧
  (∀ it, it ∈ List.filter (is_new strptime_padded T) tracks ↔
         it ∈ tracks ∧ item_track it ≠ None ∧
         ∃ d, added_time strptime_padded it = Some d ∧ ltb T d = true) ∧
  ((∀ it d, it ∈ tracks → item_track it ≠ None → added_time strptime_padded it = Some d →
            ltb T d = false) →
   filter_songs_by_date strptime_padded tracks T = inr []).
Proof.
  intros entry tracks T.
  apply (filter_returns_newer_entries_with_track strptime_padded tracks T).
  repeat constructor; intros _; vm_compute; eauto.
Defined.

(** C3 as stated fails on an entry whose track is null: its [added_at] is
    later than the cursor, and it is not returned. *)
Lemma filter_drops_newer_null_track :
  let gone := Item None (Some "2024-06-01T00:00:00Z") in
  let T := Dt 2024 5 1 0 0 0 0 in
  added_time strptime_padded gone = Some (Dt 2024 6 1 0 0 0 0) ∧
  ltb T (Dt 2024 6 1 0 0 0 0) = true ∧
  filter_songs_by_date strptime_padded [gone] T = inr [].
Proof. vm_compute. done. Qed.

Lemma filter_skips_null_tracks_example :
  let entry s := Item (Some (Track ("spotify:track:" +:+ s) s ["artist"])) (Some s) in
  let tracks := [Item None (Some "2024-06-01T00:00:00Z"); entry "2024-12-01T00:00:00Z"] in
  let T := Dt 2024 5 1 0 0 0 0 in
  (∀ new, filter_songs_by_date strptime_padded tracks T = inr new →
          Forall (λ it, item_track it ≠ None) new ∧
          ∀ it, item_track it = None → it ∉ new) ∧
  (dated strptime_padded tracks →
   ∃ new, filter_songs_by_date strptime_padded tracks T = inr new).
Proof.
  intros entry tracks T. apply (filter_skips_null_tracks strptime_padded tracks T).
Defined.

(** ** The batched playlist writer *)

Section BatchFacts.

Lemma chunks_unfold (uris : list string) :
  chunks uris
  = map (λ j, take 100 (drop (j * 100) uris))
        (seq 0 (Z.to_nat ((len uris + 100 - 1) / 100))).
Proof.
  unfold chunks, range_step, slice. rewrite map_map. apply map_ext.
  intros j. f_equal; [lia|]. f_equal. lia.
Qed.

Lemma concat_windows {A} (s : nat) (l : list A) (m : nat) :
  concat (map (λ j, take s (drop (j * s) l)) (seq 0 m)) = take (m * s) l.
Proof.
  induction m as [|m IH]; [simpl; by rewrite take_0|].
  rewrite seq_S, map_app, concat_app, IH. simpl concat. rewrite app_nil_r.
  rewrite take_take_drop. f_equal. lia.
Qed.

Lemma chunks_count (uris : list string) :
  Z.of_nat (length (chunks uris)) = ceil_div (len uris) 100.
Proof.
  rewrite chunks_unfold, length_map, length_seq. unfold ceil_div, len.
  assert (0 <= Z.of_nat (length uris)) as Hn by lia.
  revert Hn. generalize (Z.of_nat (length uris)). intros n Hn.
  rewrite Z2Nat.id by (apply Z.div_pos; lia).
  Z.div_mod_to_equations. nia.
Qed.

Lemma chunks_concat (uris : list string) : concat (chunks uris) = uris.
Proof.
  rewrite chunks_unfold, concat_windows. apply take_ge.
  unfold len.
  assert (0 <= Z.of_nat (length uris)) as Hn by lia.
  assert (Z.of_nat (length uris)
          <= (Z.of_nat (length uris) + 100 - 1) / 100 * 100) as Hle.
  { revert Hn. generalize (Z.of_nat (length uris)). intros n Hn.
    Z.div_mod_to_equations. nia. }
  assert (0 <= (Z.of_nat (length uris) + 100 - 1) / 100) by (apply Z.div_pos; lia).
  nia.
Qed.

Lemma chunks_bounded (uris : list string) :
  Forall (λ b, (length b <= 100)%nat) (chunks uris).
Proof.
  rewrite chunks_unfold. apply Forall_forall. intros b Hb.
  apply list_elem_of_In, in_map_iff in Hb as (j & <- & _).
  rewrite length_take. lia.
Qed.

Lemma chunks_250 (uris : list string) :
  len uris = 250 → map length (chunks uris) = [100; 100; 50]%nat.
Proof.
  intros Hn. rewrite chunks_unfold, Hn. unfold len in Hn.
  change (Z.to_nat ((250 + 100 - 1) / 100)) with 3%nat. simpl.
  rewrite !length_take, !length_drop.
  repeat f_equal; lia.
Qed.

(** A loop whose body sends one request per element, and otherwise leaves
    the network alone, sends exactly those requests when every one of them
    is answered. *)
Lemma for_each_sends {A S} (body : A → S → M S) (mk : A → request) :
  (∀ x s e r rs, pending e = r :: rs →
     ∃ s' e', body x s e = (inr s', e') ∧ pending e' = rs ∧ sent e' = sent e ++ [mk x]) →
  ∀ xs s e, (length xs <= length (pending e))%nat →
    ∃ s' e', for_each xs body s e = (inr s', e') ∧
             pending e' = drop (length xs) (pending e) ∧
             sent e' = sent e ++ map mk xs.
Proof.
  intros Hstep. induction xs as [|x xs IH]; intros s e Hlen; simpl.
  - exists s, e. by rewrite app_nil_r.
  - destruct (pending e) as [|r rs] eqn:Hp; [simpl in Hlen; lia|].
    destruct (Hstep x s e r rs Hp) as (s1 & e1 & Hx & Hp1 & Hs1).
    unfold bind. rewrite Hx.
    destruct (IH s1 e1) as (s' & e' & Hrun & Hp' & Hs').
    { rewrite Hp1. simpl in Hlen. lia. }
    exists s', e'. split; [done|]. split; [by rewrite Hp', Hp1|].
    by rewrite Hs', Hs1, <- app_assoc.
Qed.

(** C4.  A list of [n] URIs is cut into [ceil(n / 100)] batches of at most
    100 URIs each, which concatenate to the list; for [n = 250] the batch
    sizes are 100, 100, 50.  When every request is answered,
    [add_tracks_to_playlist] (in either script) returns and the requests it
    sends are exactly one POST per batch, in order, whatever the status
    codes of the answers. *)
Theorem add_tracks_sends_one_post_per_batch playlist_id track_uris access_token e :
  (length (chunks track_uris) <= length (pending e))%nat →
  Z.of_nat (length (chunks track_uris)) = ceil_div (len track_uris) 100 ∧
  Forall (λ b, (length b <= 100)%nat) (chunks track_uris) ∧
  concat (chunks track_uris) = track_uris ∧
  (len track_uris = 250 → map length (chunks track_uris) = [100; 100; 50]%nat) ∧
  (∃ e', add_tracks_to_playlist playlist_id track_uris access_token e = (inr tt, e') ∧
         sent e' = sent e ++ map (batch_request playlist_id access_token)
                                 (chunks track_uris)) ∧
  (∃ total e',
     add_tracks_to_playlist_oauth playlist_id track_uris access_token e
     = (inr total, e') ∧
     sent e' = sent e ++ map (batch_request playlist_id access_token)
                             (chunks track_uris)).
Proof.
  intros Hlen.
  split; [apply chunks_count|]. split; [apply chunks_bounded|].
  split; [apply chunks_concat|]. split; [apply chunks_250|].
  unfold chunks in Hlen. rewrite length_map in Hlen.
  split.
  - unfold add_tracks_to_playlist.
    edestruct (for_each_sends
      (λ i (_ : unit),
         bind (requests_post (tracks_url playlist_id) (Bearer access_token)
                 (JsonUris (slice track_uris i (i + 100))))
           (λ r, if negb (in_range_200_299 (status_code r))
                 then print (BatchFailed (i / 100 + 1) (status_code r))
                 else ret tt))
      (λ i, batch_request playlist_id access_token (slice track_uris i (i + 100))))
      as (s' & e' & Hrun & _ & Hsent); [|exact Hlen|].
    { intros i s e0 r rs Hp. unfold bind, requests_post, send. rewrite Hp.
      destruct (negb _); simpl; eauto. }
    exists e'. destruct s'. split; [exact Hrun|].
    rewrite Hsent. unfold chunks. by rewrite map_map.
  - unfold add_tracks_to_playlist_oauth.
    edestruct (for_each_sends
      (λ i (total_added : Z),
         bind (requests_post (tracks_url playlist_id) (Bearer access_token)
                 (JsonUris (slice track_uris i (i + 100))))
           (λ r, if in_range_200_299 (status_code r)
                 then bind (print (BatchAdded (i / 100 + 1)
                                     (len (slice track_uris i (i + 100)))))
                        (λ _, ret (total_added + len (slice track_uris i (i + 100))))
                 else bind (print (BatchFailed (i / 100 + 1) (status_code r)))
                        (λ _, ret total_added)))
      (λ i, batch_request playlist_id access_token (slice track_uris i (i + 100))))
      as (s' & e' & Hrun & _ & Hsent); [|exact Hlen|].
    { intros i s e0 r rs Hp. unfold bind, requests_post, send. rewrite Hp.
      destruct (in_range_200_299 _); simpl; eauto. }
    exists s', e'. split; [exact Hrun|].
    rewrite Hsent. unfold chunks. by rewrite map_map.
Qed.

End BatchFacts.

(** Three batches, the second of which is refused. *)
Lemma add_tracks_sends_one_post_per_batch_example :
  let uris := replicate 250 "spotify:track:x" in
  let e := Env [Response 201 "" OtherJson; Response 500 "" OtherJson;
                Response 201 "" OtherJson] [] ∅ [] [] in
  Z.of_nat (length (chunks uris)) = ceil_div (len uris) 100 ∧
  Forall (λ b, (length b <= 100)%nat) (chunks uris) ∧
  concat (chunks uris) = uris ∧
  (len uris = 250 → map length (chunks uris) = [100; 100; 50]%nat) ∧
  (∃ e', add_tracks_to_playlist "target" uris (Some "token") e = (inr tt, e') ∧
         sent e' = sent e ++ map (batch_request "target" (Some "token")) (chunks uris)) ∧
  (∃ total e',
     add_tracks_to_playlist_oauth "target" uris (Some "token") e = (inr total, e') ∧
     sent e' = sent e ++ map (batch_request "target" (Some "token")) (chunks uris)).
Proof.
  intros uris e.
  apply (add_tracks_sends_one_post_per_batch "target" uris (Some "token") e).
  vm_compute. lia.
Defined.

(** In that run 150 tracks are reported as added and the failure of the
    second batch is printed; all three batches were sent. *)
Lemma add_tracks_partial_failure :
  let uris := replicate 250 "spotify:track:x" in
  let e := Env [Response 201 "" OtherJson; Response 500 "" OtherJson;
                Response 201 "" OtherJson] [] ∅ [] [] in
  ∃ e', add_tracks_to_playlist_oauth "target" uris (Some "token") e = (inr 150, e') ∧
        stdout e' = [BatchAdded 1 100; BatchFailed 2 500; BatchAdded 3 50] ∧
        map length (batches (sent e')) = [100; 100; 50]%nat.
Proof. eexists. repeat split; vm_compute; reflexivity. Qed.

(** ** The cursor file: [isoformat] and [fromisoformat] *)

Section IsoFacts.

Lemma str_app_cons c (a b : string) : String c a +:+ b = String c (a +:+ b).
Proof. reflexivity. Qed.

Lemma str_app_nil_l (b : string) : EmptyString +:+ b = b.
Proof. reflexivity. Qed.

Lemma str_app_assoc (a b c : string) : (a +:+ b) +:+ c = a +:+ (b +:+ c).
Proof.
  induction a as [|x a IH]; [done|]. rewrite !str_app_cons. f_equal. apply IH.
Qed.

Lemma str_app_nil_r (a : string) : a +:+ EmptyString = a.
Proof.
  induction a as [|x a IH]; [done|]. rewrite str_app_cons. f_equal. apply IH.
Qed.

Lemma digit_val_digit n : digit_val (digit n) = Some (n mod 10).
Proof.
  pose proof (Z.mod_pos_bound n 10 ltac:(lia)) as Hb. unfold digit.
  assert (n mod 10 = 0 ∨ n mod 10 = 1 ∨ n mod 10 = 2 ∨ n mod 10 = 3 ∨ n mod 10 = 4 ∨
          n mod 10 = 5 ∨ n mod 10 = 6 ∨ n mod 10 = 7 ∨ n mod 10 = 8 ∨ n mod 10 = 9)
    as Hcases by lia.
  destruct Hcases as [->|[->|[->|[->|[->|[->|[->|[->|[->| ->]]]]]]]]]; reflexivity.
Qed.

(** Reading [w1 + w2] digits is reading [w1] and then [w2]. *)
Lemma take_digits_add w1 w2 : ∀ acc s,
  take_digits (w1 + w2) acc s
  = match take_digits w1 acc s with
    | Some (a, s') => take_digits w2 a s'
    | None => None
    end.
Proof.
  induction w1 as [|w1 IH]; intros acc s; simpl; [done|].
  destruct s as [|c s]; [done|]. destruct (digit_val c) as [d|]; simpl; [|done].
  apply IH.
Qed.

(** Reading back a zero-padded number. *)
Lemma take_digits_pad w : ∀ n acc rest,
  take_digits w acc (pad w n +:+ rest)
  = Some (acc * 10 ^ Z.of_nat w + n mod 10 ^ Z.of_nat w, rest).
Proof.
  induction w as [|w IH]; intros n acc rest.
  - simpl. rewrite Z.mod_1_r. do 2 f_equal. lia.
  - change (pad (S w) n) with (pad w (n / 10) +:+ String (digit n) EmptyString).
    replace (take_digits (S w)) with (take_digits (w + 1)) by (f_equal; lia).
    rewrite take_digits_add, str_app_assoc, IH, str_app_cons, str_app_nil_l. simpl.
    rewrite digit_val_digit. simpl. do 2 f_equal.
    rewrite Nat2Z.inj_succ, Z.pow_succ_r by lia.
    rewrite (Z.rem_mul_r n 10 (10 ^ Z.of_nat w)) by lia. lia.
Qed.

Lemma take_digits_pad_small w n acc rest :
  0 <= n < 10 ^ Z.of_nat w →
  take_digits w acc (pad w n +:+ rest) = Some (acc * 10 ^ Z.of_nat w + n, rest).
Proof. intros Hn. by rewrite take_digits_pad, Z.mod_small. Qed.

Lemma days_in_month_bound y m : 28 <= days_in_month y m <= 31.
Proof.
  unfold days_in_month.
  repeat match goal with
         | |- context [match ?x with _ => _ end] => destruct x
         end; lia.
Qed.

Lemma valid_ranges d :
  valid d = true →
  (0 <= year d < 10000 ∧ 0 <= month d < 100 ∧ 0 <= day d < 100) ∧
  (0 <= hour d < 100 ∧ 0 <= minute d < 100 ∧ 0 <= second d < 100) ∧
  0 <= microsecond d < 1000000.
Proof.
  unfold valid. rewrite !andb_true_iff, !Z.leb_le, !Z.ltb_lt.
  pose proof (days_in_month_bound (year d) (month d)). lia.
Qed.

Opaque take_digits pad valid.

Lemma parse_seconds_isoformat d tail :
  valid d = true →
  parse_seconds
    (pad 4 (year d) +:+ "-" +:+ pad 2 (month d) +:+ "-" +:+ pad 2 (day d) +:+ "T" +:+
     pad 2 (hour d) +:+ ":" +:+ pad 2 (minute d) +:+ ":" +:+ pad 2 (second d) +:+ tail)
  = Some (with_microsecond d 0, tail).
Proof.
  intros Hv. apply valid_ranges in Hv as ((Hy&Hm&Hd)&(Hh&Hmi&Hs)&_).
  unfold parse_seconds. rewrite !str_app_cons, !str_app_nil_l.
  rewrite take_digits_pad_small by (simpl; lia). simpl.
  rewrite take_digits_pad_small by (simpl; lia). simpl.
  rewrite take_digits_pad_small by (simpl; lia). simpl.
  rewrite take_digits_pad_small by (simpl; lia). simpl.
  rewrite take_digits_pad_small by (simpl; lia). simpl.
  rewrite take_digits_pad_small by (simpl; lia). simpl.
  done.
Qed.

(** [fromisoformat] undoes [isoformat] on every datetime the constructor
    accepts. *)
Lemma fromisoformat_isoformat d : valid d = true → fromisoformat (isoformat d) = inr d.
Proof.
  intros Hv. unfold fromisoformat, parse_iso, isoformat.
  rewrite parse_seconds_isoformat by done. simpl.
  pose proof (valid_ranges d Hv) as (_&_&Hus).
  destruct d as [y mo dd h mi se us]. simpl in *.
  destruct (Z.eqb_spec us 0) as [->|Hne]; simpl.
  - unfold with_microsecond. simpl. by rewrite Hv.
  - rewrite str_app_nil_l, <- (str_app_nil_r (pad 6 us)).
    rewrite take_digits_pad_small by (simpl; lia).
    rewrite Z.mul_0_l, Z.add_0_l. simpl.
    unfold with_microsecond. simpl. by rewrite Hv.
Qed.

Transparent take_digits pad valid.

(** C5.  After [save_last_run_date] has written the cursor file,
    [load_last_run_date] reads back the very timestamp that was written
    (to the microsecond, which is what the serialization keeps), whatever
    the file system held before and whatever the clock now reads. *)
Theorem cursor_round_trip now e now' :
  valid now = true →
  ∃ e1, save_last_run_date now e = (inr tt, e1) ∧
        files e1 !! LAST_RUN_FILE = Some (LastRunFile (isoformat now)) ∧
        load_last_run_date now' e1 = (inr now, e1).
Proof.
  intros Hv. eexists. split; [reflexivity|]. simpl.
  assert ((<[LAST_RUN_FILE:=LastRunFile (isoformat now)]> (files e)) !! LAST_RUN_FILE
          = Some (LastRunFile (isoformat now))) as Hfile by apply lookup_insert_eq.
  split; [done|].
  unfold load_last_run_date, bind, path_exists, json_load, lift. simpl.
  rewrite Hfile. simpl. rewrite ?Hfile. simpl.
  by rewrite fromisoformat_isoformat.
Qed.

End IsoFacts.

Lemma cursor_round_trip_example :
  ∃ e1, save_last_run_date (Dt 2024 5 1 13 7 9 120) empty_env = (inr tt, e1) ∧
        files e1 !! LAST_RUN_FILE
        = Some (LastRunFile (isoformat (Dt 2024 5 1 13 7 9 120))) ∧
        load_last_run_date (Dt 2030 1 1 0 0 0 0) e1 = (inr (Dt 2024 5 1 13 7 9 120), e1).
Proof.
  apply (cursor_round_trip (Dt 2024 5 1 13 7 9 120) empty_env (Dt 2030 1 1 0 0 0 0)).
  reflexivity.
Defined.

(** The file of that run holds the ISO-8601 text of the timestamp. *)
Lemma cursor_file_content :
  isoformat (Dt 2024 5 1 13 7 9 120) = "2024-05-01T13:07:09.000120" ∧
  isoformat (Dt 2024 12 31 23 59 59 0) = "2024-12-31T23:59:59".
Proof. split; reflexivity. Qed.

(** ** The loop over the playlists *)

Section StrFacts.

Lemma split_go_nonempty sep s : ∀ skip cur, Str.split_go sep skip cur s ≠ [].
Proof.
  induction s as [|c s IH]; intros skip cur; simpl; [done|].
  destruct skip; [|apply IH]. destruct (Str.prefix sep _); [done|apply IH].
Qed.

Lemma split_head sep s : is_Some (Str.split sep s !! 0%nat).
Proof.
  unfold Str.split. pose proof (split_go_nonempty sep s 0 []) as Hne.
  destruct (Str.split_go sep 0 [] s); [done|]. simpl. eauto.
Qed.

Lemma contains_nil sub : Str.contains sub EmptyString = Str.prefix sub EmptyString.
Proof. simpl. by rewrite orb_false_r. Qed.

Lemma prefix_contains sub s : Str.prefix sub s = true → Str.contains sub s = true.
Proof. intros H. destruct s; simpl in *; by rewrite H. Qed.

(** A string that contains [a ++ b] contains [b]. *)
Lemma prefix_app_contains a b : ∀ s,
  Str.prefix (a +:+ b) s = true → Str.contains b s = true.
Proof.
  induction a as [|x a IH]; intros s Hp.
  - by apply prefix_contains.
  - destruct s as [|y s]; [done|]. simpl in Hp.
    destruct (Ascii.eqb x y); [|done].
    simpl. rewrite (IH s Hp). apply orb_true_r.
Qed.

Lemma contains_app a b s :
  Str.contains (a +:+ b) s = true → Str.contains b s = true.
Proof.
  induction s as [|y s IH]; simpl.
  - rewrite orb_false_r. apply prefix_app_contains.
  - intros [Hp|Hc]%orb_true_iff.
    + by apply (prefix_app_contains a b (String y s)).
    + rewrite (IH Hc). apply orb_true_r.
Qed.

(** Splitting on a separator that occurs gives at least two pieces. *)
Lemma split_go_second sep s : ∀ cur,
  Str.contains sep s = true → Str.prefix sep EmptyString = false →
  is_Some (Str.split_go sep 0 cur s !! 1%nat).
Proof.
  induction s as [|c s IH]; intros cur Hc Hne.
  - rewrite contains_nil in Hc. congruence.
  - simpl in *. destruct (Str.prefix sep (String c s)) eqn:Hp.
    + simpl. pose proof (split_go_nonempty sep s (String.length sep - 1) []) as Hn.
      destruct (Str.split_go sep _ [] s); [done|]. simpl. eauto.
    + simpl in Hc. by apply IH.
Qed.

(** [extract_playlist_id] always returns. *)
Lemma extract_playlist_id_total link : ∃ pid, extract_playlist_id link = inr pid.
Proof.
  unfold extract_playlist_id.
  destruct (Str.contains "spotify.com/playlist/" link) eqn:Hc; [|eauto].
  assert (Str.contains "playlist/" link = true) as Hc'.
  { apply (contains_app "spotify.com/" "playlist/"). exact Hc. }
  destruct (split_go_second "playlist/" link [] Hc' eq_refl) as [rest Hrest].
  unfold Str.split at 1. rewrite Hrest.
  destruct (split_head "?" rest) as [pid Hpid]. rewrite Hpid. eauto.
Qed.

End StrFacts.

Section LoopFacts.

Variable strptime : string → exn + datetime.

(** What [strptime] raises is an [Exception] ([ValueError], [TypeError]). *)
Hypothesis strptime_raises : ∀ s x, strptime s = inl x → is_Exception x = true.

Lemma paginate_spec a : ∀ pend next tracks snt r pend' snt',
  paginate a next tracks pend snt = (r, (pend', snt')) →
  match r with inl x => is_Exception x = true | inr _ => True end.
Proof.
  induction pend as [|p pend IH]; intros next tracks snt r pend' snt'; simpl.
  - destruct (truthy next); intros [= <- _ _]; done.
  - destruct (truthy next); [|by intros [= <- _ _]].
    destruct (status_code p =? 200); [|by intros [= <- _ _]].
    destruct (json_body p); try by intros [= <- _ _].
    apply IH.
Qed.

Lemma follow_pages_spec a next tracks e r e' :
  follow_pages a next tracks e = (r, e') →
  stdout e' = stdout e ∧ files e' = files e ∧
  match r with inl x => is_Exception x = true | inr _ => True end.
Proof.
  unfold follow_pages.
  destruct (paginate a next tracks (pending e) (sent e)) as [r0 [p s]] eqn:Hp.
  intros [= <- <-]. simpl. split; [done|]. split; [done|].
  by apply paginate_spec in Hp.
Qed.

Lemma get_playlist_with_dates_spec pid tok e r e' :
  get_playlist_with_dates pid tok e = (r, e') →
  stdout e' = stdout e ∧ files e' = files e ∧
  match r with inl x => is_Exception x = true | inr _ => True end.
Proof.
  unfold get_playlist_with_dates, bind, requests_get, send, raise, ret.
  destruct (pending e) as [|p pend]; [by intros [= <- <-]|].
  destruct (negb (status_code p =? 200)); [by intros [= <- <-]|].
  destruct (json_body p); try by intros [= <- <-].
  match goal with |- context [follow_pages ?a ?n ?t ?e0] =>
    destruct (follow_pages a n t e0) as [r0 e0'] eqn:Hf end.
  apply follow_pages_spec in Hf as (Ho & Hfi & Hr). simpl in Ho, Hfi.
  destruct r0; intros [= <- <-]; done.
Qed.

Lemma filter_loop_raises tracks since : ∀ acc x,
  filter_loop strptime tracks since acc = inl x → is_Exception x = true.
Proof.
  induction tracks as [|it tracks IH]; intros acc x; simpl; [done|].
  destruct (item_track it); [|apply IH].
  destruct (added_at it) as [s|]; [|by intros [= <-]].
  destruct (strptime s) as [e|d] eqn:Hs; [intros [= <-]; by eapply strptime_raises|].
  destruct (ltb since d); apply IH.
Qed.

Lemma comprehension_info_raises new x :
  comprehension get_track_info new = inl x → is_Exception x = true.
Proof.
  induction new as [|it new IH]; [done|].
  change (comprehension get_track_info (it :: new))
    with (y ← get_track_info it; ys ← comprehension get_track_info new; mret (y :: ys)).
  destruct (get_track_info it) as [e|y] eqn:Hg.
  - intros [= <-]. unfold get_track_info in Hg.
    destruct (item_track it); by inversion Hg.
  - destruct (comprehension get_track_info new) as [e|infos]; [|done].
    intros [= ->]. by apply IH.
Qed.

(** The [try] body announces its playlist, then returns or raises an
    [Exception]; it prints nothing else. *)
Lemma process_playlist_spec idx total link token last_run locals e pid :
  extract_playlist_id link = inr pid →
  ∃ r e', process_playlist strptime idx total link token last_run locals e = (r, e') ∧
          stdout e' = stdout e ++ [ProcessingPlaylist idx total pid] ∧
          match r with inl x => is_Exception x = true | inr _ => True end.
Proof.
  intros Hpid. unfold process_playlist. destruct locals as [all_new log_data].
  unfold bind at 1. unfold lift at 1. rewrite Hpid.
  unfold bind at 1. unfold print at 1.
  unfold bind at 1.
  match goal with |- context [get_playlist_with_dates ?p ?t ?e0] =>
    destruct (get_playlist_with_dates p t e0) as [r0 e0'] eqn:Hg end.
  apply get_playlist_with_dates_spec in Hg as (Ho & _ & Hr). simpl in Ho.
  destruct r0 as [x|[tracks pname]]; [by eauto|].
  unfold bind, lift, filter_songs_by_date.
  destruct (filter_loop strptime tracks last_run []) as [x|new] eqn:Hf.
  { apply filter_loop_raises in Hf. by eauto. }
  destruct (comprehension get_track_info new) as [x|infos] eqn:Hc.
  { apply comprehension_info_raises in Hc. by eauto. }
  destruct new; unfold ret; eauto.
Qed.

(** One iteration never raises and announces exactly its playlist. *)
Lemma playlist_step_spec total token last_run idx link locals e :
  ∃ pid locals' e',
    extract_playlist_id link = inr pid ∧
    playlist_step strptime total token last_run (idx, link) locals e
    = (inr locals', e') ∧
    processed (stdout e') = processed (stdout e) ++ [pid].
Proof.
  destruct (extract_playlist_id_total link) as [pid Hpid].
  destruct (process_playlist_spec idx total link token last_run locals e pid Hpid)
    as (r & e1 & Hrun & Hout & Hr).
  exists pid. unfold playlist_step, try_except. rewrite Hrun.
  assert (processed (stdout e1) = processed (stdout e) ++ [pid]) as Hproc.
  { rewrite Hout. unfold processed. by rewrite omap_app. }
  destruct r as [x|locals'].
  - rewrite Hr. unfold bind, print, ret. do 2 eexists. split; [done|].
    split; [done|]. simpl. unfold processed in *. rewrite omap_app. simpl.
    by rewrite app_nil_r.
  - do 2 eexists. done.
Qed.

Lemma for_each_cons {A S} (x : A) xs (body : A → S → M S) s :
  for_each (x :: xs) body s = bind (body x s) (λ s, for_each xs body s).
Proof. reflexivity. Qed.

Lemma for_each_playlists total token last_run entries : ∀ locals e,
  ∃ locals' e' pids,
    for_each entries (playlist_step strptime total token last_run) locals e
    = (inr locals', e') ∧
    Forall2 (λ link pid, extract_playlist_id link = inr pid) entries.*2 pids ∧
    processed (stdout e') = processed (stdout e) ++ pids.
Proof.
  induction entries as [|[idx link] entries IH]; intros locals e.
  - exists locals, e, []. rewrite app_nil_r. by repeat split.
  - destruct (playlist_step_spec total token last_run idx link locals e)
      as (pid & l1 & e1 & Hpid & Hstep & Hout).
    rewrite for_each_cons. unfold bind. rewrite Hstep.
    destruct (IH l1 e1) as (l2 & e2 & pids & Hrun & Hall & Hout2).
    exists l2, e2, (pid :: pids). split; [done|]. split; [by constructor|].
    by rewrite Hout2, Hout, <- app_assoc.
Qed.

Lemma enumerate1_links (links : list string) : (enumerate1 links).*2 = links.
Proof.
  unfold enumerate1.
  assert (∀ k, (imap (λ i x, (Z.of_nat (k + i) + 1, x)) links).*2 = links) as H.
  { induction links as [|l links IH]; intros k; simpl; [done|]. f_equal.
    rewrite <- (IH (S k)) at 2. f_equal. apply imap_ext. intros i x _. simpl.
    do 2 f_equal. lia. }
  apply (H 0%nat).
Qed.

(** C6 (amended).  Once the token is acquired, the loop over the playlists
    never raises and announces every playlist of the list, in order,
    whatever the server answers.  A playlist whose read is not answered
    with 200 costs its request and two lines of output (the announcement
    and the error), leaves the collected tracks and log entries as they
    were, and the loop goes on with the remaining playlists.  A token
    request that is refused (status outside 200..298) is not caught: [main]
    raises before any playlist is processed. *)
Theorem playlist_failure_is_contained links token last_run e :
  (∃ locals e' pids,
     process_playlists strptime links token last_run e = (inr locals, e') ∧
     Forall2 (λ link pid, extract_playlist_id link = inr pid) links pids ∧
     processed (stdout e') = processed (stdout e) ++ pids) ∧
  (∀ idx total link rest locals e0 r pend,
     pending e0 = r :: pend → status_code r ≠ 200 →
     ∃ pid, extract_playlist_id link = inr pid ∧
       for_each ((idx, link) :: rest) (playlist_step strptime total token last_run)
         locals e0
       = for_each rest (playlist_step strptime total token last_run) locals
           (Env pend
              (sent e0 ++ [Request "GET" (playlist_url pid) (Bearer (Some token)) NoBody])
              (files e0) (stdin e0)
              (stdout e0 ++ [ProcessingPlaylist idx total pid;
                             ErrorProcessing link
                               (Exception "Failed to get playlist" (status_code r))]))) ∧
  (∀ now_load now_log now_save r pend,
     pending e = r :: pend → in_range_200_299 (status_code r) = false →
     main strptime links now_load now_log now_save e
     = (inl (Exception "Failed to get access token" (status_code r)),
        Env pend (sent e ++ [token_request]) (files e) (stdin e) (stdout e))).
Proof.
  split; [|split].
  - unfold process_playlists.
    destruct (for_each_playlists (len links) token last_run (enumerate1 links) ([], []) e)
      as (locals & e' & pids & Hrun & Hall & Hout).
    rewrite enumerate1_links in Hall. by exists locals, e', pids.
  - intros idx total link rest locals e0 r pend Hp Hs.
    destruct (extract_playlist_id_total link) as [pid Hpid]. exists pid.
    split; [done|]. rewrite for_each_cons. unfold bind at 1.
    unfold playlist_step, try_except, process_playlist.
    destruct locals as [all_new log_data].
    unfold bind at 1. unfold lift at 1. rewrite Hpid.
    unfold bind at 1. unfold print at 1.
    unfold bind at 1. unfold get_playlist_with_dates, bind at 1.
    unfold requests_get, send. simpl. rewrite Hp.
    destruct (Z.eqb_spec (status_code r) 200) as [|_]; [done|]. simpl.
    unfold bind, print, ret. simpl. by rewrite <- app_assoc.
  - intros now_load now_log now_save r pend Hp Hs.
    unfold main, bind at 1. unfold get_access_token, bind, requests_post, send.
    rewrite Hp, Hs. done.
Qed.

End LoopFacts.

Lemma strptime_padded_raises s x : strptime_padded s = inl x → is_Exception x = true.
Proof.
  unfold strptime_padded.
  destruct (_ ≫= _) as [d|]; [destruct (valid d)|]; by intros [= <-].
Qed.

Lemma playlist_failure_is_contained_example :
  let links := ["https://open.spotify.com/playlist/aaa?si=1"; "bbb"] in
  let token := "token" in
  let last_run := Dt 2024 5 1 0 0 0 0 in
  let e := Env [Response 404 "" OtherJson] [] ∅ [] [] in
  (∃ locals e' pids,
     process_playlists strptime_padded links token last_run e = (inr locals, e') ∧
     Forall2 (λ link pid, extract_playlist_id link = inr pid) links pids ∧
     processed (stdout e') = processed (stdout e) ++ pids) ∧
  (∀ idx total link rest locals e0 r pend,
     pending e0 = r :: pend → status_code r ≠ 200 →
     ∃ pid, extract_playlist_id link = inr pid ∧
       for_each ((idx, link) :: rest) (playlist_step strptime_padded total token last_run)
         locals e0
       = for_each rest (playlist_step strptime_padded total token last_run) locals
           (Env pend
              (sent e0 ++ [Request "GET" (playlist_url pid) (Bearer (Some token)) NoBody])
              (files e0) (stdin e0)
              (stdout e0 ++ [ProcessingPlaylist idx total pid;
                             ErrorProcessing link
                               (Exception "Failed to get playlist" (status_code r))]))) ∧
  (∀ now_load now_log now_save r pend,
     pending e = r :: pend → in_range_200_299 (status_code r) = false →
     main strptime_padded links now_load now_log now_save e
     = (inl (Exception "Failed to get access token" (status_code r)),
        Env pend (sent e ++ [token_request]) (files e) (stdin e) (stdout e))).
Proof.
  intros links token last_run e.
  apply (playlist_failure_is_contained strptime_padded strptime_padded_raises
           links token last_run e).
Defined.

(** A run of [main] over three playlists, the second of which is answered
    with 404: all three are announced, the failure is reported, the tracks of
    the other two are logged and the cursor is saved. *)
Lemma main_run_with_failing_playlist :
  let entry s := Item (Some (Track ("spotify:track:" +:+ s) s ["artist"])) (Some s) in
  let e := Env [Response 200 "" (TokenJson "token" 3600 None);
                Response 200 "" (PlaylistJson "one" [entry "2024-06-01T00:00:00Z"] None);
                Response 404 "" OtherJson;
                Response 200 "" (PlaylistJson "three" [entry "2024-07-01T00:00:00Z"] None)]
               [] {[LAST_RUN_FILE := LastRunFile "2024-05-01T00:00:00"]} [] [] in
  let now := Dt 2024 8 1 0 0 0 0 in
  ∃ e', main strptime_padded ["a"; "b"; "c"] now now now e = (inr tt, e') ∧
        stdout e' = [ProcessingPlaylist 1 3 "a"; ProcessingPlaylist 2 3 "b";
                     ErrorProcessing "b" (Exception "Failed to get playlist" 404);
                     ProcessingPlaylist 3 3 "c"] ∧
        files e' !! LAST_RUN_FILE = Some (LastRunFile "2024-08-01T00:00:00") ∧
        ∃ one three,
          files e' !! SONG_LOG_FILE
          = Some (SongLogFile [LogRun "2024-08-01T00:00:00" [one; three]]) ∧
          playlist_name one = "one" ∧ playlist_name three = "three" ∧
          (start_index one, end_index one) = (0, 1) ∧
          (start_index three, end_index three) = (1, 2).
Proof.
  eexists. split; [vm_compute; reflexivity|]. split; [reflexivity|].
  split; [vm_compute; reflexivity|]. do 2 eexists. split; [vm_compute; reflexivity|].
  repeat split.
Qed.

(** C6 as stated fails for the token: a refused token request is not caught,
    [main] raises, and no playlist of the list is processed. *)
Lemma token_failure_aborts_run :
  let e := Env [Response 401 "" OtherJson;
                Response 200 "" (PlaylistJson "one" [] None);
                Response 200 "" (PlaylistJson "two" [] None)] [] ∅ [] [] in
  let now := Dt 2024 8 1 0 0 0 0 in
  ∃ e', main strptime_padded ["a"; "b"] now now now e
        = (inl (Exception "Failed to get access token" 401), e') ∧
        processed (stdout e') = [] ∧ failed (stdout e') = [] ∧
        sent e' = [token_request] ∧ length (pending e') = 2%nat.
Proof. eexists. repeat split; vm_compute; reflexivity. Qed.

(** ** The token cache *)

Section TokenFacts.

(** A refused refresh reports the status, removes the cache file if it is
    there, and returns [None]. *)
Lemma refresh_refused client_id client_secret refresh_token now e r pend :
  pending e = r :: pend → status_code r ≠ 200 →
  ∃ e1, refresh_access_token client_id client_secret refresh_token now e
        = (inr None, e1) ∧
        files e1 !! TOKEN_CACHE_FILE = None ∧
        (∀ path, path ≠ TOKEN_CACHE_FILE → files e1 !! path = files e !! path) ∧
        pending e1 = pend ∧
        stdout e1 = stdout e ++ [ErrorRefreshing (status_code r)].
Proof.
  intros Hp Hs. unfold refresh_access_token, bind, requests_post, send.
  rewrite Hp. destruct (Z.eqb_spec (status_code r) 200) as [|_]; [done|]. simpl.
  unfold path_exists, os_remove, ret. simpl.
  destruct (files e !! TOKEN_CACHE_FILE) as [f|] eqn:Hf; simpl.
  - eexists. split; [done|]. simpl. split; [apply lookup_delete_eq|].
    split; [|done]. intros path Hne. by apply lookup_delete_ne.
  - eexists. split; [done|]. simpl. by repeat split.
Qed.

(** Without a cache file, [get_user_token] is the interactive
    authorization. *)
Lemma get_user_token_no_cache client_id client_secret redirect_uri now e :
  files e !! TOKEN_CACHE_FILE = None →
  get_user_token client_id client_secret redirect_uri now e
  = authorize client_id client_secret redirect_uri now e.
Proof.
  intros Hf. unfold get_user_token, from_cache, bind, path_exists.
  rewrite Hf. done.
Qed.

(** The authorization announces itself and opens the browser before
    anything else, sends no refresh grant, and returns a token only from a
    200 answer to the exchange of the pasted code. *)
Lemma authorize_spec client_id client_secret redirect_uri now e :
  ∃ res e' out reqs,
    authorize client_id client_secret redirect_uri now e = (res, e') ∧
    stdout e' = stdout e ++
                AuthorizationRequired ::
                BrowserOpened [("client_id", client_id); ("response_type", "code");
                               ("redirect_uri", redirect_uri); ("scope", SCOPE)] :: out ∧
    sent e' = sent e ++ reqs ∧
    Forall (λ q, is_refresh_grant q = false) reqs ∧
    ∀ token, res = inr (Some token) →
      ∃ r pend expires_in refresh_token,
        pending e = r :: pend ∧ status_code r = 200 ∧
        json_body r = TokenJson token expires_in refresh_token.
Proof.
  unfold authorize, bind, print, input, requests_post, send, raise, ret, lift,
    json_dump. simpl.
  destruct (stdin e) as [|redirect_response ls]; simpl.
  { exists (inl EOFError). eexists. exists [], []. rewrite app_nil_r, <- app_assoc.
    by repeat split. }
  destruct (Str.contains "?code=" redirect_response); simpl; last first.
  { exists (inl (SystemExit 1)). eexists. exists [ErrorNoCode], [].
    rewrite app_nil_r, <- !app_assoc. by repeat split. }
  destruct (Str.split "?code=" redirect_response !! 1%nat) as [rest|]; simpl; last first.
  { exists (inl IndexError). eexists. exists [], []. rewrite app_nil_r, <- app_assoc.
    by repeat split. }
  destruct (Str.split "&" rest !! 0%nat) as [code|]; simpl; last first.
  { exists (inl IndexError). eexists. exists [], []. rewrite app_nil_r, <- app_assoc.
    by repeat split. }
  destruct (pending e) as [|r pend] eqn:Hp; simpl.
  { exists (inl ConnectionError). eexists. exists []. eexists.
    split; [done|]. simpl. rewrite <- app_assoc.
    split; [done|]. split; [done|]. split; [by repeat constructor|done]. }
  destruct (Z.eqb_spec (status_code r) 200) as [Hs|Hs]; simpl; last first.
  { exists (inl (SystemExit 1)). eexists. exists [ErrorGettingToken (status_code r)].
    eexists. split; [done|]. simpl. rewrite <- !app_assoc.
    split; [done|]. split; [done|]. split; [by repeat constructor|done]. }
  destruct (json_body r) as [access_token expires_in refresh_token| | |] eqn:Hj; simpl;
    try (exists (inl KeyError); eexists; exists []; eexists;
         split; [done|]; simpl; rewrite <- app_assoc;
         split; [done|]; split; [done|]; split; [by repeat constructor|done]).
  destruct (add_timedelta now 0 expires_in) as [x|expires_at]; simpl.
  { exists (inl x). eexists. exists []. eexists.
    split; [done|]. simpl. rewrite <- app_assoc.
    split; [done|]. split; [done|]. split; [by repeat constructor|done]. }
  exists (inr (Some access_token)). eexists. exists []. eexists.
  split; [done|]. simpl. rewrite <- app_assoc.
  split; [done|]. split; [done|]. split; [by repeat constructor|].
  intros token [= <-]. by exists r, pend, expires_in, refresh_token.
Qed.

(** C7.  When the refresh-token grant is answered with a status other than
    200, [refresh_access_token] removes the token cache file and returns
    [None]; so does [get_user_token] when it took the refresh path (cache
    present, expired, with a refresh token).  The next call of
    [get_user_token], finding no cache file, is the interactive
    authorization: it announces it and opens the browser first, sends no
    refresh grant, and any token it returns comes from a 200 answer to the
    exchange of the authorization code. *)
Theorem refresh_failure_forces_authorization
    client_id client_secret redirect_uri refresh_token now e r pend :
  pending e = r :: pend → status_code r ≠ 200 →
  ∃ e1,
    refresh_access_token client_id client_secret refresh_token now e = (inr None, e1) ∧
    files e1 !! TOKEN_CACHE_FILE = None ∧
    (∀ access_token expires_at_str expires_at limit,
       files e !! TOKEN_CACHE_FILE
       = Some (TokenCacheFile access_token (Some refresh_token) expires_at_str) →
       fromisoformat expires_at_str = inr expires_at →
       add_timedelta expires_at 0 (-300) = inr limit →
       ltb now limit = false →
       get_user_token client_id client_secret redirect_uri now e = (inr None, e1)) ∧
    (∀ now' e2, files e2 !! TOKEN_CACHE_FILE = files e1 !! TOKEN_CACHE_FILE →
       get_user_token client_id client_secret redirect_uri now' e2
       = authorize client_id client_secret redirect_uri now' e2 ∧
       ∃ res e3 out reqs,
         get_user_token client_id client_secret redirect_uri now' e2 = (res, e3) ∧
         stdout e3 = stdout e2 ++
                     AuthorizationRequired ::
                     BrowserOpened [("client_id", client_id); ("response_type", "code");
                                    ("redirect_uri", redirect_uri); ("scope", SCOPE)]
                     :: out ∧
         sent e3 = sent e2 ++ reqs ∧
         Forall (λ q, is_refresh_grant q = false) reqs ∧
         ∀ token, res = inr (Some token) →
           ∃ r' pend' expires_in refresh_token',
             pending e2 = r' :: pend' ∧ status_code r' = 200 ∧
             json_body r' = TokenJson token expires_in refresh_token').
Proof.
  intros Hp Hs.
  destruct (refresh_refused client_id client_secret refresh_token now e r pend Hp Hs)
    as (e1 & Hrefresh & Hgone & _).
  exists e1. split; [done|]. split; [done|]. split.
  - intros access_token expires_at_str expires_at limit Hfile Hexp Hlimit Hlate.
    unfold get_user_token, from_cache, bind at 1.
    unfold bind at 1. unfold path_exists. rewrite Hfile. simpl.
    unfold bind at 1. unfold json_load. rewrite Hfile.
    unfold bind at 1. unfold lift at 1. rewrite Hexp.
    unfold bind at 1. unfold lift at 1. rewrite Hlimit, Hlate.
    unfold bind at 1. rewrite Hrefresh. done.
  - intros now' e2 Hsame. rewrite Hgone in Hsame.
    rewrite (get_user_token_no_cache _ _ _ _ _ Hsame). split; [done|].
    apply authorize_spec.
Qed.

End TokenFacts.

(** An expired cache with a refresh token, and a server that refuses the
    refresh. *)
Lemma refresh_failure_forces_authorization_example :
  let e := Env [Response 400 "invalid_grant" OtherJson] []
               {[TOKEN_CACHE_FILE :=
                   TokenCacheFile "old" (Some (Some "r3fr3sh")) "2024-01-01T00:00:00"]}
               [] [] in
  let now := Dt 2024 6 1 12 0 0 0 in
  ∃ e1,
    refresh_access_token "id" "secret" (Some "r3fr3sh") now e = (inr None, e1) ∧
    files e1 !! TOKEN_CACHE_FILE = None ∧
    (∀ access_token expires_at_str expires_at limit,
       files e !! TOKEN_CACHE_FILE
       = Some (TokenCacheFile access_token (Some (Some "r3fr3sh")) expires_at_str) →
       fromisoformat expires_at_str = inr expires_at →
       add_timedelta expires_at 0 (-300) = inr limit →
       ltb now limit = false →
       get_user_token "id" "secret" "http://localhost:8888/callback" now e
       = (inr None, e1)) ∧
    (∀ now' e2, files e2 !! TOKEN_CACHE_FILE = files e1 !! TOKEN_CACHE_FILE →
       get_user_token "id" "secret" "http://localhost:8888/callback" now' e2
       = authorize "id" "secret" "http://localhost:8888/callback" now' e2 ∧
       ∃ res e3 out reqs,
         get_user_token "id" "secret" "http://localhost:8888/callback" now' e2 = (res, e3) ∧
         stdout e3 = stdout e2 ++
                     AuthorizationRequired ::
                     BrowserOpened [("client_id", "id"); ("response_type", "code");
                                    ("redirect_uri", "http://localhost:8888/callback");
                                    ("scope", SCOPE)]
                     :: out ∧
         sent e3 = sent e2 ++ reqs ∧
         Forall (λ q, is_refresh_grant q = false) reqs ∧
         ∀ token, res = inr (Some token) →
           ∃ r' pend' expires_in refresh_token',
             pending e2 = r' :: pend' ∧ status_code r' = 200 ∧
             json_body r' = TokenJson token expires_in refresh_token').
Proof.
  intros e now.
  apply (refresh_failure_forces_authorization "id" "secret"
           "http://localhost:8888/callback" (Some "r3fr3sh") now e
           (Response 400 "invalid_grant" OtherJson) []).
  - reflexivity.
  - simpl. lia.
Defined.

(** The two calls of that scenario, run: the first returns no token and
    removes the cache; the second asks the user, exchanges the code and
    caches the new token. *)
Lemma refresh_then_authorize_run :
  let e := Env [Response 400 "invalid_grant" OtherJson;
                Response 200 "" (TokenJson "fresh" 3600 (Some "r2"))] []
               {[TOKEN_CACHE_FILE :=
                   TokenCacheFile "old" (Some (Some "r3fr3sh")) "2024-01-01T00:00:00"]}
               ["http://localhost:8888/callback?code=abc&state=x"] [] in
  let now := Dt 2024 6 1 12 0 0 0 in
  ∃ e1 e2,
    get_user_token "id" "secret" "http://localhost:8888/callback" now e = (inr None, e1) ∧
    files e1 !! TOKEN_CACHE_FILE = None ∧
    get_user_token "id" "secret" "http://localhost:8888/callback" now e1
    = (inr (Some "fresh"), e2) ∧
    files e2 !! TOKEN_CACHE_FILE
    = Some (TokenCacheFile "fresh" (Some (Some "r2")) "2024-06-01T13:00:00") ∧
    map is_refresh_grant (sent e2) = [true; false].
Proof.
  do 2 eexists. split; [vm_compute; reflexivity|]. split; [vm_compute; reflexivity|].
  split; [vm_compute; reflexivity|]. split; vm_compute; reflexivity.
Qed.

(** ** More on the grid compositor *)

Section MontageMore.

Variable cv2_resize : ndarray → Z * Z → exn + ndarray.
Variable cv2_putText : ndarray → string → Z * Z → ndarray.
Variable cv2_rectangle : ndarray → Z * Z → Z * Z → ndarray.

Local Abbreviation add_result := (add_result cv2_resize cv2_putText cv2_rectangle).
Local Abbreviation add_results := (add_results cv2_resize cv2_putText cv2_rectangle).

(** X1.  A call of [add_result] that raises has changed neither the canvas
    nor the counter nor the settings; only the cursor may have moved. *)
Theorem failed_call_keeps_canvas self c e s :
  add_result self c = inl (e, s) →
  montage s = montage self ∧ counter s = counter self ∧
  imageW s = imageW self ∧ imageH s = imageH self ∧
  images_per_main_axis s = images_per_main_axis self ∧ by_row s = by_row self.
Proof.
  destruct c as [[image text] highlight]. unfold Montage.add_result.
  destruct (wrap_cursor self) as [x|s1] eqn:Hw; [by intros [= _ <-]|].
  assert (montage s1 = montage self ∧ counter s1 = counter self ∧
          imageW s1 = imageW self ∧ imageH s1 = imageH self ∧
          images_per_main_axis s1 = images_per_main_axis self ∧
          by_row s1 = by_row self) as Hsame.
  { unfold wrap_cursor in Hw.
    destruct (counter self =? 0); [by simplify_eq|].
    destruct (images_per_main_axis self =? 0); [done|].
    destruct (_ mod _ =? 0); [|by simplify_eq].
    destruct (by_row self) eqn:Hb; simplify_eq; by rewrite ?Hb. }
  destruct (cv2_resize image _) as [x|r]; [by intros [= _ <-]|].
  destruct (cell_slice s1) as [[sy ey] [sx ex]].
  destruct (setitem _ _ _ _ _ r) as [x|a]; [by intros [= _ <-]|done].
Qed.

Hypothesis resize_ok : resize_spec cv2_resize.
Hypothesis putText_ok : ∀ t org, keeps_shape (λ m, cv2_putText m t org).
Hypothesis rectangle_ok : ∀ p1 p2, keeps_shape (λ m, cv2_rectangle m p1 p2).

(** X2.  A montage built for [N] results has room for them: the capacity
    is at least [N], and any run of exactly [N] calls returns, with the
    counter at [N]. *)
Theorem montage_holds_all_results W H P N b :
  0 < W → 0 < H → 0 < P → 0 < N →
  ∃ m, init (W, H) P N b = inr m ∧ N <= capacity m ∧
    ∀ cs, len cs = N → Forall ok_call cs →
      ∃ m', add_results m cs = inr m' ∧ counter m' = N.
Proof.
  intros HW HH HP HN.
  destruct (init_fresh W H P N b HW HH HP HN) as (m&Hm&Hfresh&EW&EH&EP&Eb&ER&EC).
  assert (N <= capacity m) as Hcap.
  { unfold capacity. rewrite ER, EC.
    pose proof (ceil_div_bounds N P HP HN) as [HR HRb].
    destruct (Z.le_gt_cases P N) as [Hle|Hgt].
    - rewrite Z.min_l by lia. destruct b; lia.
    - rewrite Z.min_r by lia. rewrite (ceil_div_single N P) by lia. destruct b; lia. }
  exists m. split; [done|]. split; [done|]. intros cs Hlen Hok.
  destruct (add_results_ok cv2_resize cv2_putText cv2_rectangle resize_ok putText_ok
              rectangle_ok m cs m 0 Hfresh (fresh_placed m Hfresh))
    as [m' Hrun]; [lia|lia|done|].
  exists m'. split; [done|].
  pose proof (add_results_placed cv2_resize cv2_putText cv2_rectangle putText_ok
                rectangle_ok m cs m 0 m' Hfresh (fresh_placed m Hfresh)
                ltac:(lia) Hrun) as (_&_&Hcnt&_).
  lia.
Qed.

Lemma px_zeros h w a y x : zeros h w = inr a → px a y x = black.
Proof.
  unfold zeros. destruct (_ || _); [done|]. intros [= <-]. unfold px. simpl.
  destruct (replicate (Z.to_nat h) _ !! y) as [r|] eqn:Hr; [|done].
  apply lookup_replicate in Hr as [-> _]. simpl.
  destruct (replicate (Z.to_nat w) black !! x) as [p|] eqn:Hp; [|done].
  by apply lookup_replicate in Hp as [-> _].
Qed.

(** X3.  On a fresh montage, a run of at most capacity-many calls without
    label and highlight returns, and in the finished canvas the cell of the
    [k]-th image holds that image, resized and cast to the canvas's [uint8]
    (so the resized image itself where its channels are [uint8] values),
    while every pixel outside the cells written is still zero: no call has
    overwritten another one's cell. *)
Theorem montage_shows_every_image W H P N b :
  0 < W → 0 < H → 0 < P → 0 < N →
  ∃ m, init (W, H) P N b = inr m ∧
    ∀ images, len images <= capacity m → Forall ok_image images →
      ∃ m', add_results m (map plain images) = inr m' ∧
        ∀ y x,
          (∀ k image, images !! k = Some image →
             let rc := cell_of b P (Z.of_nat k) in
             in_cell m rc y x →
             ∃ r, cv2_resize image (H, W) = inr r ∧
                  let p := px r (Z.to_nat (Z.of_nat y - rc.1 * W))
                                (Z.to_nat (Z.of_nat x - rc.2 * H)) in
                  px (montage m') y x = as_uint8 p ∧
                  (is_uint8 p → px (montage m') y x = p)) ∧
          ((∀ k, (k < length images)%nat → ¬ in_cell m (cell_of b P (Z.of_nat k)) y x) →
           px (montage m') y x = black).
Proof.
  intros HW HH HP HN.
  destruct (init_fresh W H P N b HW HH HP HN) as (m&Hm&Hfresh&EW&EH&EP&Eb&ER&EC).
  exists m. split; [done|]. intros images Hcap Hok.
  destruct (plain_run_pixels cv2_resize cv2_putText cv2_rectangle resize_ok putText_ok
              rectangle_ok m images m 0 Hfresh (fresh_placed m Hfresh))
    as (m' & Hrun & Hfinal); [lia|lia|done|].
  exists m'. split; [done|]. intros y x. destruct (Hfinal y x) as [Hcells Hrest].
  rewrite EW, EH, EP, Eb in *. split.
  - intros k image Hk rc Hin. specialize (Hcells k image Hk).
    rewrite Z.add_0_l in Hcells. destruct (Hcells Hin) as (r & Hres & Hpx).
    exists r. split; [done|]. split; [done|].
    intros (H1 & H2 & H3). rewrite Hpx. fold rc.
    destruct (px r _ _) as [[c1 c2] c3]. unfold as_uint8. simpl in *.
    by rewrite !uint8_id.
  - intros Hout. rewrite Hrest.
    + unfold init in Hm. simpl in Hm. destruct (P =? 0); [done|].
      destruct (if b then _ else _) as [x0|a] eqn:Ha; [done|]. simpl in Hm.
      injection Hm as <-. simpl. destruct b; by eapply px_zeros.
    + intros k Hk. rewrite Z.add_0_l. by apply Hout.
Qed.

(** X4.  With a positive cell size, [__init__] builds a montage exactly
    when the per-axis count is positive and the result count is not
    negative: a per-axis count of zero raises [ZeroDivisionError], any other
    bad argument makes [np.zeros] raise [ValueError].  Built for zero
    results, the canvas has no pixel and no cell. *)
Theorem init_accepts_positive_counts W H P N b :
  0 < W → 0 < H →
  ((∃ m, init (W, H) P N b = inr m) ↔ 0 < P ∧ 0 <= N) ∧
  (P = 0 → init (W, H) P N b = inl ZeroDivisionError) ∧
  (P ≠ 0 → ¬ (0 < P ∧ 0 <= N) → init (W, H) P N b = inl ValueError) ∧
  (0 < P → N = 0 →
   ∃ m, init (W, H) P N b = inr m ∧ montage m = NdArray 0 0 [] ∧ capacity m = 0).
Proof.
  intros HW HH.
  assert (0 < P → 0 <= N → 0 <= - (- N / P)) as Hceil.
  { intros. Z.div_mod_to_equations. nia. }
  assert (P < 0 → 0 <= N → - (- N / P) <= 0) as Hceil'.
  { intros. Z.div_mod_to_equations. nia. }
  assert (∀ h w, (h < 0 ∨ w < 0) → zeros h w = inl ValueError) as Hneg.
  { intros h w Hhw. unfold zeros.
    destruct (Z.ltb_spec h 0), (Z.ltb_spec w 0); simpl; try done; lia. }
  assert (P ≠ 0 → ¬ (0 < P ∧ 0 <= N) → init (W, H) P N b = inl ValueError) as Hbad.
  { intros HP0 Hnot. unfold init. simpl. destruct (Z.eqb_spec P 0); [done|].
    assert (Z.min P N < 0) as Hmin by lia.
    destruct b; rewrite Hneg; try done; [right|left]; nia. }
  split; [|split; [|split]].
  - split.
    + intros [m Hm]. destruct (Z.eq_dec P 0) as [->|HP0]; [done|].
      destruct (decide (0 < P ∧ 0 <= N)) as [|Hnot]; [done|].
      rewrite (Hbad HP0 Hnot) in Hm. done.
    + intros [HP HN]. unfold init. simpl. destruct (Z.eqb_spec P 0); [lia|].
      specialize (Hceil HP HN).
      destruct b.
      * destruct (zeros_ok (- (- N / P) * W) (Z.min P N * H)) as [a ->]; [nia|nia|].
        simpl. eauto.
      * destruct (zeros_ok (Z.min P N * W) (- (- N / P) * H)) as [a ->]; [nia|nia|].
        simpl. eauto.
  - by intros ->.
  - done.
  - intros HP ->. unfold init. simpl. destruct (Z.eqb_spec P 0); [lia|].
    rewrite Z.min_r by lia. simpl. rewrite Z.div_0_l by lia. simpl.
    destruct b; simpl; eexists; (split; [done|]); split; done.
Qed.

End MontageMore.

Lemma failed_call_keeps_canvas_example :
  let self := Self 2 2 2 true (NdArray 2 2 [[black; black]; [black; black]]) 1 0 1 in
  let c := plain (solid 3 3 (1, 1, 1)) in
  let s := self in
  montage s = montage self ∧ counter s = counter self ∧
  imageW s = imageW self ∧ imageH s = imageH self ∧
  images_per_main_axis s = images_per_main_axis self ∧ by_row s = by_row self.
Proof.
  intros self c s.
  apply (failed_call_keeps_canvas resize_nearest putText_mark rectangle_mark
           self c ValueError s).
  reflexivity.
Defined.

Lemma montage_holds_all_results_example :
  ∃ m, init (640, 640) 20 45 false = inr m ∧ 45 <= capacity m ∧
    ∀ cs, len cs = 45 → Forall ok_call cs →
      ∃ m', add_results resize_nearest putText_mark rectangle_mark m cs = inr m' ∧
            counter m' = 45.
Proof.
  apply (montage_holds_all_results resize_nearest putText_mark rectangle_mark
           resize_nearest_spec putText_mark_spec rectangle_mark_spec 640 640 20 45 false);
    lia.
Defined.

Lemma montage_shows_every_image_example :
  ∃ m, init (2, 2) 2 3 false = inr m ∧
    ∀ images, len images <= capacity m → Forall ok_image images →
      ∃ m', add_results resize_nearest putText_mark rectangle_mark m (map plain images)
            = inr m' ∧
        ∀ y x,
          (∀ k image, images !! k = Some image →
             let rc := cell_of false 2 (Z.of_nat k) in
             in_cell m rc y x →
             ∃ r, resize_nearest image (2, 2) = inr r ∧
                  let p := px r (Z.to_nat (Z.of_nat y - rc.1 * 2))
                                (Z.to_nat (Z.of_nat x - rc.2 * 2)) in
                  px (montage m') y x = as_uint8 p ∧
                  (is_uint8 p → px (montage m') y x = p)) ∧
          ((∀ k, (k < length images)%nat →
              ¬ in_cell m (cell_of false 2 (Z.of_nat k)) y x) →
           px (montage m') y x = black).
Proof.
  apply (montage_shows_every_image resize_nearest putText_mark rectangle_mark
           resize_nearest_spec putText_mark_spec rectangle_mark_spec 2 2 2 3 false); lia.
Defined.

Lemma init_accepts_positive_counts_example :
  ((∃ m, init (2, 3) 4 0 true = inr m) ↔ 0 < 4 ∧ 0 <= 0) ∧
  (4 = 0 → init (2, 3) 4 0 true = inl ZeroDivisionError) ∧
  (4 ≠ 0 → ¬ (0 < 4 ∧ 0 <= 0) → init (2, 3) 4 0 true = inl ValueError) ∧
  (0 < 4 → 0 = 0 →
   ∃ m, init (2, 3) 4 0 true = inr m ∧ montage m = NdArray 0 0 [] ∧ capacity m = 0).
Proof.
  apply (init_accepts_positive_counts 2 3 4 0 true); lia.
Defined.

(** ** Reading a playlist page by page *)

Section PageFacts.

Lemma truthy_idem next : truthy (truthy next) = truthy next.
Proof. by destruct next as [[|c s]|]. Qed.

Lemma truthy_url next u : truthy next = Some u → next = Some u ∧ u ≠ EmptyString.
Proof. destruct next as [[|c s]|]; simpl; [done| |done]. by intros [= <-]. Qed.

(** Pages served with 200 and linked one to the next are read in order;
    the loop then stands at the link after the last of them. *)
Lemma paginate_follows a pages : ∀ resps next final tracks rest snt,
  Forall2 serves resps pages → follows next pages final →
  paginate a next tracks (resps ++ rest) snt
  = paginate a final (tracks ++ concat (map page_items pages)) rest
      (snt ++ map (page_request a) pages).
Proof.
  induction pages as [|p pages IH]; intros resps next final tracks rest snt Hs Hf.
  - apply Forall2_nil_inv_r in Hs as ->. simpl in *. rewrite !app_nil_r.
    subst final. destruct rest; simpl; by rewrite truthy_idem.
  - apply Forall2_cons_inv_r in Hs as (r & resps' & [Hst Hbody] & Hs & ->).
    destruct Hf as [Hnext Hf]. simpl. rewrite Hnext, Hst, Hbody. simpl.
    rewrite (IH resps' (page_next p) final _ rest _ Hs Hf).
    by rewrite <- !app_assoc.
Qed.

(** X5.  When the playlist is answered with 200 and every following page is
    served with 200 until a page has no ['next'] link,
    [get_playlist_with_dates] returns the playlist's name and the entries of
    all pages in order, having sent one GET for the playlist and one for the
    URL of each page, all with the same bearer token, and having consumed
    exactly those answers. *)
Theorem read_collects_all_pages playlist_id access_token e first name items next
    pages resps rest :
  pending e = first :: resps ++ rest →
  status_code first = 200 → json_body first = PlaylistJson name items next →
  Forall2 serves resps pages → follows next pages None →
  get_playlist_with_dates playlist_id access_token e
  = (inr (items ++ concat (map page_items pages), name),
     Env rest
       (sent e ++ Request "GET" (playlist_url playlist_id) (Bearer access_token) NoBody
                  :: map (page_request (Bearer access_token)) pages)
       (files e) (stdin e) (stdout e)).
Proof.
  intros Hp Hst Hbody Hs Hf.
  unfold get_playlist_with_dates, bind, requests_get, send.
  rewrite Hp, Hst, Hbody. simpl. unfold follow_pages. simpl.
  rewrite (paginate_follows _ pages resps next None _ rest _ Hs Hf). simpl.
  destruct rest; simpl; by rewrite <- app_assoc.
Qed.

(** X6.  A first answer other than 200 makes [get_playlist_with_dates]
    raise, after that one request; but a later page answered with a status
    other than 200 only ends the reading: the function returns, without an
    error, the entries of the pages read before it. *)
Theorem failed_page_truncates_read playlist_id access_token e first rest :
  pending e = first :: rest →
  (status_code first ≠ 200 →
   get_playlist_with_dates playlist_id access_token e
   = (inl (Exception "Failed to get playlist" (status_code first)),
      Env rest
        (sent e ++ [Request "GET" (playlist_url playlist_id) (Bearer access_token) NoBody])
        (files e) (stdin e) (stdout e))) ∧
  (∀ name items next pages resps bad u rest',
     status_code first = 200 → json_body first = PlaylistJson name items next →
     rest = resps ++ bad :: rest' →
     Forall2 serves resps pages → follows next pages (Some u) →
     status_code bad ≠ 200 →
     get_playlist_with_dates playlist_id access_token e
     = (inr (items ++ concat (map page_items pages), name),
        Env rest'
          (sent e ++ Request "GET" (playlist_url playlist_id) (Bearer access_token) NoBody
                     :: map (page_request (Bearer access_token)) pages
                     ++ [Request "GET" u (Bearer access_token) NoBody])
          (files e) (stdin e) (stdout e))).
Proof.
  intros Hp. split.
  - intros Hst. unfold get_playlist_with_dates, bind, requests_get, send.
    rewrite Hp. destruct (Z.eqb_spec (status_code first) 200); [done|]. done.
  - intros name items next pages resps bad u rest' Hst Hbody -> Hs Hf Hbad.
    unfold get_playlist_with_dates, bind, requests_get, send.
    rewrite Hp, Hst, Hbody. simpl. unfold follow_pages. simpl.
    rewrite (paginate_follows _ pages resps next (Some u) _ (bad :: rest') _ Hs Hf).
    assert (truthy (Some u) = Some u) as Hu.
    { assert (∃ nx, truthy nx = Some u) as [nx Hnx].
      { clear -Hf. revert next Hf. induction pages as [|p pages IH]; intros next Hf.
        - by exists next.
        - destruct Hf as [_ Hf]. by apply (IH _ Hf). }
      by rewrite <- Hnx, truthy_idem. }
    destruct u as [|c u]; [done|]. simpl.
    destruct (Z.eqb_spec (status_code bad) 200); [done|]. simpl.
    by rewrite <- !app_assoc.
Qed.

Lemma get_playlist_loop_follows a pages : ∀ resps next tracks rest snt,
  Forall2 serves resps pages → follows next pages None →
  (∀ p, p ∈ pages → page_next p ≠ Some EmptyString) → next ≠ Some EmptyString →
  get_playlist_loop a next tracks (resps ++ rest) snt
  = (inr (tracks ++ concat (map page_items pages)),
     (rest, snt ++ map (page_request a) pages)).
Proof.
  induction pages as [|p pages IH]; intros resps next tracks rest snt Hs Hf Hne Hn0.
  - apply Forall2_nil_inv_r in Hs as ->. simpl in *. rewrite !app_nil_r.
    destruct next as [[|c s]|]; try done. by destruct rest.
  - apply Forall2_cons_inv_r in Hs as (r & resps' & [Hst Hbody] & Hs & ->).
    destruct Hf as [Hnext Hf]. apply truthy_url in Hnext as [-> Hu].
    simpl. destruct (page_url p) as [|c s] eqn:Hurl; [done|].
    rewrite Hbody.
    rewrite (IH resps' (page_next p) _ rest _ Hs Hf).
    + unfold page_request at 2. rewrite Hurl. by rewrite <- !app_assoc.
    + intros q Hq. apply Hne. by right.
    + apply Hne. by left.
Qed.

(** X7.  On a read that is answered with 200 throughout and whose links are
    never the empty string, [get_playlist] of [shared/spotify_client.py]
    returns the same entries as [get_playlist_with_dates] and leaves the same
    requests and answers behind.  Unlike it, [get_playlist] does not look at
    the status: an error answer without ['tracks'] makes it raise
    [KeyError]. *)
Theorem get_playlist_agrees_with_dated_read playlist_id access_token e first name
    items next pages resps rest :
  pending e = first :: resps ++ rest →
  json_body first = PlaylistJson name items next →
  Forall2 serves resps pages → follows next pages None →
  (∀ p, p ∈ pages → page_next p ≠ Some EmptyString) → next ≠ Some EmptyString →
  (status_code first = 200 →
   ∃ tracks e',
     get_playlist playlist_id access_token e = (inr tracks, e') ∧
     get_playlist_with_dates playlist_id access_token e = (inr (tracks, name), e')) ∧
  (∀ e0 bad rest0, pending e0 = bad :: rest0 → json_body bad = OtherJson →
     ∃ e1, get_playlist playlist_id access_token e0 = (inl KeyError, e1)).
Proof.
  intros Hp Hbody Hs Hf Hne Hn0. split.
  - intros Hst. do 2 eexists. split.
    + unfold get_playlist, bind, requests_get, send. rewrite Hp, Hbody. simpl.
      rewrite (get_playlist_loop_follows _ pages resps next _ rest _ Hs Hf Hne Hn0).
      reflexivity.
    + unfold get_playlist_with_dates, bind, requests_get, send.
      rewrite Hp, Hst, Hbody. simpl. unfold follow_pages. simpl.
      rewrite (paginate_follows _ pages resps next None _ rest _ Hs Hf). simpl.
      destruct rest; simpl; by rewrite <- !app_assoc.
  - intros e0 bad rest0 Hp0 Hb. eexists.
    unfold get_playlist, bind, requests_get, send. rewrite Hp0, Hb. reflexivity.
Qed.

End PageFacts.

Lemma read_collects_all_pages_example :
  let entry s := Item (Some (Track s s ["artist"])) (Some "2024-06-01T00:00:00Z") in
  let first := Response 200 "" (PlaylistJson "mix" [entry "a"] (Some "https://api/p2")) in
  let second := Response 200 "" (PageJson [entry "b"] None) in
  let e := Env [first; second] [] ∅ [] [] in
  get_playlist_with_dates "mix1" (Some "token") e
  = (inr ([entry "a"] ++ concat (map page_items [("https://api/p2", [entry "b"], None)]),
          "mix"),
     Env []
       (sent e ++ Request "GET" (playlist_url "mix1") (Bearer (Some "token")) NoBody
                  :: map (page_request (Bearer (Some "token")))
                         [("https://api/p2", [entry "b"], None)])
       (files e) (stdin e) (stdout e)).
Proof.
  intros entry first second e.
  apply (read_collects_all_pages "mix1" (Some "token") e first "mix" [entry "a"]
           (Some "https://api/p2") [("https://api/p2", [entry "b"], None)] [second] []).
  - reflexivity.
  - reflexivity.
  - reflexivity.
  - repeat constructor.
  - simpl. done.
Defined.

Lemma failed_page_truncates_read_example :
  let entry s := Item (Some (Track s s ["artist"])) (Some "2024-06-01T00:00:00Z") in
  let first := Response 200 "" (PlaylistJson "mix" [entry "a"] (Some "https://api/p2")) in
  let bad := Response 502 "bad gateway" OtherJson in
  let e := Env [first; bad] [] ∅ [] [] in
  get_playlist_with_dates "mix1" (Some "token") e
  = (inr ([entry "a"] ++ concat (map page_items []), "mix"),
     Env []
       (sent e ++ Request "GET" (playlist_url "mix1") (Bearer (Some "token")) NoBody
                  :: map (page_request (Bearer (Some "token"))) []
                  ++ [Request "GET" "https://api/p2" (Bearer (Some "token")) NoBody])
       (files e) (stdin e) (stdout e)).
Proof.
  intros entry first bad e.
  apply (proj2 (failed_page_truncates_read "mix1" (Some "token") e first [bad] eq_refl)
           "mix" [entry "a"] (Some "https://api/p2") [] [] bad "https://api/p2" []).
  - reflexivity.
  - reflexivity.
  - reflexivity.
  - constructor.
  - reflexivity.
  - simpl. lia.
Defined.

Lemma get_playlist_agrees_with_dated_read_example :
  let entry s := Item (Some (Track s s ["artist"])) (Some "2024-06-01T00:00:00Z") in
  let first := Response 200 "" (PlaylistJson "mix" [entry "a"] (Some "https://api/p2")) in
  let second := Response 200 "" (PageJson [entry "b"] None) in
  let e := Env [first; second] [] ∅ [] [] in
  (status_code first = 200 →
   ∃ tracks e',
     get_playlist "mix1" (Some "token") e = (inr tracks, e') ∧
     get_playlist_with_dates "mix1" (Some "token") e = (inr (tracks, "mix"), e')) ∧
  (∀ e0 bad rest0, pending e0 = bad :: rest0 → json_body bad = OtherJson →
     ∃ e1, get_playlist "mix1" (Some "token") e0 = (inl KeyError, e1)).
Proof.
  intros entry first second e.
  apply (get_playlist_agrees_with_dated_read "mix1" (Some "token") e first "mix"
           [entry "a"] (Some "https://api/p2") [("https://api/p2", [entry "b"], None)]
           [second] []).
  - reflexivity.
  - reflexivity.
  - repeat constructor.
  - simpl. done.
  - intros p Hp. apply list_elem_of_singleton in Hp as ->. done.
  - done.
Defined.

(** ** More on the date filter *)

Section FilterMore.

Variable strptime : string → exn + datetime.

Lemma lex_ltb_trans a : ∀ b c,
  lex_ltb a b = true → lex_ltb b c = true → lex_ltb a c = true.
Proof.
  induction a as [|x a IH]; intros [|y b] [|z c]; simpl; try done.
  intros H1 H2.
  destruct (Z.ltb_spec x y), (Z.eqb_spec x y), (Z.ltb_spec y z), (Z.eqb_spec y z),
    (Z.ltb_spec x z), (Z.eqb_spec x z); simpl in *; try lia; try done.
  by apply (IH b c).
Qed.

(** The order of datetimes is transitive. *)
Lemma ltb_trans a b c : ltb a b = true → ltb b c = true → ltb a c = true.
Proof. apply lex_ltb_trans. Qed.

Lemma filter_sublist {A} (f g : A → bool) (l : list A) :
  (∀ x, g x = true → f x = true) → sublist (List.filter g l) (List.filter f l).
Proof.
  intros Himp. induction l as [|x l IH]; simpl; [constructor|].
  destruct (g x) eqn:Hg.
  - rewrite (Himp x Hg). by constructor.
  - destruct (f x); [by constructor|done].
Qed.

Lemma filter_idem {A} (f : A → bool) (l : list A) :
  List.filter f (List.filter f l) = List.filter f l.
Proof.
  induction l as [|x l IH]; simpl; [done|].
  destruct (f x) eqn:Hf; simpl; [|done]. by rewrite Hf, IH.
Qed.

Lemma dated_filter f tracks : dated strptime tracks → dated strptime (List.filter f tracks).
Proof.
  unfold dated. rewrite !Forall_forall. intros Hd it Hit. apply Hd.
  apply list_elem_of_In in Hit. apply filter_In in Hit as [Hit _].
  by apply list_elem_of_In.
Qed.

(** X8.  Moving the cursor forward never brings back an entry: for cursors
    [T] before [T'], what the filter returns for [T'] is a sublist (same
    entries, same order, some left out) of what it returns for [T]. *)
Theorem filter_shrinks_as_cursor_advances tracks T T' :
  dated strptime tracks → ltb T T' = true →
  ∃ new new',
    filter_songs_by_date strptime tracks T = inr new ∧
    filter_songs_by_date strptime tracks T' = inr new' ∧
    sublist new' new.
Proof.
  intros Hd Hlt. do 2 eexists.
  unfold filter_songs_by_date. rewrite !filter_loop_new by done. simpl.
  split; [done|]. split; [done|]. apply filter_sublist.
  intros it. unfold is_new.
  destruct (item_track it); [|done]. destruct (added_at it) as [s|]; [|done].
  destruct (strptime s) as [x|d]; [done|]. by apply ltb_trans.
Qed.

(** X9.  Filtering distributes over the concatenation of pages, and
    filtering the result again with the same cursor changes nothing. *)
Theorem filter_composes a b T :
  dated strptime a → dated strptime b →
  ∃ fa fb,
    filter_songs_by_date strptime a T = inr fa ∧
    filter_songs_by_date strptime b T = inr fb ∧
    filter_songs_by_date strptime (a ++ b) T = inr (fa ++ fb) ∧
    filter_songs_by_date strptime (fa ++ fb) T = inr (fa ++ fb).
Proof.
  intros Ha Hb.
  exists (List.filter (is_new strptime T) a), (List.filter (is_new strptime T) b).
  unfold filter_songs_by_date.
  assert (dated strptime (a ++ b)) as Hab by (by apply Forall_app).
  rewrite <- List.filter_app.
  rewrite (filter_loop_new strptime a), (filter_loop_new strptime b),
    (filter_loop_new strptime (a ++ b)) by done.
  rewrite filter_loop_new by (by apply dated_filter). simpl.
  by rewrite filter_idem.
Qed.

Lemma comprehension_tracks new :
  Forall (λ it, item_track it ≠ None) new →
  ∃ uris infos,
    comprehension get_track_uri new = inr uris ∧
    comprehension get_track_info new = inr infos ∧
    map info_uri infos = uris ∧ length infos = length new ∧
    map info_added_at infos = map added_at new.
Proof.
  induction new as [|it new IH]; intros Hall.
  - exists [], []. by repeat split.
  - apply Forall_cons in Hall as [Hit Hall].
    destruct (IH Hall) as (uris & infos & Hu & Hi & Hmap & Hlen & Hadd).
    destruct (item_track it) as [t|] eqn:Ht; [|done].
    exists (uri t :: uris),
      (TrackInfo (uri t) (name t)
         (match artists t with a :: _ => a | [] => "Unknown" end) (added_at it) :: infos).
    change (comprehension get_track_uri (it :: new))
      with (y ← get_track_uri it; ys ← comprehension get_track_uri new; mret (y :: ys)).
    change (comprehension get_track_info (it :: new))
      with (y ← get_track_info it; ys ← comprehension get_track_info new; mret (y :: ys)).
    assert (get_track_uri it = inr (uri t)) as ->
      by (unfold get_track_uri; by rewrite Ht).
    assert (get_track_info it
            = inr (TrackInfo (uri t) (name t)
                     (match artists t with a :: _ => a | [] => "Unknown" end)
                     (added_at it))) as ->
      by (unfold get_track_info; by rewrite Ht).
    rewrite Hu, Hi. simpl. repeat split; congruence.
Qed.

(** X10.  On what the filter returns, [get_track_uri] and [get_track_info]
    never raise: every entry yields its URI and its info record, in order,
    the info carrying the same URI and the entry's [added_at]. *)
Theorem new_tracks_have_uris_and_infos tracks T new :
  filter_songs_by_date strptime tracks T = inr new →
  ∃ uris infos,
    comprehension get_track_uri new = inr uris ∧
    comprehension get_track_info new = inr infos ∧
    map info_uri infos = uris ∧ length infos = length new ∧
    map info_added_at infos = map added_at new.
Proof.
  intros Hrun. apply comprehension_tracks.
  apply (filter_loop_tracks strptime tracks T [] new Hrun). constructor.
Qed.

End FilterMore.

Lemma filter_shrinks_as_cursor_advances_example :
  let entry s := Item (Some (Track ("spotify:track:" +:+ s) s ["artist"])) (Some s) in
  let tracks := [entry "2024-01-01T00:00:00Z"; entry "2024-06-01T00:00:00Z";
                 Item None None; entry "2024-12-01T00:00:00Z"] in
  ∃ new new',
    filter_songs_by_date strptime_padded tracks (Dt 2024 5 1 0 0 0 0) = inr new ∧
    filter_songs_by_date strptime_padded tracks (Dt 2024 7 1 0 0 0 0) = inr new' ∧
    sublist new' new.
Proof.
  intros entry tracks.
  apply (filter_shrinks_as_cursor_advances strptime_padded tracks
           (Dt 2024 5 1 0 0 0 0) (Dt 2024 7 1 0 0 0 0)).
  - repeat constructor; intros H; first [by destruct H | vm_compute; eauto].
  - reflexivity.
Defined.

Lemma filter_composes_example :
  let entry s := Item (Some (Track ("spotify:track:" +:+ s) s ["artist"])) (Some s) in
  let a := [entry "2024-01-01T00:00:00Z"; entry "2024-06-01T00:00:00Z"] in
  let b := [Item None None; entry "2024-12-01T00:00:00Z"] in
  let T := Dt 2024 5 1 0 0 0 0 in
  ∃ fa fb,
    filter_songs_by_date strptime_padded a T = inr fa ∧
    filter_songs_by_date strptime_padded b T = inr fb ∧
    filter_songs_by_date strptime_padded (a ++ b) T = inr (fa ++ fb) ∧
    filter_songs_by_date strptime_padded (fa ++ fb) T = inr (fa ++ fb).
Proof.
  intros entry a b T. apply (filter_composes strptime_padded a b T).
  - repeat constructor; intros H; first [by destruct H | vm_compute; eauto].
  - repeat constructor; intros H; first [by destruct H | vm_compute; eauto].
Defined.

Lemma new_tracks_have_uris_and_infos_example :
  let entry s := Item (Some (Track ("spotify:track:" +:+ s) s [])) (Some s) in
  let tracks := [entry "2024-06-01T00:00:00Z"; Item None None] in
  let new := [entry "2024-06-01T00:00:00Z"] in
  ∃ uris infos,
    comprehension get_track_uri new = inr uris ∧
    comprehension get_track_info new = inr infos ∧
    map info_uri infos = uris ∧ length infos = length new ∧
    map info_added_at infos = map added_at new.
Proof.
  intros entry tracks new.
  apply (new_tracks_have_uris_and_infos strptime_padded tracks (Dt 2024 5 1 0 0 0 0) new).
  vm_compute. reflexivity.
Defined.

(** ** What the OAuth writer reports *)

Section BatchMore.

Lemma sum_batch_added_bounds (bs : list (list string)) : ∀ resps,
  0 <= sum_Z (zip_with batch_added bs resps) <= len (concat bs).
Proof.
  induction bs as [|b bs IH]; intros [|r resps]; simpl;
    try (unfold len; simpl; lia).
  specialize (IH resps). unfold batch_added, len in *. rewrite length_app.
  destruct (in_range_200_299 _); lia.
Qed.

Lemma sum_batch_added_all (bs : list (list string)) : ∀ resps,
  length resps = length bs →
  Forall (λ r, in_range_200_299 (status_code r) = true) resps →
  sum_Z (zip_with batch_added bs resps) = len (concat bs).
Proof.
  induction bs as [|b bs IH]; intros [|r resps] Hlen Hok; simpl in *; try done.
  apply Forall_cons in Hok as [Hr Hok].
  rewrite (IH resps) by (done || lia). unfold batch_added, len.
  rewrite Hr, length_app. lia.
Qed.

Lemma result_env_eq {A} (a a' : A) p s s' f i o o' :
  a = a' → s = s' → o = o' →
  (inr a : exn + A, Env p s f i o) = (inr a', Env p s' f i o').
Proof. by intros -> -> ->. Qed.

(** The loop of the OAuth writer from batch number [k + 1] on. *)
Lemma oauth_loop_from playlist_id (track_uris : list string) access_token m :
  ∀ k resps rest total e,
  length resps = m → pending e = resps ++ rest →
  let idxs := map (λ j, Z.of_nat j * 100) (seq k m) in
  let bs := map (λ i, slice track_uris i (i + 100)) idxs in
  for_each idxs
    (λ i total_added,
       bind (requests_post (tracks_url playlist_id) (Bearer access_token)
               (JsonUris (slice track_uris i (i + 100))))
         (λ r, if in_range_200_299 (status_code r)
               then bind (print (BatchAdded (i / 100 + 1)
                                   (len (slice track_uris i (i + 100)))))
                      (λ _, ret (total_added + len (slice track_uris i (i + 100))))
               else bind (print (BatchFailed (i / 100 + 1) (status_code r)))
                      (λ _, ret total_added)))
    total e
  = (inr (total + sum_Z (zip_with batch_added bs resps)),
     Env rest (sent e ++ map (batch_request playlist_id access_token) bs)
       (files e) (stdin e)
       (stdout e ++ imap (λ j br, batch_line (k + j) br.1 br.2) (zip bs resps))).
Proof.
  induction m as [|m IH]; intros k resps rest total e Hlen Hp idxs bs.
  - destruct resps; [|done]. simpl in *. rewrite !app_nil_r, Z.add_0_r, <- Hp.
    by destruct e.
  - destruct resps as [|r resps]; [done|]. simpl in Hlen, Hp.
    subst idxs bs. cbn [seq map]. rewrite for_each_cons.
    unfold bind at 1. unfold bind at 1. unfold requests_post, send. rewrite Hp.
    assert (Z.of_nat k * 100 / 100 + 1 = Z.of_nat k + 1) as Hnum
      by (rewrite Z.div_mul; lia).
    set (b := slice track_uris (Z.of_nat k * 100) (Z.of_nat k * 100 + 100)).
    destruct (in_range_200_299 (status_code r)) eqn:Hok.
    + unfold bind, print, ret. cbn [pending sent files stdin stdout].
      rewrite (IH (S k) resps rest) by (simpl; (lia || done)).
      cbn [pending sent files stdin stdout zip_with zip sum_Z imap].
      unfold batch_added at 2. unfold batch_line at 2. simpl fst. simpl snd.
      fold b. rewrite Hok, Hnum, Nat.add_0_r.
      apply result_env_eq; [lia|by rewrite <- app_assoc|].
      rewrite <- app_assoc. simpl. do 2 f_equal.
      apply imap_ext. intros j br _. simpl. f_equal. lia.
    + unfold bind, print, ret. cbn [pending sent files stdin stdout].
      rewrite (IH (S k) resps rest) by (simpl; (lia || done)).
      cbn [pending sent files stdin stdout zip_with zip sum_Z imap].
      unfold batch_added at 2. unfold batch_line at 2. simpl fst. simpl snd.
      fold b. rewrite Hok, Hnum, Nat.add_0_r.
      apply result_env_eq; [lia|by rewrite <- app_assoc|].
      rewrite <- app_assoc. simpl. do 2 f_equal.
      apply imap_ext. intros j br _. simpl. f_equal. lia.
Qed.

(** X11.  When each batch is answered, [add_tracks_to_playlist] of the OAuth
    script returns the number of URIs in the batches answered with a status
    in 200..298, and prints one line per batch, in order, saying whether it
    was added or failed.  The number is between 0 and the number of URIs, and
    equals it when every batch is accepted. *)
Theorem oauth_add_counts_accepted_batches playlist_id track_uris access_token e
    resps rest :
  pending e = resps ++ rest → length resps = length (chunks track_uris) →
  let total := sum_Z (zip_with batch_added (chunks track_uris) resps) in
  add_tracks_to_playlist_oauth playlist_id track_uris access_token e
  = (inr total,
     Env rest
       (sent e ++ map (batch_request playlist_id access_token) (chunks track_uris))
       (files e) (stdin e)
       (stdout e ++ imap (λ k br, batch_line k br.1 br.2)
                         (zip (chunks track_uris) resps))) ∧
  0 <= total <= len track_uris ∧
  (Forall (λ r, in_range_200_299 (status_code r) = true) resps →
   total = len track_uris).
Proof.
  intros Hp Hlen total. split; [|split].
  - unfold add_tracks_to_playlist_oauth.
    unfold chunks, range_step in *. rewrite length_map, length_map, length_seq in Hlen.
    rewrite (oauth_loop_from playlist_id track_uris access_token _ 0 resps rest 0 e Hlen Hp).
    by rewrite Z.add_0_l.
  - unfold total. rewrite <- (chunks_concat track_uris) at 3.
    apply sum_batch_added_bounds.
  - intros Hok. unfold total. rewrite <- (chunks_concat track_uris) at 2.
    by apply sum_batch_added_all.
Qed.

End BatchMore.

Lemma oauth_add_counts_accepted_batches_example :
  let uris := replicate 250 "spotify:track:x" in
  let resps := [Response 201 "" OtherJson; Response 500 "" OtherJson;
                Response 201 "" OtherJson] in
  let e := Env resps [] ∅ [] [] in
  let total := sum_Z (zip_with batch_added (chunks uris) resps) in
  add_tracks_to_playlist_oauth "target" uris (Some "token") e
  = (inr total,
     Env []
       (sent e ++ map (batch_request "target" (Some "token")) (chunks uris))
       (files e) (stdin e)
       (stdout e ++ imap (λ k br, batch_line k br.1 br.2) (zip (chunks uris) resps))) ∧
  0 <= total <= len uris ∧
  (Forall (λ r, in_range_200_299 (status_code r) = true) resps → total = len uris).
Proof.
  intros uris resps e.
  apply (oauth_add_counts_accepted_batches "target" uris (Some "token") e resps []).
  - reflexivity.
  - vm_compute. reflexivity.
Defined.

(** ** The song log and the run as a whole *)

Section LogFacts.

(** X12.  [save_song_log] only ever appends: with no log file it writes a
    log of one run; with a log of earlier runs it writes those runs followed
    by the new one; every other file, the network and the output are left
    alone.  When the file holds a JSON object instead of a list (the content
    of the cursor file or of the token cache, say) it raises and writes
    nothing. *)
Theorem song_log_is_append_only log_data now e :
  let entry := LogRun (isoformat now) log_data in
  let written runs :=
    Env (pending e) (sent e) (<[SONG_LOG_FILE := SongLogFile (runs ++ [entry])]> (files e))
        (stdin e) (stdout e) in
  (files e !! SONG_LOG_FILE = None →
   save_song_log log_data now e = (inr tt, written [])) ∧
  (∀ runs, files e !! SONG_LOG_FILE = Some (SongLogFile runs) →
     save_song_log log_data now e = (inr tt, written runs) ∧
     ∀ log_data' now',
       ∃ e'', save_song_log log_data' now' (written runs) = (inr tt, e'') ∧
              files e'' !! SONG_LOG_FILE
              = Some (SongLogFile (runs ++ [entry; LogRun (isoformat now') log_data']))) ∧
  (∀ f, files e !! SONG_LOG_FILE = Some f →
     (∃ last_run, f = LastRunFile last_run) ∨
     (∃ access_token refresh_token expires_at,
        f = TokenCacheFile access_token refresh_token expires_at) →
     ∃ x, save_song_log log_data now e = (inl x, e)) ∧
  (∀ r e' path, save_song_log log_data now e = (r, e') → path ≠ SONG_LOG_FILE →
     files e' !! path = files e !! path).
Proof.
  intros entry written.
  assert (∀ e0 runs, files e0 !! SONG_LOG_FILE = Some (SongLogFile runs) →
            ∀ ld t, save_song_log ld t e0
            = (inr tt, Env (pending e0) (sent e0)
                 (<[SONG_LOG_FILE := SongLogFile (runs ++ [LogRun (isoformat t) ld])]>
                    (files e0)) (stdin e0) (stdout e0))) as Hsome.
  { intros e0 runs Hf ld t.
    unfold save_song_log, bind, path_exists, json_load, json_dump, ret.
    rewrite Hf. simpl. rewrite Hf. done. }
  split; [|split; [|split]].
  - intros Hf. unfold save_song_log, bind, path_exists, json_dump, ret.
    rewrite Hf. done.
  - intros runs Hf. split; [by apply Hsome|]. intros ld t. eexists.
    rewrite (Hsome (written runs) (runs ++ [entry])) by apply lookup_insert_eq.
    split; [done|]. simpl. rewrite lookup_insert_eq. by rewrite <- app_assoc.
  - intros f Hf Hobj.
    unfold save_song_log, bind, path_exists, json_load, raise.
    rewrite Hf. simpl. rewrite Hf.
    destruct Hobj as [[s ->]|(a & r & x & ->)]; by eexists.
  - intros r e' path Hrun Hne. revert Hrun.
    unfold save_song_log, bind, path_exists, json_load, json_dump, raise, ret.
    destruct (files e !! SONG_LOG_FILE) as [f|] eqn:Hf; simpl.
    + rewrite Hf. destruct f; intros [= <- <-]; simpl; try done.
      by rewrite lookup_insert_ne.
    + intros [= <- <-]. simpl. by rewrite lookup_insert_ne.
Qed.

End LogFacts.

Lemma song_log_is_append_only_example :
  let first := LogRun "2024-07-01T00:00:00" [] in
  let entry := LogEntry "aaa" "Mix" 0 1 1
                 [TrackInfo "spotify:track:1" "Song" "Artist" (Some "2024-07-30T10:00:00Z")] in
  let e := Env [] [] {[SONG_LOG_FILE := SongLogFile [first]]} [] [] in
  ∃ e', save_song_log [entry] (Dt 2024 8 1 0 0 0 0) e = (inr tt, e') ∧
        files e' !! SONG_LOG_FILE
        = Some (SongLogFile [first; LogRun "2024-08-01T00:00:00" [entry]]).
Proof.
  intros first entry e.
  destruct (song_log_is_append_only [entry] (Dt 2024 8 1 0 0 0 0) e)
    as (_ & Hsome & _).
  destruct (Hsome [first] eq_refl) as [Hrun _].
  eexists. split; [exact Hrun|]. reflexivity.
Defined.

Section RunFacts.

Variable strptime : string → exn + datetime.

Lemma reads_only_ret {A} (a : A) : reads_only (ret a).
Proof.
  intros e r e' [= <- <-]. do 2 (split; [done|]). exists []. by rewrite app_nil_r.
Qed.

Lemma reads_only_lift {A} (x : exn + A) : reads_only (lift x).
Proof.
  intros e r e' [= <- <-]. do 2 (split; [done|]). exists []. by rewrite app_nil_r.
Qed.

Lemma reads_only_raise {A} x : reads_only (raise x : M A).
Proof.
  intros e r e' [= <- <-]. do 2 (split; [done|]). exists []. by rewrite app_nil_r.
Qed.

Lemma reads_only_print l : reads_only (print l).
Proof.
  intros e r e' [= <- <-]. do 2 (split; [done|]). exists []. by rewrite app_nil_r.
Qed.

Lemma reads_only_bind {A B} (m : M A) (k : A → M B) :
  reads_only m → (∀ a, reads_only (k a)) → reads_only (bind m k).
Proof.
  intros Hm Hk e r e'. unfold bind.
  destruct (m e) as [[x|a] e1] eqn:Hme.
  - intros [= <- <-]. by apply (Hm e (inl x)).
  - intros Hke. destruct (Hm e _ _ Hme) as (Hf1 & Hi1 & reqs1 & Hs1 & Hr1).
    destruct (Hk a e1 _ _ Hke) as (Hf2 & Hi2 & reqs2 & Hs2 & Hr2).
    split; [congruence|]. split; [congruence|].
    exists (reqs1 ++ reqs2). split; [by rewrite Hs2, Hs1, <- app_assoc|].
    by apply Forall_app.
Qed.

Lemma reads_only_try {A} (body : M A) (handler : exn → M A) :
  reads_only body → (∀ x, reads_only (handler x)) → reads_only (try_except body handler).
Proof.
  intros Hb Hh e r e'. unfold try_except.
  destruct (body e) as [[x|a] e1] eqn:Hbe.
  - destruct (is_Exception x).
    + intros Hhe. destruct (Hb e _ _ Hbe) as (Hf1 & Hi1 & reqs1 & Hs1 & Hr1).
      destruct (Hh x e1 _ _ Hhe) as (Hf2 & Hi2 & reqs2 & Hs2 & Hr2).
      split; [congruence|]. split; [congruence|].
      exists (reqs1 ++ reqs2). split; [by rewrite Hs2, Hs1, <- app_assoc|].
      by apply Forall_app.
    + intros [= <- <-]. by apply (Hb e (inl x)).
  - intros [= <- <-]. by apply (Hb e (inr a)).
Qed.

Lemma reads_only_for_each {A S} (xs : list A) (body : A → S → M S) :
  (∀ x s, reads_only (body x s)) → ∀ s, reads_only (for_each xs body s).
Proof.
  intros Hbody. induction xs as [|x xs IH]; intros s.
  - apply reads_only_ret.
  - rewrite for_each_cons. apply reads_only_bind; [apply Hbody|apply IH].
Qed.

Lemma paginate_reads a : ∀ pend next tracks snt r pend' snt',
  paginate a next tracks pend snt = (r, (pend', snt')) →
  ∃ reqs, snt' = snt ++ reqs ∧ Forall is_read reqs.
Proof.
  assert (∀ u, is_read (Request "GET" u a NoBody)) as Hread by done.
  induction pend as [|p pend IH]; intros next tracks snt r pend' snt'; simpl.
  - destruct (truthy next) as [u|]; intros [= <- <- <-].
    + exists [Request "GET" u a NoBody]. split; [done|]. by constructor.
    + exists []. by rewrite app_nil_r.
  - destruct (truthy next) as [u|]; last first.
    { intros [= <- <- <-]. exists []. by rewrite app_nil_r. }
    destruct (status_code p =? 200); last first.
    { intros [= <- <- <-]. exists [Request "GET" u a NoBody]. split; [done|].
      by constructor. }
    destruct (json_body p) eqn:Hj;
      try (intros [= <- <- <-]; exists [Request "GET" u a NoBody]; split; [done|];
           by constructor).
    intros Hrun. apply IH in Hrun as (reqs & -> & Hreqs).
    exists (Request "GET" u a NoBody :: reqs). split; [by rewrite <- app_assoc|].
    by constructor.
Qed.

Lemma get_playlist_with_dates_reads pid tok :
  reads_only (get_playlist_with_dates pid tok).
Proof.
  assert (∀ u, is_read (Request "GET" u (Bearer tok) NoBody)) as Hread by done.
  intros e r e'.
  unfold get_playlist_with_dates, bind, requests_get, send, raise, ret.
  destruct (pending e) as [|p pend].
  { intros [= <- <-]. do 2 (split; [done|]). eexists. split; [done|]. by constructor. }
  destruct (negb (status_code p =? 200)).
  { intros [= <- <-]. do 2 (split; [done|]). eexists. split; [done|]. by constructor. }
  destruct (json_body p);
    try (intros [= <- <-]; do 2 (split; [done|]); eexists; split; [done|];
         by constructor).
  unfold follow_pages. simpl.
  match goal with |- context [paginate ?a ?n ?t ?pe ?sn] =>
    destruct (paginate a n t pe sn) as [r0 [p0 s0]] eqn:Hp end.
  apply paginate_reads in Hp as (reqs & -> & Hreqs).
  destruct r0; intros [= <- <-]; simpl; do 2 (split; [done|]);
    eexists; (split; [by rewrite <- app_assoc|]); by constructor.
Qed.

Lemma playlist_step_reads total token last_run entry locals :
  reads_only (playlist_step strptime total token last_run entry locals).
Proof.
  destruct entry as [idx link]. unfold playlist_step.
  apply reads_only_try.
  - unfold process_playlist. destruct locals as [all_new log_data].
    apply reads_only_bind; [apply reads_only_lift|]. intros pid.
    apply reads_only_bind; [apply reads_only_print|]. intros _.
    apply reads_only_bind; [apply get_playlist_with_dates_reads|].
    intros [tracks pname].
    apply reads_only_bind; [apply reads_only_lift|]. intros new.
    apply reads_only_bind; [apply reads_only_lift|]. intros infos.
    destruct new; apply reads_only_ret.
  - intros x. apply reads_only_bind; [apply reads_only_print|].
    intros _. apply reads_only_ret.
Qed.

(** Loading the cursor changes nothing. *)
Lemma load_last_run_date_same now e r e' :
  load_last_run_date now e = (r, e') → e' = e.
Proof.
  unfold load_last_run_date, bind, path_exists, json_load, lift, raise.
  destruct (files e !! LAST_RUN_FILE) as [f|] eqn:Hf; simpl; rewrite ?Hf.
  - destruct f; by intros [= _ <-].
  - by intros [= _ <-].
Qed.

(** Saving the log touches the files only. *)
Lemma save_song_log_keeps log_data now e r e' :
  save_song_log log_data now e = (r, e') →
  sent e' = sent e ∧ pending e' = pending e ∧ stdout e' = stdout e.
Proof.
  unfold save_song_log, bind, path_exists, json_load, json_dump, raise, ret.
  destruct (files e !! SONG_LOG_FILE) as [f|] eqn:Hf; simpl; rewrite ?Hf.
  - destruct f; by intros [= _ <-].
  - by intros [= _ <-].
Qed.

(** X13.  [main] of [track_new_songs.py] never writes to a playlist: the
    first request of a run is the token request, and every request after it
    is a GET without body, whatever the server answers and however the run
    ends. *)
Theorem main_only_reads links now_load now_log now_save e r e' :
  main strptime links now_load now_log now_save e = (r, e') →
  ∃ reqs, sent e' = sent e ++ token_request :: reqs ∧ Forall is_read reqs.
Proof.
  unfold main. unfold bind at 1.
  unfold get_access_token at 1. unfold bind at 1. unfold requests_post, send.
  destruct (pending e) as [|p pend].
  { intros [= <- <-]. exists []. done. }
  destruct (in_range_200_299 (status_code p)); last first.
  { intros [= <- <-]. exists []. done. }
  destruct (json_body p) as [tok ei rt| | |]; try (intros [= <- <-]; by exists []).
  unfold ret at 1.
  unfold bind at 1.
  match goal with |- context [load_last_run_date now_load ?env] => set (e1 := env) end.
  assert (sent e1 = sent e ++ [token_request]) as Hs1 by done.
  destruct (load_last_run_date now_load e1) as [[x|last_run] e2] eqn:Hload.
  { apply load_last_run_date_same in Hload as ->.
    intros [= <- <-]. exists []. by rewrite Hs1. }
  assert (sent e2 = sent e1) as Hs2.
  { by apply load_last_run_date_same in Hload as ->. }
  unfold bind at 1.
  destruct (process_playlists strptime links tok last_run e2) as [[x|[all log]] e3] eqn:Hloop.
  - apply (reads_only_for_each _ _ (playlist_step_reads _ _ _)) in Hloop
      as (_ & _ & reqs & Hs3 & Hreads).
    intros [= <- <-]. exists reqs. rewrite Hs3, Hs2, Hs1.
    by rewrite <- app_assoc.
  - apply (reads_only_for_each _ _ (playlist_step_reads _ _ _)) in Hloop
      as (_ & _ & reqs & Hs3 & Hreads).
    assert (∀ (m : M unit) ra ea, m e3 = (ra, ea) → sent ea = sent e3 →
              ∀ rb eb, bind m (λ _, save_last_run_date now_save) e3 = (rb, eb) →
              sent eb = sent e3) as Htail.
    { intros m ra ea Hm Hsa rb eb. unfold bind. rewrite Hm.
      destruct ra; intros [= <- <-]; done. }
    intros Hrest. exists reqs. split; [|done].
    rewrite (app_assoc _ [token_request] reqs : sent e ++ token_request :: reqs = _).
    rewrite <- Hs1, <- Hs2, <- Hs3.
    destruct log as [|entry log].
    + eapply (Htail (ret tt)); [reflexivity|done|exact Hrest].
    + destruct (save_song_log (entry :: log) now_log e3) as [ra ea] eqn:Hsave.
      eapply (Htail _ ra ea Hsave); [|exact Hrest].
      by apply save_song_log_keeps in Hsave as (? & ? & ?).
Qed.

End RunFacts.

Lemma main_only_reads_example :
  let links := ["https://open.spotify.com/playlist/aaa?si=1"] in
  let now := Dt 2024 8 1 12 0 0 0 in
  let song := Item (Some (Track "spotify:track:1" "Song" ["Artist"]))
                   (Some "2024-07-30T10:00:00Z") in
  let e := Env [Response 200 "" (TokenJson "token" 3600 None);
                Response 200 "" (PlaylistJson "Mix" [song] (Some "page2"));
                Response 200 "" (PageJson [song] None)] [] ∅ [] [] in
  let run := main strptime_padded links now now now e in
  run.1 = inr tt ∧
  ∃ reqs, sent run.2 = sent e ++ token_request :: reqs ∧ Forall is_read reqs.
Proof.
  intros links now song e run. split; [by vm_compute|].
  apply (main_only_reads strptime_padded links now now now e run.1 run.2).
  by vm_compute.
Defined.

(** ** What a run collects and what it leaves on disk *)

Section LogIndex.

Variable strptime : string → exn + datetime.

Lemma filter_loop_only_new tracks since : ∀ acc new,
  filter_loop strptime tracks since acc = inr new →
  Forall (λ it, is_new strptime since it = true) acc →
  Forall (λ it, is_new strptime since it = true) new.
Proof.
  induction tracks as [|it tracks IH]; intros acc new; simpl.
  - by intros [= <-].
  - destruct (item_track it) as [t|] eqn:Ht; [|by apply IH].
    destruct (added_at it) as [s|] eqn:Ha; [|done].
    destruct (strptime s) as [x|d] eqn:Hs; [done|].
    destruct (ltb since d) eqn:Hlt; [|by apply IH].
    intros Hrun Hacc. apply (IH _ _ Hrun). apply Forall_app. split; [done|].
    apply Forall_singleton. unfold is_new. by rewrite Ht, Ha, Hs.
Qed.

Lemma comprehension_cons {A B} (f : A → exn + B) x xs :
  comprehension f (x :: xs)
  = match f x with
    | inl e => inl e
    | inr y => match comprehension f xs with
               | inl e => inl e
               | inr ys => inr (y :: ys)
               end
    end.
Proof. reflexivity. Qed.

Lemma comprehension_app {A B} (f : A → exn + B) xs : ∀ ys bx bs,
  comprehension f xs = inr bx → comprehension f ys = inr bs →
  comprehension f (xs ++ ys) = inr (bx ++ bs).
Proof.
  induction xs as [|x xs IH]; intros ys bx bs.
  - by intros [= <-].
  - simpl app. rewrite !comprehension_cons. destruct (f x) as [e|y]; [done|].
    destruct (comprehension f xs) as [e|zs] eqn:Hxs; [done|].
    intros [= <-] Hys. by rewrite (IH ys zs bs).
Qed.

Lemma comprehension_length {A B} (f : A → exn + B) xs : ∀ bs,
  comprehension f xs = inr bs → length bs = length xs.
Proof.
  induction xs as [|x xs IH]; intros bs.
  - by intros [= <-].
  - rewrite comprehension_cons. destruct (f x) as [e|y]; [done|].
    destruct (comprehension f xs) as [e|zs]; [done|].
    intros [= <-]. simpl. by rewrite (IH zs).
Qed.

Lemma consecutive_snoc entry : ∀ log from mid,
  consecutive from log mid →
  start_index entry = mid → 0 < count entry → count entry = len (tracks entry) →
  end_index entry = mid + count entry →
  consecutive from (log ++ [entry]) (end_index entry).
Proof.
  induction log as [|x log IH]; intros from mid; simpl.
  - intros <- Hs Hc Hl He. by rewrite Hs.
  - intros (H1 & H2 & H3 & H4 & Hrest) Hs Hc Hl He.
    repeat (split; [done|]). by apply (IH _ mid).
Qed.

(** What the loop keeps true of its two locals: the log entries cut
    [all_new_tracks] into consecutive ranges, their track records are the
    records of [all_new_tracks] in order, and every collected entry is new. *)
Lemma playlist_step_log total token last_run entry all log e all' log' e' :
  playlist_step strptime total token last_run entry (all, log) e
  = (inr (all', log'), e') →
  consecutive 0 log (len all) ∧
  comprehension get_track_info all = inr (concat (map tracks log)) ∧
  Forall (λ it, is_new strptime last_run it = true) all →
  consecutive 0 log' (len all') ∧
  comprehension get_track_info all' = inr (concat (map tracks log')) ∧
  Forall (λ it, is_new strptime last_run it = true) all'.
Proof.
  destruct entry as [idx link]. unfold playlist_step, try_except.
  destruct (process_playlist _ _ _ _ _ _ _ _) as [[x|[a l]] e1] eqn:Hbody.
  { destruct (is_Exception x); [|done]. unfold bind, print, ret.
    by intros [= <- <- _]. }
  intros [= <- <- <-] (Hcons & Hinfos & Hnew). revert Hbody.
  unfold process_playlist. unfold bind at 1. unfold lift at 1.
  destruct (extract_playlist_id link) as [x|pid]; [done|].
  unfold bind at 1. unfold print at 1. unfold bind at 1.
  match goal with |- context [get_playlist_with_dates ?p ?t ?e0] =>
    destruct (get_playlist_with_dates p t e0) as [[x|[tracks pname]] e2] end; [done|].
  unfold bind, lift, filter_songs_by_date.
  destruct (filter_loop strptime tracks last_run []) as [x|new] eqn:Hf; [done|].
  destruct (comprehension get_track_info new) as [x|infos] eqn:Hc; [done|].
  apply filter_loop_only_new in Hf; [|constructor].
  destruct new as [|it new]; unfold ret; intros [= <- <- _]; [done|].
  pose proof (comprehension_length _ _ _ Hc) as Hlen.
  split; [|split].
  - replace (len (all ++ it :: new)) with (len all + len (it :: new))
      by (unfold len; rewrite length_app; lia).
    apply (consecutive_snoc
             (LogEntry pid pname (len all) (len (it :: new))
                (len all + len (it :: new)) infos) log 0 (len all)); simpl;
      [done|done| |by unfold len; rewrite Hlen|done].
    unfold len. simpl. lia.
  - rewrite map_app, concat_app. simpl. rewrite app_nil_r.
    by apply comprehension_app.
  - by apply Forall_app.
Qed.

(** X14.  When the loop over the playlists is through, the log entries cut
    the collected tracks into consecutive index ranges starting at 0 and
    ending at their number, none of them empty; the track records of the
    log, read in order, are the records of the collected tracks; and every
    collected track was added after the cursor. *)
Theorem log_entries_partition_new_tracks links token last_run e all log e' :
  process_playlists strptime links token last_run e = (inr (all, log), e') →
  consecutive 0 log (len all) ∧
  comprehension get_track_info all = inr (concat (map tracks log)) ∧
  Forall (λ it, is_new strptime last_run it = true) all.
Proof.
  unfold process_playlists.
  assert (∀ entries a l e0,
            consecutive 0 l (len a) ∧
            comprehension get_track_info a = inr (concat (map tracks l)) ∧
            Forall (λ it, is_new strptime last_run it = true) a →
            for_each entries (playlist_step strptime (len links) token last_run) (a, l) e0
            = (inr (all, log), e') →
            consecutive 0 log (len all) ∧
            comprehension get_track_info all = inr (concat (map tracks log)) ∧
            Forall (λ it, is_new strptime last_run it = true) all) as Hloop.
  { induction entries as [|entry entries IH]; intros a l e0 Hinv.
    - by intros [= <- <- _].
    - rewrite for_each_cons. unfold bind at 1.
      destruct (playlist_step _ _ _ _ _ _ _) as [[x|[a1 l1]] e1] eqn:Hstep; [done|].
      apply IH. by apply (playlist_step_log _ _ _ _ _ _ _ _ _ _ Hstep). }
  apply Hloop. by repeat split.
Qed.

End LogIndex.

Lemma log_entries_partition_new_tracks_example :
  let links := ["https://open.spotify.com/playlist/aaa?si=1"; "bbb"] in
  let last_run := Dt 2024 7 1 0 0 0 0 in
  let song n s := Item (Some (Track ("spotify:track:" +:+ n) n ["Artist"])) (Some s) in
  let e := Env [Response 200 "" (PlaylistJson "Mix" [song "1" "2024-07-30T10:00:00Z";
                                                       song "2" "2024-06-30T10:00:00Z"]
                                    (Some "page2"));
                Response 200 "" (PageJson [song "3" "2024-07-31T10:00:00Z"] None);
                Response 200 "" (PlaylistJson "Other" [Item None None;
                                                         song "4" "2024-08-01T10:00:00Z"]
                                    None)] [] ∅ [] [] in
  let run := process_playlists strptime_padded links "token" last_run e in
  ∃ all log,
    run.1 = inr (all, log) ∧ length log = 2%nat ∧ len all = 3 ∧
    consecutive 0 log (len all) ∧
    comprehension get_track_info all = inr (concat (map tracks log)) ∧
    Forall (λ it, is_new strptime_padded last_run it = true) all.
Proof.
  intros links last_run song e run.
  eexists _, _. split; [vm_compute; reflexivity|].
  split; [reflexivity|]. split; [reflexivity|].
  apply (log_entries_partition_new_tracks strptime_padded links "token" last_run e
           _ _ run.2).
  vm_compute. reflexivity.
Defined.

Section RunFiles.

Variable strptime : string → exn + datetime.

Lemma get_access_token_files client_id client_secret e r e' :
  get_access_token client_id client_secret e = (r, e') →
  files e' = files e ∧ stdin e' = stdin e.
Proof.
  unfold get_access_token, bind, requests_post, send, raise, ret.
  destruct (pending e) as [|p pend]; [by intros [= _ <-]|].
  destruct (in_range_200_299 (status_code p)); [|by intros [= _ <-]].
  destruct (json_body p); by intros [= _ <-].
Qed.

(** [save_song_log] either raises and changes nothing, or rewrites the log
    file with one more run. *)
Lemma save_song_log_files log_data now e r e' :
  save_song_log log_data now e = (r, e') →
  match r with
  | inl _ => e' = e
  | inr _ =>
    files e'
    = <[SONG_LOG_FILE :=
          SongLogFile (match files e !! SONG_LOG_FILE with
                       | Some (SongLogFile runs) => runs
                       | _ => []
                       end ++ [LogRun (isoformat now) log_data])]> (files e)
  end.
Proof.
  unfold save_song_log, bind, path_exists, json_load, json_dump, raise, ret.
  destruct (files e !! SONG_LOG_FILE) as [f|] eqn:Hf; simpl; rewrite ?Hf.
  - destruct f; by intros [= <- <-].
  - by intros [= <- <-].
Qed.

(** X15.  A run of [main] that raises leaves every file as it was: the
    cursor is not advanced and the song log is not touched.  A run that
    ends normally sets the cursor to the time of its last step, appends one
    run to the song log exactly when it logged new tracks, and writes no
    other file. *)
Theorem run_writes_files_only_at_the_end links now_load now_log now_save e r e' :
  main strptime links now_load now_log now_save e = (r, e') →
  match r with
  | inl _ => files e' = files e
  | inr _ =>
    ∃ token last_run e0 all log e1,
      get_access_token CLIENT_ID CLIENT_SECRET e = (inr token, e0) ∧
      load_last_run_date now_load e0 = (inr last_run, e0) ∧
      process_playlists strptime links token last_run e0 = (inr (all, log), e1) ∧
      files e'
      = <[LAST_RUN_FILE := LastRunFile (isoformat now_save)]>
          (match log with
           | [] => files e
           | _ =>
             <[SONG_LOG_FILE :=
                 SongLogFile (match files e !! SONG_LOG_FILE with
                              | Some (SongLogFile runs) => runs
                              | _ => []
                              end ++ [LogRun (isoformat now_log) log])]> (files e)
           end)
  end.
Proof.
  unfold main. unfold bind at 1.
  destruct (get_access_token CLIENT_ID CLIENT_SECRET e) as [[x|tok] e1] eqn:Htok.
  { apply get_access_token_files in Htok as [Hf _]. by intros [= <- <-]. }
  pose proof (get_access_token_files _ _ _ _ _ Htok) as [Hf1 _].
  unfold bind at 1.
  destruct (load_last_run_date now_load e1) as [[x|last_run] e2] eqn:Hload.
  { apply load_last_run_date_same in Hload as ->. by intros [= <- <-]. }
  pose proof (load_last_run_date_same _ _ _ _ Hload) as ->.
  unfold bind at 1.
  destruct (process_playlists strptime links tok last_run e1)
    as [[x|[all log]] e3] eqn:Hloop.
  { apply (reads_only_for_each _ _ (playlist_step_reads strptime _ _ _)) in Hloop
      as (Hf3 & _). intros [= <- <-]. congruence. }
  pose proof Hloop as Hrun.
  apply (reads_only_for_each _ _ (playlist_step_reads strptime _ _ _)) in Hloop
    as (Hf3 & _).
  unfold bind, save_last_run_date, json_dump.
  destruct log as [|entry log].
  - unfold ret. intros [= <- <-]. exists tok, last_run, e1, all, [], e3.
    do 3 (split; [done|]). simpl. congruence.
  - destruct (save_song_log (entry :: log) now_log e3) as [[x|[]] e4] eqn:Hsave;
      apply save_song_log_files in Hsave.
    + subst e4. intros [= <- <-]. congruence.
    + intros [= <- <-]. exists tok, last_run, e1, all, (entry :: log), e3.
      do 3 (split; [done|]). simpl. rewrite Hsave, Hf3, Hf1. done.
Qed.

End RunFiles.

Lemma run_writes_files_only_at_the_end_example :
  let links := ["https://open.spotify.com/playlist/aaa?si=1"] in
  let now := Dt 2024 8 1 12 0 0 0 in
  let song := Item (Some (Track "spotify:track:1" "Song" ["Artist"]))
                   (Some "2024-07-30T10:00:00Z") in
  let e := Env [Response 200 "" (TokenJson "token" 3600 None);
                Response 200 "" (PlaylistJson "Mix" [song] None)]
               [] {[SONG_LOG_FILE := LastRunFile "2024-07-01T00:00:00"]} [] [] in
  let run := main strptime_padded links now now now e in
  (∃ x, run.1 = inl x) ∧ files run.2 = files e.
Proof.
  intros links now song e run.
  assert (∃ x, run.1 = inl x) as Hraised by (vm_compute; eauto).
  split; [done|]. destruct Hraised as [x Hx].
  pose proof (run_writes_files_only_at_the_end strptime_padded links now now now e
                run.1 run.2 (surjective_pairing run)) as Hfiles.
  rewrite Hx in Hfiles. exact Hfiles.
Defined.

(** ** Cutting an id out of a link *)

Section SplitFacts.

Lemma prefix_refl_app sep rest : Str.prefix sep (sep +:+ rest) = true.
Proof.
  induction sep as [|c sep IH]; [done|].
  rewrite str_app_cons. simpl. by rewrite Ascii.eqb_refl.
Qed.

(** A prefix test looks at no more characters than the prefix has. *)
Lemma prefix_app_long sep : ∀ u x,
  (String.length sep ≤ String.length u)%nat →
  Str.prefix sep (u +:+ x) = Str.prefix sep u.
Proof.
  induction sep as [|c sep IH]; intros u x Hlen; [done|].
  destruct u as [|d u]; [simpl in Hlen; lia|].
  rewrite str_app_cons. simpl. destruct (Ascii.eqb c d); [|done].
  apply IH. simpl in Hlen. lia.
Qed.

Lemma prefix_app_true sep : ∀ u x,
  Str.prefix sep u = true → Str.prefix sep (u +:+ x) = true.
Proof.
  induction sep as [|c sep IH]; intros u x; [done|].
  destruct u as [|d u]; [done|]. rewrite str_app_cons. simpl.
  destruct (Ascii.eqb c d); [apply IH|done].
Qed.

Lemma contains_app_l sep x : ∀ u,
  Str.contains sep (u +:+ x) = false → Str.contains sep u = false.
Proof.
  induction u as [|d u IH].
  - rewrite str_app_nil_l. intros Hc. rewrite contains_nil.
    destruct (Str.prefix sep EmptyString) eqn:Hp; [|done].
    apply (prefix_app_true sep EmptyString x) in Hp. rewrite str_app_nil_l in Hp.
    apply prefix_contains in Hp. congruence.
  - rewrite str_app_cons. simpl. intros [Hp Hc]%orb_false_iff.
    rewrite (IH Hc), orb_false_r.
    destruct (Str.prefix sep (String d u)) eqn:Hp'; [|done].
    apply (prefix_app_true _ _ x) in Hp'. rewrite str_app_cons in Hp'. congruence.
Qed.

Lemma contains_mid sep b : ∀ a, Str.contains sep (a +:+ sep +:+ b) = true.
Proof.
  induction a as [|c a IH].
  - rewrite str_app_nil_l. apply prefix_contains, prefix_refl_app.
  - rewrite str_app_cons. simpl. rewrite IH. apply orb_true_r.
Qed.

Lemma of_rev_cons c cur : Str.of_rev (c :: cur) = Str.of_rev cur +:+ String c EmptyString.
Proof.
  unfold Str.of_rev. simpl. generalize (rev cur). intros l.
  induction l as [|d l IH]; simpl; [done|]. by rewrite str_app_cons, IH.
Qed.

(** With no separator left, the rest of the string is the last piece. *)
Lemma split_go_none sep : ∀ s cur,
  Str.contains sep s = false → Str.split_go sep 0 cur s = [Str.of_rev cur +:+ s].
Proof.
  induction s as [|c s IH]; intros cur Hc.
  - simpl. by rewrite str_app_nil_r.
  - simpl in Hc. apply orb_false_iff in Hc as [Hp Hc].
    change (Str.split_go sep 0 cur (String c s))
      with (if Str.prefix sep (String c s)
            then Str.of_rev cur :: Str.split_go sep (String.length sep - 1) [] s
            else Str.split_go sep 0 (c :: cur) s).
    rewrite Hp, (IH _ Hc), of_rev_cons, str_app_assoc, str_app_cons, str_app_nil_l.
    done.
Qed.

(** Passing over the characters of a matched separator. *)
Lemma split_go_skip sep s : ∀ u cur,
  Str.split_go sep (String.length u) cur (u +:+ s) = Str.split_go sep 0 cur s.
Proof.
  induction u as [|c u IH]; intros cur.
  - by rewrite str_app_nil_l.
  - rewrite str_app_cons. simpl. apply IH.
Qed.

(** The first piece ends where the separator [init ++ [last]] first
    occurs. *)
Lemma split_go_first sep init last rest :
  sep = init +:+ String last EmptyString →
  ∀ a cur,
    Str.contains sep (a +:+ init) = false →
    Str.split_go sep 0 cur (a +:+ sep +:+ rest)
    = (Str.of_rev cur +:+ a) :: Str.split_go sep 0 [] rest.
Proof.
  intros Hsep.
  assert (String.length sep = S (String.length init)) as Hlen.
  { rewrite Hsep. clear. induction init as [|c init IH]; [done|].
    rewrite str_app_cons. simpl. by rewrite IH. }
  assert (∀ c s cur,
            Str.split_go sep 0 cur (String c s)
            = if Str.prefix sep (String c s)
              then Str.of_rev cur :: Str.split_go sep (String.length sep - 1) [] s
              else Str.split_go sep 0 (c :: cur) s) as Hstep by done.
  induction a as [|c a IH]; intros cur Hc.
  - rewrite str_app_nil_l, str_app_nil_r.
    destruct sep as [|d sep']; [done|].
    rewrite str_app_cons, Hstep.
    rewrite <- (str_app_cons d sep' rest), prefix_refl_app. f_equal.
    replace (String.length (String d sep') - 1)%nat with (String.length sep')
      by (simpl; lia).
    apply split_go_skip.
  - rewrite str_app_cons in Hc. simpl in Hc. apply orb_false_iff in Hc as [Hp Hc].
    rewrite str_app_cons, Hstep.
    assert (Str.prefix sep (String c (a +:+ sep +:+ rest)) = false) as ->.
    { rewrite <- Hp.
      assert (String c (a +:+ sep +:+ rest)
              = String c (a +:+ init) +:+ String last EmptyString +:+ rest) as ->.
      { rewrite Hsep, str_app_cons, !str_app_assoc. done. }
      apply prefix_app_long. rewrite Hlen. clear.
      simpl. induction a as [|d a IH]; [rewrite str_app_nil_l; lia|].
      rewrite str_app_cons. simpl. lia. }
    rewrite (IH _ Hc), of_rev_cons, str_app_assoc, str_app_cons, str_app_nil_l.
    done.
Qed.

End SplitFacts.

Section LinkFacts.

Lemma split_whole sep s : Str.contains sep s = false → Str.split sep s = [s].
Proof. intros Hc. unfold Str.split. by rewrite split_go_none. Qed.

Lemma split_around sep init last a rest :
  sep = init +:+ String last EmptyString →
  Str.contains sep (a +:+ init) = false →
  Str.split sep (a +:+ sep +:+ rest) = a :: Str.split sep rest.
Proof.
  intros Hsep Hc. unfold Str.split.
  by rewrite (split_go_first sep init last rest Hsep a []).
Qed.

(** The first piece of a split on a one-character separator does not hold
    the separator. *)
Lemma split_go_head_char c : ∀ s cur,
  ∃ piece pieces,
    Str.split_go (String c EmptyString) 0 cur s = (Str.of_rev cur +:+ piece) :: pieces ∧
    Str.contains (String c EmptyString) piece = false.
Proof.
  induction s as [|d s IH]; intros cur.
  - exists EmptyString, []. simpl. by rewrite str_app_nil_r.
  - change (Str.split_go (String c EmptyString) 0 cur (String d s))
      with (if Str.prefix (String c EmptyString) (String d s)
            then Str.of_rev cur :: Str.split_go (String c EmptyString) 0 [] s
            else Str.split_go (String c EmptyString) 0 (d :: cur) s).
    destruct (Str.prefix (String c EmptyString) (String d s)) eqn:Hp.
    + exists EmptyString. eexists. by rewrite str_app_nil_r.
    + destruct (IH (d :: cur)) as (piece & pieces & -> & Hno).
      exists (String d piece), pieces.
      rewrite of_rev_cons, str_app_assoc, str_app_cons, str_app_nil_l.
      split; [done|]. simpl in *. rewrite Hno, orb_false_r.
      destruct (Ascii.eqb c d); [|done]. by destruct s.
Qed.

(** X16.  [extract_playlist_id] never raises.  A string without
    ['spotify.com/playlist/'] comes back as it is; from any other link the
    id that comes back holds no ['?']: the query string is cut off. *)
Theorem extract_playlist_id_cuts_query playlist_link :
  ∃ playlist_id,
    extract_playlist_id playlist_link = inr playlist_id ∧
    if Str.contains "spotify.com/playlist/" playlist_link
    then Str.contains "?" playlist_id = false
    else playlist_id = playlist_link.
Proof.
  unfold extract_playlist_id.
  destruct (Str.contains "spotify.com/playlist/" playlist_link) eqn:Hc; [|by eauto].
  assert (Str.contains "playlist/" playlist_link = true) as Hc'.
  { apply (contains_app "spotify.com/" "playlist/"). exact Hc. }
  destruct (split_go_second "playlist/" playlist_link [] Hc' eq_refl) as [rest Hrest].
  unfold Str.split at 1. rewrite Hrest.
  destruct (split_go_head_char "?" rest []) as (piece & pieces & Hsplit & Hno).
  unfold Str.split. rewrite Hsplit. simpl. exists piece. by rewrite str_app_nil_l.
Qed.

(** X17.  From a share link [<host>spotify.com/playlist/<id>?<query>], and
    from the same link without its query, [extract_playlist_id] returns
    [<id>]; given [<id>] itself it returns it unchanged.  The id is taken to
    hold no ['?'], and ['playlist/'] to occur nowhere else in the link. *)
Theorem extract_playlist_id_of_share_link host playlist_id query :
  Str.contains "playlist/" (host +:+ "spotify.com/playlist") = false →
  Str.contains "?" playlist_id = false →
  Str.contains "playlist/" (playlist_id +:+ "?" +:+ query) = false →
  extract_playlist_id (host +:+ "spotify.com/playlist/" +:+ playlist_id +:+ "?" +:+ query)
  = inr playlist_id ∧
  extract_playlist_id (host +:+ "spotify.com/playlist/" +:+ playlist_id) = inr playlist_id ∧
  extract_playlist_id playlist_id = inr playlist_id.
Proof.
  intros Hhost Hid Hrest.
  assert (Str.contains "playlist/" playlist_id = false) as Hid'
    by apply (contains_app_l _ _ _ Hrest).
  assert (∀ rest, host +:+ "spotify.com/playlist/" +:+ rest
                  = (host +:+ "spotify.com/") +:+ "playlist/" +:+ rest) as Hcut.
  { intros rest. rewrite str_app_assoc. f_equal. }
  assert (Str.contains "playlist/" ((host +:+ "spotify.com/") +:+ "playlist") = false)
    as Hhost' by (by rewrite str_app_assoc).
  assert (∀ rest, Str.contains "playlist/" rest = false →
            Str.split "?" rest !! 0%nat = Some playlist_id →
            extract_playlist_id (host +:+ "spotify.com/playlist/" +:+ rest)
            = inr playlist_id) as Hlink.
  { intros rest Hno Hfirst. unfold extract_playlist_id.
    rewrite contains_mid, Hcut.
    rewrite (split_around "playlist/" "playlist" "/" _ rest eq_refl Hhost').
    rewrite (split_whole _ _ Hno). simpl. by rewrite Hfirst. }
  split; [|split].
  - apply Hlink; [done|].
    rewrite (split_around "?" "" "?" playlist_id query eq_refl); [done|].
    by rewrite str_app_nil_r.
  - apply Hlink; [done|]. by rewrite (split_whole _ _ Hid).
  - unfold extract_playlist_id.
    destruct (Str.contains "spotify.com/playlist/" playlist_id) eqn:Hc; [|done].
    apply (contains_app "spotify.com/" "playlist/") in Hc. congruence.
Qed.

End LinkFacts.

Lemma extract_playlist_id_of_share_link_example :
  extract_playlist_id "https://open.spotify.com/playlist/37i9dQZF1DXcBWIGoYBM5M?si=abc123"
  = inr "37i9dQZF1DXcBWIGoYBM5M" ∧
  extract_playlist_id "https://open.spotify.com/playlist/37i9dQZF1DXcBWIGoYBM5M"
  = inr "37i9dQZF1DXcBWIGoYBM5M" ∧
  extract_playlist_id "37i9dQZF1DXcBWIGoYBM5M" = inr "37i9dQZF1DXcBWIGoYBM5M".
Proof.
  apply (extract_playlist_id_of_share_link "https://open." "37i9dQZF1DXcBWIGoYBM5M"
           "si=abc123"); reflexivity.
Defined.

(** ** The token cache, once written *)

Section ClockFacts.

Lemma succ_day_ok y m dd :
  1 <= m <= 12 ∧ 1 <= dd <= days_in_month y m →
  let '(y', m', dd') := succ_day (y, m, dd) in
  1 <= m' <= 12 ∧ 1 <= dd' <= days_in_month y' m'.
Proof.
  intros [Hm Hd]. unfold succ_day.
  destruct (Z.ltb_spec dd (days_in_month y m)); [lia|].
  destruct (Z.ltb_spec m 12).
  - pose proof (days_in_month_bound y (m + 1)). lia.
  - simpl. lia.
Qed.

Lemma pred_day_ok y m dd :
  1 <= m <= 12 ∧ 1 <= dd <= days_in_month y m →
  let '(y', m', dd') := pred_day (y, m, dd) in
  1 <= m' <= 12 ∧ 1 <= dd' <= days_in_month y' m'.
Proof.
  intros [Hm Hd]. unfold pred_day.
  destruct (Z.ltb_spec 1 dd); [lia|].
  destruct (Z.ltb_spec 1 m).
  - pose proof (days_in_month_bound y (m - 1)). lia.
  - simpl. lia.
Qed.

Lemma iter_day_ok (f : date → date) :
  (∀ y m dd, 1 <= m <= 12 ∧ 1 <= dd <= days_in_month y m →
             let '(y', m', dd') := f (y, m, dd) in
             1 <= m' <= 12 ∧ 1 <= dd' <= days_in_month y' m') →
  ∀ n y m dd, 1 <= m <= 12 ∧ 1 <= dd <= days_in_month y m →
    let '(y', m', dd') := Nat.iter n f (y, m, dd) in
    1 <= m' <= 12 ∧ 1 <= dd' <= days_in_month y' m'.
Proof.
  intros Hf. induction n as [|n IH]; intros y m dd Hok; [done|].
  simpl. specialize (IH y m dd Hok).
  destruct (Nat.iter n f (y, m, dd)) as [[y1 m1] d1]. by apply Hf.
Qed.

(** Adding a [timedelta] to a datetime the constructor accepts gives one it
    accepts, or overflows. *)
Lemma add_timedelta_valid d days seconds d' :
  valid d = true → add_timedelta d days seconds = inr d' → valid d' = true.
Proof.
  unfold valid at 1. rewrite !andb_true_iff, !Z.leb_le, !Z.ltb_lt.
  intros Hv. unfold add_timedelta, shift_days.
  set (t := hour d * 3600 + minute d * 60 + second d + seconds).
  set (n := days + t / 86400).
  assert (let '(y', m', dd') :=
            (if n <? 0 then Nat.iter (Z.to_nat (- n)) pred_day (year d, month d, day d)
             else Nat.iter (Z.to_nat n) succ_day (year d, month d, day d)) in
          1 <= m' <= 12 ∧ 1 <= dd' <= days_in_month y' m') as Hok.
  { destruct (n <? 0);
      [apply (iter_day_ok pred_day pred_day_ok)|apply (iter_day_ok succ_day succ_day_ok)];
      lia. }
  destruct (if n <? 0 then _ else _) as [[y1 m1] d1]. simpl.
  destruct (Z.leb_spec 1 y1); [|done]. destruct (Z.leb_spec y1 9999); [|done].
  simpl. intros [= <-]. unfold valid. simpl.
  rewrite !andb_true_iff, !Z.leb_le, !Z.ltb_lt.
  pose proof (Z.mod_pos_bound t 86400 eq_refl) as Hr.
  generalize dependent (t mod 86400). intros r Hr.
  repeat split; try lia; Z.div_mod_to_equations; lia.
Qed.

End ClockFacts.

Section CacheFacts.

(** A cache that is still good for more than five minutes answers
    [get_user_token] by itself. *)
Lemma cache_hit client_id client_secret redirect_uri now e
    access_token refresh_token expires_at_str expires_at limit :
  files e !! TOKEN_CACHE_FILE
  = Some (TokenCacheFile access_token refresh_token expires_at_str) →
  fromisoformat expires_at_str = inr expires_at →
  add_timedelta expires_at 0 (-300) = inr limit →
  ltb now limit = true →
  get_user_token client_id client_secret redirect_uri now e = (inr (Some access_token), e).
Proof.
  intros Hfile Hexp Hlimit Hearly.
  unfold get_user_token, from_cache, bind at 1.
  unfold bind at 1. unfold path_exists. rewrite Hfile. simpl.
  unfold bind at 1. unfold json_load. rewrite Hfile.
  unfold bind at 1. unfold lift at 1. rewrite Hexp.
  unfold bind at 1. unfold lift at 1. rewrite Hlimit, Hearly. done.
Qed.

(** Past that point, a cache with a refresh token makes [get_user_token]
    the refresh. *)
Lemma cache_stale client_id client_secret redirect_uri now e
    access_token refresh_token expires_at_str expires_at limit :
  files e !! TOKEN_CACHE_FILE
  = Some (TokenCacheFile access_token (Some refresh_token) expires_at_str) →
  fromisoformat expires_at_str = inr expires_at →
  add_timedelta expires_at 0 (-300) = inr limit →
  ltb now limit = false →
  get_user_token client_id client_secret redirect_uri now e
  = refresh_access_token client_id client_secret refresh_token now e.
Proof.
  intros Hfile Hexp Hlimit Hlate.
  unfold get_user_token, from_cache, bind at 1.
  unfold bind at 1. unfold path_exists. rewrite Hfile. simpl.
  unfold bind at 1. unfold json_load. rewrite Hfile.
  unfold bind at 1. unfold lift at 1. rewrite Hexp.
  unfold bind at 1. unfold lift at 1. rewrite Hlimit, Hlate.
  unfold bind at 1.
  by destruct (refresh_access_token _ _ _ _ e) as [[x|t] e1].
Qed.

(** X18.  A refresh answered with 200 caches the new access token with
    the refresh token it was called with (not the one in the answer) and
    the expiry [now + expires_in].  From then on [get_user_token] returns
    that access token without a request, a prompt or a write, as long as
    the clock reads earlier than five minutes before the expiry; from that
    point on it is the refresh again, with the same refresh token. *)
Theorem refreshed_token_is_served_from_cache
    client_id client_secret redirect_uri refresh_token now e r pend
    access_token expires_in refresh_token' expires_at limit :
  valid now = true →
  pending e = r :: pend → status_code r = 200 →
  json_body r = TokenJson access_token expires_in refresh_token' →
  add_timedelta now 0 expires_in = inr expires_at →
  add_timedelta expires_at 0 (-300) = inr limit →
  ∃ e1,
    refresh_access_token client_id client_secret refresh_token now e
    = (inr (Some access_token), e1) ∧
    files e1
    = <[TOKEN_CACHE_FILE :=
          TokenCacheFile access_token (Some refresh_token) (isoformat expires_at)]>
        (files e) ∧
    pending e1 = pend ∧ stdout e1 = stdout e ∧
    ∀ now',
      get_user_token client_id client_secret redirect_uri now' e1
      = if ltb now' limit then (inr (Some access_token), e1)
        else refresh_access_token client_id client_secret refresh_token now' e1.
Proof.
  intros Hnow Hp Hs Hj Hexp Hlimit.
  pose proof (add_timedelta_valid _ _ _ _ Hnow Hexp) as Hv.
  eexists. split; [|split; [|split; [|split]]].
  - unfold refresh_access_token, bind, requests_post, send, lift, json_dump, ret.
    rewrite Hp, Hs, Hj. simpl. rewrite Hexp. done.
  - done.
  - done.
  - done.
  - intros now'. destruct (ltb now' limit) eqn:Hcmp.
    + eapply cache_hit; [apply lookup_insert_eq|by apply fromisoformat_isoformat|done..].
    + eapply cache_stale; [apply lookup_insert_eq|by apply fromisoformat_isoformat|done..].
Qed.

End CacheFacts.

Lemma refreshed_token_is_served_from_cache_example :
  let now := Dt 2024 12 31 23 30 0 250000 in
  let e := Env [Response 200 "" (TokenJson "new-access" 3600 (Some "rotated"))] []
               {[TOKEN_CACHE_FILE :=
                   TokenCacheFile "old-access" (Some (Some "refresh"))
                                  "2024-12-31T22:00:00"]} [] [] in
  let expires_at := Dt 2025 1 1 0 30 0 250000 in
  let limit := Dt 2025 1 1 0 25 0 250000 in
  ∃ e1,
    refresh_access_token "id" "secret" (Some "refresh") now e
    = (inr (Some "new-access"), e1) ∧
    files e1
    = <[TOKEN_CACHE_FILE :=
          TokenCacheFile "new-access" (Some (Some "refresh")) (isoformat expires_at)]>
        (files e) ∧
    pending e1 = [] ∧ stdout e1 = stdout e ∧
    ∀ now',
      get_user_token "id" "secret" "http://localhost:8888/callback" now' e1
      = if ltb now' limit then (inr (Some "new-access"), e1)
        else refresh_access_token "id" "secret" (Some "refresh") now' e1.
Proof.
  intros now e expires_at limit.
  apply (refreshed_token_is_served_from_cache "id" "secret"
           "http://localhost:8888/callback" (Some "refresh") now e
           (Response 200 "" (TokenJson "new-access" 3600 (Some "rotated"))) []
           "new-access" 3600 (Some "rotated") expires_at limit); reflexivity.
Defined.

Section AuthorizeFacts.

(** X19.  The authorization exchanges the code that was pasted: from a
    redirect URL [<base>?code=<code>&<state>] typed on standard input it
    sends one authorization-code grant carrying [<code>].  An answer other
    than 200 ends the script with exit status 1 and leaves the files alone;
    an answer 200 with a token returns the access token and caches it with
    the refresh token of the answer and the expiry [now + expires_in]. *)
Theorem authorization_exchanges_pasted_code
    client_id client_secret redirect_uri now e base code state ls r pend :
  stdin e = (base +:+ "?code=" +:+ code +:+ "&" +:+ state) :: ls →
  Str.contains "?code=" (base +:+ "?code") = false →
  Str.contains "&" code = false →
  Str.contains "?code=" (code +:+ "&" +:+ state) = false →
  pending e = r :: pend →
  ∃ res e1,
    authorize client_id client_secret redirect_uri now e = (res, e1) ∧
    sent e1 = sent e ++
              [Request "POST" TOKEN_URL NoAuth
                 (Form [("grant_type", Some "authorization_code");
                        ("code", Some code);
                        ("redirect_uri", Some redirect_uri);
                        ("client_id", Some client_id);
                        ("client_secret", Some client_secret)])] ∧
    stdin e1 = ls ∧ pending e1 = pend ∧
    (status_code r ≠ 200 → res = inl (SystemExit 1) ∧ files e1 = files e) ∧
    (∀ access_token expires_in refresh_token expires_at,
       status_code r = 200 →
       json_body r = TokenJson access_token expires_in refresh_token →
       add_timedelta now 0 expires_in = inr expires_at →
       res = inr (Some access_token) ∧
       files e1
       = <[TOKEN_CACHE_FILE :=
             TokenCacheFile access_token (Some refresh_token) (isoformat expires_at)]>
           (files e)).
Proof.
  intros Hin Hbase Hcode Hstate Hp.
  assert (Str.split "?code=" (base +:+ "?code=" +:+ code +:+ "&" +:+ state) !! 1%nat
          = Some (code +:+ "&" +:+ state)) as Hrest.
  { rewrite (split_around "?code=" "?code" "=" base _ eq_refl Hbase).
    by rewrite (split_whole _ _ Hstate). }
  assert (Str.split "&" (code +:+ "&" +:+ state) !! 0%nat = Some code) as Hfirst.
  { rewrite (split_around "&" "" "&" code state eq_refl); [done|].
    by rewrite str_app_nil_r. }
  unfold authorize, bind, print, input, requests_post, send, raise, ret, lift,
    json_dump. simpl.
  rewrite Hin. simpl. rewrite contains_mid, Hrest, Hfirst. simpl. rewrite Hp.
  destruct (Z.eqb_spec (status_code r) 200) as [Hs|Hs]; simpl.
  - destruct (json_body r) as [tok ei rt| | |] eqn:Hj; simpl.
    + destruct (add_timedelta now 0 ei) as [x|exp] eqn:Hexp; simpl;
        do 2 eexists; (split; [done|]); simpl; do 3 (split; [done|]);
        (split; [done|]); intros ???? _ [= <- <- <-]; rewrite Hexp; by intros [= <-].
    + do 2 eexists. split; [done|]. simpl. do 3 (split; [done|]). by split.
    + do 2 eexists. split; [done|]. simpl. do 3 (split; [done|]). by split.
    + do 2 eexists. split; [done|]. simpl. do 3 (split; [done|]). by split.
  - do 2 eexists. split; [done|]. simpl. do 3 (split; [done|]). by split.
Qed.

End AuthorizeFacts.

Lemma authorization_exchanges_pasted_code_example :
  let now := Dt 2024 8 1 12 0 0 0 in
  let e := Env [Response 200 "" (TokenJson "access" 3600 (Some "refresh"))] [] ∅
               ["http://localhost:8888/callback?code=AQB42&state=xyz"] [] in
  ∃ e1,
    authorize "id" "secret" "http://localhost:8888/callback" now e
    = (inr (Some "access"), e1) ∧
    sent e1 = [Request "POST" TOKEN_URL NoAuth
                 (Form [("grant_type", Some "authorization_code");
                        ("code", Some "AQB42");
                        ("redirect_uri", Some "http://localhost:8888/callback");
                        ("client_id", Some "id");
                        ("client_secret", Some "secret")])] ∧
    files e1 = {[TOKEN_CACHE_FILE :=
                   TokenCacheFile "access" (Some (Some "refresh")) "2024-08-01T13:00:00"]}.
Proof.
  intros now e.
  destruct (authorization_exchanges_pasted_code "id" "secret"
              "http://localhost:8888/callback" now e
              "http://localhost:8888/callback" "AQB42" "state=xyz" []
              (Response 200 "" (TokenJson "access" 3600 (Some "refresh"))) []
              eq_refl eq_refl eq_refl eq_refl eq_refl)
    as (res & e1 & Hrun & Hsent & _ & _ & _ & Hok).
  destruct (Hok "access" 3600 (Some "refresh") (Dt 2024 8 1 13 0 0 0)
              eq_refl eq_refl eq_refl) as [-> Hfiles].
  exists e1. split; [done|]. split; [done|]. rewrite Hfiles. done.
Defined.
